(** * lwtensor: tensors, vectors and matrices over a flat component buffer

    A shallow embedding of [lwtensor/tensor.h], [lwtensor/vector.h] and
    [lwtensor/matrix.h].

    Conventions of the embedding.
    - The component type [ttype] is a build-time macro of the library
      (default [double]).  It is kept abstract as a [Scalar] interface,
      with instances at [Z] and at binary64.  Statements about stores,
      loops and shapes hold for every component type.  The algebraic
      statements are proved at binary64 from the laws that IEEE
      arithmetic keeps, for finite operands and up to the sign of a zero
      ([double_sim]); where a statement says so, it is proved under the
      ring laws of [ScalarRing] instead.
    - Values of the C types [int], [unsigned int] and [size_t] are kept in
      [Z].  The offset arithmetic of [get_value]/[set_value] is done in
      [int] and is wrapped to 32 bits; buffer lengths are computed in
      [size_t] and are wrapped to 64 bits.
    - A read or write outside a buffer, and a [va_arg] past the supplied
      arguments, has no defined result: the operation yields [None].
    - Tensors are values (a shape list, a component list, a rank) wherever
      only results matter.  For the arithmetic family the blocks that
      [malloc] returns are modelled as well (module [Mem]), to state what
      an operation allocates and what it leaves alone.  [malloc] is
      assumed to succeed; [free] takes the block out of the heap. *)

From Stdlib Require Import ZArith Lia Ring.
From Stdlib Require Import Floats Numbers.Cyclic.Int63.Uint63.
From stdpp Require Import base option list list_numbers gmap.

Local Open Scope Z_scope.

(** ** Machine integers *)

Definition INT_MAX : Z := 2 ^ 31 - 1.

(** Two's complement reduction of an [int] result. *)
Definition int_wrap (z : Z) : Z := (z + 2 ^ 31) mod 2 ^ 32 - 2 ^ 31.

(** Reduction of a [size_t] result; also the conversion [int] to [size_t]. *)
Definition size_wrap (z : Z) : Z := z mod 2 ^ 64.

(** ** The component type [ttype] *)

Class Scalar (T : Type) := {
  tzero : T;                 (* the literal 0.0 *)
  tone : T;                  (* the literal 1.0 *)
  tadd : T → T → T;
  tsub : T → T → T;
  tmul : T → T → T;
  tdiv : T → T → T;
  topp : T → T;              (* unary minus; used by statements only *)
  of_int : Z → T             (* conversion of an [int] operand *)
}.

(** The laws used by the algebraic statements. *)
Class ScalarRing (T : Type) `{Scalar T} : Prop := {
  scalar_ring : ring_theory tzero tone tadd tmul tsub topp (@eq T);
  of_int_one : of_int 1 = tone;
  of_int_minus_one : of_int (-1) = topp tone
}.

(** ** Loops and buffers *)

(** [for (i in l) a = body(a, i);] where the body may fail. *)
Fixpoint for_each {A I : Type} (body : A → I → option A) (l : list I) (a : A)
  : option A :=
  match l with
  | [] => Some a
  | i :: l' => a' ← body a i; for_each body l' a'
  end.

(** [buf[i]] for an integer [i]. *)
Definition read_at {A : Type} (buf : list A) (i : Z) : option A :=
  if decide (0 ≤ i) then buf !! Z.to_nat i else None.

(** [buf[i] = v] for an integer [i]. *)
Definition write_at {A : Type} (buf : list A) (i : Z) (v : A) : option (list A) :=
  if decide (0 ≤ i < Z.of_nat (length buf)) then Some (<[Z.to_nat i := v]> buf)
  else None.

Definition Zsum (l : list Z) : Z := foldr Z.add 0 l.
Definition Zprod (l : list Z) : Z := foldr Z.mul 1 l.

(** ** tensor.h *)

(** [struct Tensor], with the two buffers as the lists they point to. *)
Record Tensor (T : Type) : Type := mkTensor {
  shape : list Z;
  components : list T;
  rank : nat
}.
Arguments mkTensor {T} _ _ _.
Arguments shape {T} _.
Arguments components {T} _.
Arguments rank {T} _.

Section TensorCore.
Context {T : Type} `{!Scalar T}.

(** [size_t length = 1; for (...) length *= s;] *)
Definition buffer_length (dims : list Z) : Z :=
  foldl (λ len s, size_wrap (len * size_wrap s)) 1 dims.

(** [create_tensor(rank, ...)]: the variadic dimensions are the list
    [args]. *)
Definition create_tensor (rank : nat) (args : list Z) : option (Tensor T) :=
  if decide (rank ≤ length args)%nat then
    let dims := take rank args in
    Some (mkTensor dims (replicate (Z.to_nat (buffer_length dims)) tzero) rank)
  else None.

(** [create_tensor_byptr(rank, shape)]: reads [shape[0..rank)]. *)
Definition create_tensor_byptr (rank : nat) (shape : list Z)
  : option (Tensor T) :=
  if decide (rank ≤ length shape)%nat then
    Some (mkTensor shape
            (replicate (Z.to_nat (buffer_length (take rank shape))) tzero) rank)
  else None.

(** [get_length] *)
Definition get_length (t : Tensor T) : option Z :=
  if decide (rank t ≤ length (shape t))%nat
  then Some (buffer_length (take (rank t) (shape t))) else None.

(** [for (int j = 0; j < i; j++) subIndex *= tensor.shape[j];] *)
Definition stride_loop (sh : list Z) (i : nat) (subIndex : Z) : option Z :=
  for_each (λ sub j, s ← sh !! j; Some (int_wrap (sub * s))) (seq 0 i) subIndex.

(** The offset loop that [set_value] and [get_value] share verbatim. *)
Definition flat_index (t : Tensor T) (args : list Z) : option Z :=
  for_each (λ index i,
              subIndex ← args !! i;
              subIndex' ← stride_loop (shape t) i subIndex;
              Some (int_wrap (index + subIndex')))
           (seq 0 (rank t)) 0.

(** [set_value(tensor, value, ...)]: the struct is passed by value, the
    component buffer it points to is updated; the updated tensor is
    returned. *)
Definition set_value (t : Tensor T) (value : T) (args : list Z)
  : option (Tensor T) :=
  index ← flat_index t args;
  comps ← write_at (components t) index value;
  Some (mkTensor (shape t) comps (rank t)).

(** [get_value(tensor, ...)] *)
Definition get_value (t : Tensor T) (args : list Z) : option T :=
  index ← flat_index t args;
  read_at (components t) index.

(** The loop that every operation of the arithmetic family starts with:
    [shape[i] = lhs.shape[i]; length *= lhs.shape[i];] into a fresh array. *)
Definition copy_shape (lhs : Tensor T) : option (list Z * Z) :=
  for_each (λ '(sh, len) i,
              s ← shape lhs !! i;
              Some (sh ++ [s], size_wrap (len * size_wrap s)))
           (seq 0 (rank lhs)) ([], 1).

(** [create_copy]: the fresh component buffer is filled from the source. *)
Definition create_copy (tensor : Tensor T) : option (Tensor T) :=
  '(sh, len) ← copy_shape tensor;
  comps ← for_each (λ comps i,
                      v ← read_at (components tensor) i;
                      write_at comps i v)
                   (seqZ 0 len) (replicate (Z.to_nat len) tzero);
  Some (mkTensor sh comps (rank tensor)).

(** [sum], [subtract], [divide] and [hadamard] have the same body up to
    the operator [op] in
    [tensor.components[i] = lhs.components[i] op rhs.components[i]]. *)
Definition binary_op (op : T → T → T) (lhs rhs : Tensor T)
  : option (Tensor T) :=
  '(sh, len) ← copy_shape lhs;
  tensor ← create_tensor_byptr (rank lhs) sh;
  comps ← for_each (λ comps i,
                      a ← read_at (components lhs) i;
                      b ← read_at (components rhs) i;
                      write_at comps i (op a b))
                   (seqZ 0 len) (components tensor);
  Some (mkTensor (shape tensor) comps (rank tensor)).

(** [sum_scalar], [subtract_scalar], [divide_scalar] and [product_scalar]:
    [tensor.components[i] = lhs.components[i] op scalar]. *)
Definition scalar_op (op : T → T → T) (lhs : Tensor T) (scalar : T)
  : option (Tensor T) :=
  '(sh, len) ← copy_shape lhs;
  tensor ← create_tensor_byptr (rank lhs) sh;
  comps ← for_each (λ comps i,
                      a ← read_at (components lhs) i;
                      write_at comps i (op a scalar))
                   (seqZ 0 len) (components tensor);
  Some (mkTensor (shape tensor) comps (rank tensor)).

Definition sum := binary_op tadd.
Definition sum_scalar := scalar_op tadd.
Definition subtract := binary_op tsub.
Definition subtract_scalar := scalar_op tsub.
Definition divide := binary_op tdiv.
Definition divide_scalar := scalar_op tdiv.
Definition hadamard := binary_op tmul.
Definition product_scalar := scalar_op tmul.

End TensorCore.

(** ** vector.h *)

Section VectorLayer.
Context {T : Type} `{!Scalar T}.

Definition create_vector (n : Z) : option (Tensor T) := create_tensor 1 [n].

(** [cross(u, v)]: three direct stores into the fresh vector. *)
Definition cross (u v : Tensor T) : option (Tensor T) :=
  n ← shape u !! 0%nat;
  vector ← create_vector n;
  u0 ← read_at (components u) 0; u1 ← read_at (components u) 1;
  u2 ← read_at (components u) 2;
  v0 ← read_at (components v) 0; v1 ← read_at (components v) 1;
  v2 ← read_at (components v) 2;
  c0 ← write_at (components vector) 0 (tsub (tmul u1 v2) (tmul u2 v1));
  c1 ← write_at c0 1 (tsub (tmul u2 v0) (tmul u0 v2));
  c2 ← write_at c1 2 (tsub (tmul u0 v1) (tmul u1 v0));
  Some (mkTensor (shape vector) c2 (rank vector)).

End VectorLayer.

(** ** matrix.h *)

(** The value of [(int) pow(-1.0, row + col)], the sum being taken in
    [unsigned int]. *)
Definition pow_minus_one (row col : Z) : Z :=
  if Z.even ((row + col) mod 2 ^ 32) then 1 else -1.

Section MatrixLayer.
Context {T : Type} `{!Scalar T}.

Definition create_matrix (rows cols : Z) : option (Tensor T) :=
  create_tensor 2 [rows; cols].

(** [create_indentity(n)] (the name is the source's). *)
Definition create_indentity (n : Z) : option (Tensor T) :=
  matrix ← create_matrix n n;
  for_each (λ matrix c,
              for_each (λ matrix r,
                          if decide (c = r) then set_value matrix tone [c; r]
                          else Some matrix)
                       (seqZ 0 n) matrix)
           (seqZ 0 n) matrix.

(** [matmul(lhs, rhs)] *)
Definition matmul (lhs rhs : Tensor T) : option (Tensor T) :=
  rhs1 ← shape rhs !! 1%nat;
  lhs0 ← shape lhs !! 0%nat;
  result ← create_matrix rhs1 lhs0;
  lhs1 ← shape lhs !! 1%nat;
  for_each (λ result r,
              for_each (λ result c,
                          mir ← for_each (λ mir k,
                                            a ← get_value rhs [k; r];
                                            b ← get_value lhs [c; k];
                                            Some (tadd mir (tmul a b)))
                                         (seqZ 0 lhs1) tzero;
                          set_value result mir [r; c])
                       (seqZ 0 rhs1) result)
           (seqZ 0 lhs0) result.

(** [transpose(matrix)] *)
Definition transpose (matrix : Tensor T) : option (Tensor T) :=
  s1 ← shape matrix !! 1%nat;
  s0 ← shape matrix !! 0%nat;
  matrix_transposed ← create_matrix s1 s0;
  for_each (λ mt r,
              for_each (λ mt c,
                          value ← get_value matrix [r; c];
                          set_value mt value [c; r])
                       (seqZ 0 s1) mt)
           (seqZ 0 s0) matrix_transposed.

(** The sub-matrix that [minor] builds: the entries outside [row] and
    [col] are stored one after the other in traversal order. *)
Definition sub_matrix_of (matrix : Tensor T) (row col : Z)
  : option (Tensor T) :=
  s1 ← shape matrix !! 1%nat;
  sub_matrix ← create_matrix (s1 - 1) (s1 - 1);
  s0 ← shape matrix !! 0%nat;
  '(comps, _) ←
    for_each (λ st r,
                for_each (λ '(comps, index) c,
                            if decide (row ≠ r ∧ col ≠ c) then
                              value ← get_value matrix [r; c];
                              comps' ← write_at comps index value;
                              Some (comps', int_wrap (index + 1))
                            else Some (comps, index))
                         (seqZ 0 s1) st)
             (seqZ 0 s0) (components sub_matrix, 0);
  Some (mkTensor (shape sub_matrix) comps (rank sub_matrix)).

(** [minor], [cofactor] and [determinant] call each other; [det] stands
    for the recursive call. *)
Definition minor_with (det : Tensor T → option T)
    (matrix : Tensor T) (row col : Z) : option T :=
  sub_matrix ← sub_matrix_of matrix row col;
  det sub_matrix.

Definition cofactor_with (det : Tensor T → option T)
    (matrix : Tensor T) (row col : Z) : option T :=
  let sign := pow_minus_one row col in
  m ← minor_with det matrix row col;
  Some (tmul (of_int sign) m).

(** [determinant], the recursion being cut after [fuel] nested calls. *)
Fixpoint determinant_fuel (fuel : nat) (matrix : Tensor T) : option T :=
  match fuel with
  | O => None
  | S fuel' =>
      s0 ← shape matrix !! 0%nat;
      s1 ← shape matrix !! 1%nat;
      if decide (s0 ≠ s1) then Some tzero
      else if decide (s1 = 2) then
        a ← get_value matrix [0; 0];
        d ← get_value matrix [1; 1];
        c ← get_value matrix [1; 0];
        b ← get_value matrix [0; 1];
        Some (tsub (tmul a d) (tmul c b))
      else
        for_each (λ result r,
                    cof ← cofactor_with (determinant_fuel fuel') matrix r 0;
                    v ← get_value matrix [r; 0];
                    Some (tadd result (tmul v cof)))
                 (seqZ 0 s0) tzero
  end.

(** A matrix of [n] columns needs at most [n + 1] nested calls (see
    [determinant_fuel_enough]). *)
Definition determinant (matrix : Tensor T) : option T :=
  determinant_fuel (S (Z.to_nat (default 0 (shape matrix !! 1%nat)))) matrix.

Definition minor := minor_with determinant.
Definition cofactor := cofactor_with determinant.

(** [cofactor_matrix] *)
Definition cofactor_matrix (matrix : Tensor T) : option (Tensor T) :=
  s0 ← shape matrix !! 0%nat;
  s1 ← shape matrix !! 1%nat;
  cof_matrix ← create_matrix s0 s1;
  for_each (λ cm r,
              for_each (λ cm c,
                          cof ← cofactor matrix r c;
                          set_value cm cof [r; c])
                       (seqZ 0 s1) cm)
           (seqZ 0 s0) cof_matrix.

(** [adjugate_matrix] *)
Definition adjugate_matrix (matrix : Tensor T) : option (Tensor T) :=
  cof_matrix ← cofactor_matrix matrix;
  transpose cof_matrix.

(** [inverse]: the tensor that [product_scalar] returns is not used. *)
Definition inverse (matrix : Tensor T) : option (Tensor T) :=
  det ← determinant matrix;
  inv ← adjugate_matrix matrix;
  let inv_determinant := tdiv (of_int 1) det in
  _ ← product_scalar inv inv_determinant;
  Some inv.

End MatrixLayer.

Arguments create_tensor : simpl never.
Arguments create_tensor_byptr : simpl never.
Arguments flat_index : simpl never.
Arguments get_value : simpl never.
Arguments set_value : simpl never.
Arguments copy_shape : simpl never.
Arguments create_vector : simpl never.
Arguments create_matrix : simpl never.
Arguments sub_matrix_of : simpl never.
Arguments determinant_fuel : simpl never.
Arguments determinant : simpl never.

(** ** Component types *)

(** [ttype] as an integer type of unbounded range: [/] truncates. *)
#[export] Instance Z_scalar : Scalar Z := {|
  tzero := 0; tone := 1;
  tadd := Z.add; tsub := Z.sub; tmul := Z.mul; tdiv := Z.quot;
  topp := Z.opp; of_int := λ z, z
|}.

(** Conversion of an [int] to binary64 (exact below [2^53]). *)
Definition float_of_int (z : Z) : float :=
  match z with
  | Z0 => PrimFloat.of_uint63 0
  | Zpos _ => PrimFloat.of_uint63 (Uint63.of_Z z)
  | Zneg _ => PrimFloat.opp (PrimFloat.of_uint63 (Uint63.of_Z (- z)))
  end.

(** [ttype] as [double], the default of the library. *)
#[export] Instance double_scalar : Scalar float := {|
  tzero := 0%float; tone := 1%float;
  tadd := PrimFloat.add; tsub := PrimFloat.sub;
  tmul := PrimFloat.mul; tdiv := PrimFloat.div;
  topp := PrimFloat.opp; of_int := float_of_int
|}.

(** ** The addressing formula of the specification *)

(** [Π_{j<k} shape[j]]: the stride of axis [k]. *)
Definition axis_stride (sh : list Z) (k : nat) : Z := Zprod (take k sh).

(** [Σ_k i_k * Π_{j<k} shape[j]] *)
Definition offset_formula (sh idx : list Z) : Z :=
  Zsum (imap (λ k i, i * axis_stride sh k) idx).

(** One index per axis, each within its axis. *)
Definition in_range (sh idx : list Z) : Prop :=
  Forall2 (λ i s, 0 ≤ i < s) idx sh.

(** A tensor as the constructors build it: [rank] axes of non-negative
    extent, one component per point, and few enough components for the
    [int] offsets of the accessors. *)
Record tensor_wf {T : Type} (t : Tensor T) : Prop := {
  wf_rank : length (shape t) = rank t;
  wf_dims : Forall (λ s, 0 ≤ s) (shape t);
  wf_len : Z.of_nat (length (components t)) = Zprod (shape t);
  wf_int : Zprod (shape t) ≤ INT_MAX
}.

(** ** Vocabulary of the statements *)

(** The index pairs of a nested loop, outer index first. *)
Definition pairs (rs cs : list Z) : list (Z * Z) := r ← rs; pair r <$> cs.

(** The [k]-th index that remains when index [d] is left out. *)
Definition skip (d k : Z) : Z := if decide (k < d) then k else k + 1.

Section Vocabulary.
Context {T : Type} `{!Scalar T}.

(** [acc = 0.0; for (k = 0; k < n; k++) acc += term k;] *)
Definition loop_sum (n : Z) (term : Z → T) : T :=
  foldl (λ acc k, tadd acc (term k)) tzero (seqZ 0 n).

(** The value [determinant] computes on an [n] by [n] matrix with
    entries [f]: nothing is added for [n = 0], the closed form is taken
    for [n = 2], column 0 is expanded otherwise. *)
Fixpoint det_spec (n : nat) (f : Z → Z → T) : T :=
  match n with
  | O => tzero
  | S n' =>
      if decide (n' = 1%nat)
      then tsub (tmul (f 0 0) (f 1 1)) (tmul (f 1 0) (f 0 1))
      else loop_sum (Z.of_nat n)
             (λ r, tmul (f r 0)
                     (tmul (of_int (pow_minus_one r 0))
                        (det_spec n' (λ i j, f (skip r j) (skip 0 i)))))
  end.

End Vocabulary.

(** [is_matrix t a b f]: [t] is a well-formed rank-2 tensor of shape
    [[a; b]] whose entry at [(i, j)], as [get_value] reads it, is [f i j]. *)
Record is_matrix {T : Type} (t : Tensor T) (a b : Z) (f : Z → Z → T) : Prop := {
  im_shape : shape t = [a; b];
  im_rank : rank t = 2%nat;
  im_rows : 0 ≤ a;
  im_cols : 0 ≤ b;
  im_int : a * b ≤ INT_MAX;
  im_len : Z.of_nat (length (components t)) = a * b;
  im_entry : ∀ i j, 0 ≤ i < a → 0 ≤ j < b →
             components t !! Z.to_nat (i + j * a) = Some (f i j)
}.


(** A binary64 value that is neither a NaN nor an infinity. *)
Definition finite_double (x : float) : Prop :=
  match Prim2SF x with
  | S754_zero _ | S754_finite _ _ _ => True
  | _ => False
  end.

(** A binary64 zero of either sign. *)
Definition double_zero (x : float) : Prop := ∃ s, Prim2SF x = S754_zero s.

(** Two binary64 values that are the same value, or zeros of either sign:
    what [==] of C accepts, with a NaN taken as equal to itself. *)
Definition double_sim (x y : float) : Prop :=
  x = y ∨ (double_zero x ∧ double_zero y).

(** ** Inputs of the worked examples (binary64 components) *)

(** A 3 by 3 matrix of determinant 4. *)
Definition inverse_input : Tensor float :=
  mkTensor [3; 3] [2; 1; 1; 1; 2; 1; 1; 1; 2]%float 2.

(** A 1 by 1 and a 1 by 2 matrix, whose product is defined. *)
Definition matmul_lhs : Tensor float := mkTensor [1; 1] [2%float] 2.
Definition matmul_rhs : Tensor float := mkTensor [1; 2] [3%float; 4%float] 2.

(** The first component, for comparing results. *)
Definition first_component (o : option (Tensor float)) : option float :=
  t ← o; components t !! 0%nat.


(** ** The remaining functions of tensor.h, vector.h and matrix.h *)

(** [sqrt] of [math.h] at the component type. *)
Class ScalarSqrt (T : Type) := tsqrt : T → T.

#[export] Instance double_sqrt : ScalarSqrt float := PrimFloat.sqrt.

Section Remaining.
Context {T : Type} `{!Scalar T}.

(** [dot(lhs, rhs)]: the shape of [lhs] is copied for its length; the sum
    runs over the two component buffers. *)
Definition dot (lhs rhs : Tensor T) : option T :=
  '(_, len) ← copy_shape lhs;
  for_each (λ acc i,
              a ← read_at (components lhs) i;
              b ← read_at (components rhs) i;
              Some (tadd acc (tmul a b)))
           (seqZ 0 len) tzero.

(** [create_vector_from(vec)]: [vec] is the array the pointer leads to. *)
Definition create_vector_from (vec : list T) : option (Tensor T) :=
  vector ← create_tensor 1 [3];
  v0 ← read_at vec 0; c0 ← write_at (components vector) 0 v0;
  v1 ← read_at vec 1; c1 ← write_at c0 1 v1;
  v2 ← read_at vec 2; c2 ← write_at c1 2 v2;
  Some (mkTensor (shape vector) c2 (rank vector)).

(** [norm(vec)]: the loop runs to [vec.shape[0]]. *)
Definition norm `{!ScalarSqrt T} (vec : Tensor T) : option T :=
  n ← shape vec !! 0%nat;
  acc ← for_each (λ acc i,
                    a ← read_at (components vec) i;
                    Some (tadd acc (tmul a a)))
                 (seqZ 0 n) tzero;
  Some (tsqrt acc).

(** [normalize(vec)]: a copy, divided in place by the norm. *)
Definition normalize `{!ScalarSqrt T} (vec : Tensor T) : option (Tensor T) :=
  modulo ← norm vec;
  vector ← create_copy vec;
  n ← shape vector !! 0%nat;
  comps ← for_each (λ comps i,
                      a ← read_at comps i;
                      write_at comps i (tdiv a modulo))
                   (seqZ 0 n) (components vector);
  Some (mkTensor (shape vector) comps (rank vector)).

(** [transform(vec, matrix)]: row [r] of the matrix is copied into a
    fresh vector, whose [dot] with [vec] is stored at [r]. *)
Definition transform (vec matrix : Tensor T) : option (Tensor T) :=
  n ← shape vec !! 0%nat;
  vector ← create_vector n;
  s0 ← shape matrix !! 0%nat;
  for_each (λ vector r,
              s1 ← shape matrix !! 1%nat;
              row_vector ← create_vector s1;
              row_vector ← for_each (λ rv c,
                                       value ← get_value matrix [r; c];
                                       set_value rv value [c])
                                    (seqZ 0 s1) row_vector;
              value ← dot row_vector vec;
              comps ← write_at (components vector) r value;
              Some (mkTensor (shape vector) comps (rank vector)))
           (seqZ 0 s0) vector.

End Remaining.

Arguments dot : simpl never.
Arguments create_vector_from : simpl never.
Arguments transform : simpl never.

(** The standard value of a 3 by 3 determinant with entries [f i j]. *)
Definition leibniz3 {T : Type} `{!Scalar T} (f : Z → Z → T) : T :=
  tadd
    (tsub
       (tmul (f 0 0) (tsub (tmul (f 1 1) (f 2 2)) (tmul (f 1 2) (f 2 1))))
       (tmul (f 0 1) (tsub (tmul (f 1 0) (f 2 2)) (tmul (f 1 2) (f 2 0)))))
    (tmul (f 0 2) (tsub (tmul (f 1 0) (f 2 1)) (tmul (f 1 1) (f 2 0)))).

(** ** tensor.h on a heap

    The arithmetic family once more, now with the two [malloc]ed blocks of
    a tensor as blocks of a heap, so that what an operation allocates and
    what it leaves alone can be stated.  A fresh block starts with zeros
    (in C its contents are unspecified; every cell is stored to before it
    is loaded from). *)

Module Mem.

Definition loc := positive.

Inductive block (T : Type) : Type :=
| IntBlock (cells : list Z)
| ScalarBlock (cells : list T).
Arguments IntBlock {T} _.
Arguments ScalarBlock {T} _.

(** [struct Tensor] as it is passed around: two pointers and the rank. *)
Record TensorRef : Type := mkRef {
  shape_ptr : loc;
  components_ptr : loc;
  rank_of : nat
}.

Section Ops.
Context {T : Type} `{!Scalar T}.

Definition malloc_int (n : Z) (h : gmap loc (block T))
  : loc * gmap loc (block T) :=
  let p := fresh (dom h) in
  (p, <[p := IntBlock (replicate (Z.to_nat n) 0)]> h).

Definition malloc_scalar (n : Z) (h : gmap loc (block T))
  : loc * gmap loc (block T) :=
  let p := fresh (dom h) in
  (p, <[p := ScalarBlock (replicate (Z.to_nat n) tzero)]> h).

Definition load_int (h : gmap loc (block T)) (p : loc) (i : Z) : option Z :=
  match h !! p with
  | Some (IntBlock cells) => read_at cells i
  | _ => None
  end.

Definition store_int (h : gmap loc (block T)) (p : loc) (i v : Z)
  : option (gmap loc (block T)) :=
  match h !! p with
  | Some (IntBlock cells) =>
      cells' ← write_at cells i v; Some (<[p := IntBlock cells']> h)
  | _ => None
  end.

Definition load_scalar (h : gmap loc (block T)) (p : loc) (i : Z)
  : option T :=
  match h !! p with
  | Some (ScalarBlock cells) => read_at cells i
  | _ => None
  end.

Definition store_scalar (h : gmap loc (block T)) (p : loc) (i : Z) (v : T)
  : option (gmap loc (block T)) :=
  match h !! p with
  | Some (ScalarBlock cells) =>
      cells' ← write_at cells i v; Some (<[p := ScalarBlock cells']> h)
  | _ => None
  end.

(** [create_tensor_byptr(rank, shape)] *)
Definition create_tensor_byptr (rank : nat) (shape : loc)
    (h : gmap loc (block T)) : option (TensorRef * gmap loc (block T)) :=
  length ← for_each (λ len i,
                       s ← load_int h shape i;
                       Some (size_wrap (len * size_wrap s)))
                    (seqZ 0 (Z.of_nat rank)) 1;
  let '(comps, h1) := malloc_scalar length h in
  h2 ← for_each (λ h' i, store_scalar h' comps i tzero) (seqZ 0 length) h1;
  Some (mkRef shape comps rank, h2).

(** The first loop of every arithmetic operation. *)
Definition copy_shape (lhs : TensorRef) (shape : loc)
    (h : gmap loc (block T)) : option (gmap loc (block T) * Z) :=
  for_each (λ '(h', len) i,
              s ← load_int h' (shape_ptr lhs) i;
              h'' ← store_int h' shape i s;
              Some (h'', size_wrap (len * size_wrap s)))
           (seqZ 0 (Z.of_nat (rank_of lhs))) (h, 1).

(** [sum], [subtract], [divide], [hadamard] *)
Definition binary_op (op : T → T → T) (lhs rhs : TensorRef)
    (h : gmap loc (block T)) : option (TensorRef * gmap loc (block T)) :=
  let '(shape, h1) := malloc_int (Z.of_nat (rank_of lhs)) h in
  '(h2, length) ← copy_shape lhs shape h1;
  '(tensor, h3) ← create_tensor_byptr (rank_of lhs) shape h2;
  h4 ← for_each (λ h' i,
                   a ← load_scalar h' (components_ptr lhs) i;
                   b ← load_scalar h' (components_ptr rhs) i;
                   store_scalar h' (components_ptr tensor) i (op a b))
                (seqZ 0 length) h3;
  Some (tensor, h4).

(** [sum_scalar], [subtract_scalar], [divide_scalar], [product_scalar] *)
Definition scalar_op (op : T → T → T) (lhs : TensorRef) (scalar : T)
    (h : gmap loc (block T)) : option (TensorRef * gmap loc (block T)) :=
  let '(shape, h1) := malloc_int (Z.of_nat (rank_of lhs)) h in
  '(h2, length) ← copy_shape lhs shape h1;
  '(tensor, h3) ← create_tensor_byptr (rank_of lhs) shape h2;
  h4 ← for_each (λ h' i,
                   a ← load_scalar h' (components_ptr lhs) i;
                   store_scalar h' (components_ptr tensor) i (op a scalar))
                (seqZ 0 length) h3;
  Some (tensor, h4).

Definition sum := binary_op tadd.
Definition sum_scalar := scalar_op tadd.
Definition subtract := binary_op tsub.
Definition subtract_scalar := scalar_op tsub.
Definition divide := binary_op tdiv.
Definition divide_scalar := scalar_op tdiv.
Definition hadamard := binary_op tmul.
Definition product_scalar := scalar_op tmul.

(** The tensor value that a reference denotes in a heap. *)
Definition represents (h : gmap loc (block T)) (ref : TensorRef)
    (t : Tensor T) : Prop :=
  h !! shape_ptr ref = Some (IntBlock (shape t))
  ∧ h !! components_ptr ref = Some (ScalarBlock (components t))
  ∧ rank_of ref = rank t.

(** The outcome [run] of an operation started in [h] on the operands
    [lhs] and [rhs]: a tensor in two blocks that [h] did not have, which
    denotes [result]; every block of [h] is as it was, so the operands
    still denote [l] and [r]. *)
Definition returns_new_tensor (h : gmap loc (block T))
    (lhs : TensorRef) (l : Tensor T) (rhs : TensorRef) (r : Tensor T)
    (run : option (TensorRef * gmap loc (block T))) (result : Tensor T)
  : Prop :=
  ∃ res h',
    run = Some (res, h')
    ∧ (shape_ptr res ∉ dom h) ∧ (components_ptr res ∉ dom h)
    ∧ shape_ptr res ≠ components_ptr res
    ∧ represents h' res result
    ∧ (∀ p b, h !! p = Some b → h' !! p = Some b)
    ∧ represents h' lhs l ∧ represents h' rhs r.

(** [run] returns a new tensor as above, of the shape and rank of [l],
    and the tensor it denotes is the one the operation [pure] on tensor
    values returns. *)
Definition new_tensor_like (h : gmap loc (block T))
    (lhs : TensorRef) (l : Tensor T) (rhs : TensorRef) (r : Tensor T)
    (run : option (TensorRef * gmap loc (block T)))
    (pure : option (Tensor T)) : Prop :=
  ∃ result,
    pure = Some result
    ∧ shape result = shape l ∧ rank result = rank l
    ∧ length (components result) = length (components l)
    ∧ returns_new_tensor h lhs l rhs r run result.

(** [free(p)]: the block is no longer allocated; [free] of a pointer
    to no block has no defined result. *)
Definition free (p : loc) (h : gmap loc (block T))
  : option (gmap loc (block T)) :=
  match h !! p with
  | Some _ => Some (delete p h)
  | None => None
  end.

(** [destroy_tensor] *)
Definition destroy_tensor (tensor : TensorRef) (h : gmap loc (block T))
  : option (gmap loc (block T)) :=
  h1 ← free (shape_ptr tensor) h;
  free (components_ptr tensor) h1.

(** [create_copy] *)
Definition create_copy (tensor : TensorRef) (h : gmap loc (block T))
  : option (TensorRef * gmap loc (block T)) :=
  let '(shape, h1) := malloc_int (Z.of_nat (rank_of tensor)) h in
  '(h2, length) ← copy_shape tensor shape h1;
  let '(comps, h3) := malloc_scalar length h2 in
  h4 ← for_each (λ h' i,
                   v ← load_scalar h' (components_ptr tensor) i;
                   store_scalar h' comps i v)
                (seqZ 0 length) h3;
  Some (mkRef shape comps (rank_of tensor), h4).

(** [dot]: the shape array is allocated and filled, and the function
    returns without a [free]. *)
Definition dot (lhs rhs : TensorRef) (h : gmap loc (block T))
  : option (T * gmap loc (block T)) :=
  let '(shape, h1) := malloc_int (Z.of_nat (rank_of lhs)) h in
  '(h2, length) ← copy_shape lhs shape h1;
  acc ← for_each (λ acc i,
                    a ← load_scalar h2 (components_ptr lhs) i;
                    b ← load_scalar h2 (components_ptr rhs) i;
                    Some (tadd acc (tmul a b)))
                 (seqZ 0 length) tzero;
  Some (acc, h2).

End Ops.

End Mem.


(** * Proofs *)

Section Loops.
Context {A I : Type}.
Implicit Types (body : A → I → option A) (l : list I).

Lemma for_each_app body l1 l2 a :
  for_each body (l1 ++ l2) a = a' ← for_each body l1 a; for_each body l2 a'.
Proof.
  revert a. induction l1 as [|i l1 IH]; intros a; simpl; [done|].
  destruct (body a i) as [a'|]; simpl; [apply IH|done].
Qed.

Lemma for_each_snoc body l i a :
  for_each body (l ++ [i]) a = a' ← for_each body l a; body a' i.
Proof.
  rewrite for_each_app. destruct (for_each body l a) as [a'|]; simpl; [|done].
  by destruct (body a' i).
Qed.
End Loops.

Lemma int_wrap_small z : - 2 ^ 31 ≤ z ≤ INT_MAX → int_wrap z = z.
Proof.
  unfold int_wrap, INT_MAX. intros Hz.
  rewrite Z.mod_small by lia. lia.
Qed.

Lemma size_wrap_small z : 0 ≤ z < 2 ^ 64 → size_wrap z = z.
Proof. unfold size_wrap. intros Hz. by rewrite Z.mod_small. Qed.

(** ** Strides and the offset formula *)

Lemma Zprod_app l1 l2 : Zprod (l1 ++ l2) = Zprod l1 * Zprod l2.
Proof. unfold Zprod. induction l1 as [|x l1 IH]; simpl; [lia|]. rewrite IH. lia. Qed.

Lemma Zsum_app l1 l2 : Zsum (l1 ++ l2) = Zsum l1 + Zsum l2.
Proof. unfold Zsum. induction l1 as [|x l1 IH]; simpl; [lia|]. rewrite IH. lia. Qed.

Lemma Zprod_pos l : Forall (λ s, 1 ≤ s) l → 1 ≤ Zprod l.
Proof. unfold Zprod. induction 1; simpl; nia. Qed.

Lemma Zprod_nonneg l : Forall (λ s, 0 ≤ s) l → 0 ≤ Zprod l.
Proof. unfold Zprod. induction 1; simpl; nia. Qed.

Lemma axis_stride_0 sh : axis_stride sh 0 = 1.
Proof. done. Qed.

Lemma axis_stride_S sh k s :
  sh !! k = Some s → axis_stride sh (S k) = axis_stride sh k * s.
Proof.
  intros Hk. unfold axis_stride. erewrite take_S_r by done.
  rewrite Zprod_app. unfold Zprod at 2. simpl. lia.
Qed.

Lemma axis_stride_full sh : axis_stride sh (length sh) = Zprod sh.
Proof. unfold axis_stride. by rewrite firstn_all. Qed.

Lemma axis_stride_bounds sh k :
  Forall (λ s, 1 ≤ s) sh → 1 ≤ axis_stride sh k ≤ Zprod sh.
Proof.
  intros Hsh. unfold axis_stride.
  rewrite <- (take_drop k sh) at 3. rewrite Zprod_app.
  assert (1 ≤ Zprod (take k sh)) by (apply Zprod_pos; by apply Forall_take).
  assert (1 ≤ Zprod (drop k sh)) by (apply Zprod_pos; by apply Forall_drop).
  nia.
Qed.

Lemma offset_formula_snoc sh idx i :
  offset_formula sh (idx ++ [i])
  = offset_formula sh idx + i * axis_stride sh (length idx).
Proof.
  unfold offset_formula. rewrite imap_app, Zsum_app. simpl.
  rewrite Nat.add_0_r. lia.
Qed.

Lemma in_range_dims sh idx : in_range sh idx → Forall (λ s, 1 ≤ s) sh.
Proof. induction 1; constructor; [simpl in *; lia|done]. Qed.

Lemma stride_loop_exact sh i a :
  Forall (λ s, 1 ≤ s) sh → (i ≤ length sh)%nat →
  0 ≤ a → a * axis_stride sh i ≤ INT_MAX →
  stride_loop sh i a = Some (a * axis_stride sh i).
Proof.
  intros Hsh. unfold stride_loop. induction i as [|i IH]; intros Hi Ha Hmax.
  - simpl. rewrite axis_stride_0. f_equal. lia.
  - destruct (lookup_lt_is_Some_2 sh i) as [s Hs]; [lia|].
    assert (1 ≤ s) by (eapply (Forall_lookup_1 _ _ _ _ Hsh); done).
    pose proof (axis_stride_bounds sh i Hsh).
    rewrite (axis_stride_S _ _ _ Hs) in Hmax |- *.
    rewrite seq_S, for_each_snoc. simpl.
    rewrite IH by (try lia; nia). simpl. rewrite Hs. simpl.
    rewrite int_wrap_small by (unfold INT_MAX in *; nia).
    f_equal. lia.
Qed.

Section Addressing.
Context {T : Type} `{!Scalar T}.
Implicit Types (t : Tensor T) (idx : list Z).

(** After [n] rounds the offset loop holds the formula on the first [n]
    indices, and that value is below the stride of axis [n]. *)
Lemma flat_index_prefix sh idx n :
  in_range sh idx → Zprod sh ≤ INT_MAX → (n ≤ length sh)%nat →
  for_each (λ index i,
              subIndex ← idx !! i;
              subIndex' ← stride_loop sh i subIndex;
              Some (int_wrap (index + subIndex')))
           (seq 0 n) 0
  = Some (offset_formula sh (take n idx))
  ∧ 0 ≤ offset_formula sh (take n idx) < axis_stride sh n.
Proof.
  intros Hin Hmax. pose proof (in_range_dims _ _ Hin) as Hsh.
  pose proof (Forall2_length _ _ _ Hin) as Hlen.
  induction n as [|n IH]; intros Hn.
  - simpl. rewrite take_0. unfold offset_formula, axis_stride; simpl. split; [done|].
    unfold Zsum, Zprod; simpl. lia.
  - destruct IH as [IH1 IH2]; [lia|].
    destruct (lookup_lt_is_Some_2 idx n) as [i Hi]; [lia|].
    destruct (lookup_lt_is_Some_2 sh n) as [s Hs]; [lia|].
    assert (0 ≤ i < s) as Hrange
      by (eapply (Forall2_lookup_lr _ _ _ _ _ _ Hin); done).
    pose proof (axis_stride_bounds sh n Hsh).
    pose proof (axis_stride_bounds sh (S n) Hsh) as HSn.
    rewrite (axis_stride_S _ _ _ Hs) in HSn |- *.
    rewrite (take_S_r _ _ _ Hi), offset_formula_snoc.
    rewrite length_take, Nat.min_l by lia.
    rewrite seq_S, for_each_snoc, IH1. simpl. rewrite Hi. simpl.
    rewrite stride_loop_exact by (try done; try lia; nia). simpl.
    rewrite int_wrap_small by (unfold INT_MAX in *; nia).
    split; [done|nia].
Qed.

Lemma flat_index_exact t idx :
  tensor_wf t → in_range (shape t) idx →
  flat_index t idx = Some (offset_formula (shape t) idx)
  ∧ 0 ≤ offset_formula (shape t) idx < Z.of_nat (length (components t)).
Proof.
  intros [Hrank Hdims Hlen Hint] Hin.
  pose proof (Forall2_length _ _ _ Hin) as Hl.
  destruct (flat_index_prefix (shape t) idx (rank t) Hin Hint) as [H1 H2]; [lia|].
  rewrite firstn_all2 in H1, H2 by lia.
  rewrite <- Hrank, axis_stride_full in H2.
  split; [exact H1 | lia].
Qed.

End Addressing.

Section AddressingClaim.
Context {T : Type} `{!Scalar T}.

Lemma read_at_nonneg (buf : list T) (i : Z) :
  0 ≤ i → read_at buf i = buf !! Z.to_nat i.
Proof. intros Hi. unfold read_at. by rewrite decide_True. Qed.

Lemma write_at_in_bounds (buf : list T) (i : Z) (v : T) :
  0 ≤ i < Z.of_nat (length buf) →
  write_at buf i v = Some (<[Z.to_nat i := v]> buf).
Proof. intros Hi. unfold write_at. by rewrite decide_True. Qed.

(** Both accessors go through the offset of the formula. *)
Lemma accessors_at_offset (t : Tensor T) (idx : list Z) (v : T) :
  tensor_wf t → in_range (shape t) idx →
  0 ≤ offset_formula (shape t) idx < Z.of_nat (length (components t))
  ∧ get_value t idx = components t !! Z.to_nat (offset_formula (shape t) idx)
  ∧ set_value t v idx
    = Some (mkTensor (shape t)
              (<[Z.to_nat (offset_formula (shape t) idx) := v]> (components t))
              (rank t)).
Proof.
  intros Hwf Hin.
  destruct (flat_index_exact t idx Hwf Hin) as [Hidx Hoff].
  split; [exact Hoff|]. split.
  - unfold get_value. rewrite Hidx. simpl. apply read_at_nonneg. lia.
  - unfold set_value. rewrite Hidx. simpl.
    by rewrite write_at_in_bounds.
Qed.

(** C3: on a well-formed tensor and a multi-index with one in-range index
    per axis, [get_value] reads and [set_value] writes the component
    buffer at the flat offset [Σ_k i_k * Π_{j<k} shape[j]]; axis 0 has
    stride 1 and each further axis has the stride of the axis before it
    times the extent of that axis, so axis 1 has stride [shape[0]] and
    axis 2 has stride [shape[0] * shape[1]]. *)
Theorem get_set_value_offset (t : Tensor T) (idx : list Z) (v : T) :
  tensor_wf t → in_range (shape t) idx →
  let off := offset_formula (shape t) idx in
  0 ≤ off < Z.of_nat (length (components t))
  ∧ get_value t idx = components t !! Z.to_nat off
  ∧ set_value t v idx
    = Some (mkTensor (shape t) (<[Z.to_nat off := v]> (components t)) (rank t))
  ∧ axis_stride (shape t) 0 = 1
  ∧ (∀ k s, shape t !! k = Some s →
            axis_stride (shape t) (S k) = axis_stride (shape t) k * s)
  ∧ (∀ s0 s1 rest, shape t = s0 :: s1 :: rest →
       axis_stride (shape t) 1 = s0 ∧ axis_stride (shape t) 2 = s0 * s1).
Proof.
  intros Hwf Hin off.
  destruct (accessors_at_offset t idx v Hwf Hin) as (Hoff & Hget & Hset).
  split; [exact Hoff|]. split; [exact Hget|]. split; [exact Hset|].
  split; [|split].
  - apply axis_stride_0.
  - intros k s. apply axis_stride_S.
  - intros s0 s1 rest ->. unfold axis_stride, Zprod. simpl. lia.
Qed.

End AddressingClaim.

(** A 2 by 3 tensor and the index [(1, 2)]: the offset is [1 + 2 * 2]. *)
Lemma get_set_value_offset_witness :
  let t := mkTensor [2; 3] [10; 11; 12; 13; 14; 15] 2 in
  tensor_wf t ∧ in_range (shape t) [1; 2]
  ∧ get_value t [1; 2] = Some 15
  ∧ set_value t 7 [1; 2] = Some (mkTensor [2; 3] [10; 11; 12; 13; 14; 7] 2).
Proof.
  assert (Hwf : tensor_wf (mkTensor [2; 3] [10; 11; 12; 13; 14; 15] 2)).
  { split; simpl; [reflexivity | repeat constructor; lia | reflexivity
                  | unfold INT_MAX, Zprod; simpl; lia]. }
  assert (Hin : in_range [2; 3] [1; 2]).
  { repeat constructor; lia. }
  split; [exact Hwf|]. split; [exact Hin|].
  pose proof (get_set_value_offset
                (mkTensor [2; 3] [10; 11; 12; 13; 14; 15] 2) [1; 2] 7 Hwf Hin)
    as (_ & Hget & Hset & _).
  split; [exact Hget | exact Hset].
Defined.

(** ** More on loops *)

Section MoreLoops.
Context {A I : Type}.
Implicit Types (body : A → I → option A) (l : list I).

Lemma for_each_ext body1 body2 l a :
  (∀ a' i, i ∈ l → body1 a' i = body2 a' i) →
  for_each body1 l a = for_each body2 l a.
Proof.
  revert a. induction l as [|i l IH]; intros a Hb; simpl; [done|].
  rewrite Hb by left. destruct (body2 a i) as [a'|]; simpl; [|done].
  apply IH. intros a'' j Hj. apply Hb. by right.
Qed.

Lemma for_each_fmap {J} (h : J → I) body (l : list J) a :
  for_each body (h <$> l) a = for_each (λ a' j, body a' (h j)) l a.
Proof.
  revert a. induction l as [|j l IH]; intros a; simpl; [done|].
  destruct (body a (h j)) as [a'|]; simpl; [apply IH|done].
Qed.

Lemma for_each_pure (step : A → I → A) body l a :
  (∀ a' i, i ∈ l → body a' i = Some (step a' i)) →
  for_each body l a = Some (foldl step a l).
Proof.
  revert a. induction l as [|i l IH]; intros a Hb; simpl; [done|].
  rewrite Hb by left. simpl. apply IH. intros a' j Hj. apply Hb. by right.
Qed.
End MoreLoops.

Lemma for_each_nest {A : Type} (f : A → Z → Z → option A) rs cs a :
  for_each (λ a' r, for_each (λ a'' c, f a'' r c) cs a') rs a
  = for_each (λ a' p, f a' p.1 p.2) (pairs rs cs) a.
Proof.
  unfold pairs. revert a. induction rs as [|r rs IH]; intros a; [done|].
  change ((r :: rs) ≫= (λ r0, pair r0 <$> cs))
    with ((pair r <$> cs) ++ (rs ≫= (λ r0, pair r0 <$> cs))).
  rewrite for_each_app, for_each_fmap. simpl.
  destruct (for_each (λ a'' c, f a'' r c) cs a) as [a'|]; simpl; [apply IH|done].
Qed.

Lemma elem_of_pairs rs cs p : p ∈ pairs rs cs ↔ p.1 ∈ rs ∧ p.2 ∈ cs.
Proof.
  unfold pairs. rewrite list_elem_of_bind. split.
  - intros (r & Hp & Hr). apply list_elem_of_fmap in Hp as (c & -> & Hc). done.
  - intros [Hr Hc]. exists p.1. split; [|done].
    apply list_elem_of_fmap. exists p.2. split; [by destruct p|done].
Qed.

Lemma elem_of_pairs_seqZ a b p :
  p ∈ pairs (seqZ 0 a) (seqZ 0 b) ↔ (0 ≤ p.1 < a) ∧ (0 ≤ p.2 < b).
Proof. rewrite elem_of_pairs, !elem_of_seqZ. lia. Qed.

(** ** Matrices as functions of two indices *)

Section Matrices.
Context {T : Type} `{!Scalar T}.
Implicit Types (t : Tensor T) (f g : Z → Z → T).

Lemma is_matrix_wf t a b f : is_matrix t a b f → tensor_wf t.
Proof.
  intros [Hs Hr Ha Hb Hi Hl _]. split; rewrite ?Hs; simpl.
  - by rewrite Hr.
  - repeat constructor; lia.
  - rewrite Hl. unfold Zprod. simpl. lia.
  - unfold Zprod. simpl. lia.
Qed.

Lemma wf_is_matrix t a b :
  tensor_wf t → shape t = [a; b] →
  is_matrix t a b (λ i j, default tzero (components t !! Z.to_nat (i + j * a))).
Proof.
  intros [Hr Hd Hl Hi] Hs. rewrite Hs in *. unfold Zprod in *. simpl in *.
  apply Forall_cons in Hd as [Ha Hd]. apply Forall_cons in Hd as [Hb _].
  split; try done; try lia.
  intros i j Hi' Hj'.
  destruct (lookup_lt_is_Some_2 (components t) (Z.to_nat (i + j * a))) as [x Hx];
    [nia|]. by rewrite Hx.
Qed.

Lemma is_matrix_fun_ext t a b f g :
  is_matrix t a b f → (∀ i j, 0 ≤ i < a → 0 ≤ j < b → f i j = g i j) →
  is_matrix t a b g.
Proof.
  intros [? ? ? ? ? ? He] Hfg. split; try done.
  intros i j Hi Hj. rewrite <- Hfg by done. by apply He.
Qed.

Lemma matrix_offset a b i j : offset_formula [a; b] [i; j] = i + j * a.
Proof. unfold offset_formula, axis_stride, Zsum, Zprod. simpl. lia. Qed.

Lemma is_matrix_in_range t a b f i j :
  is_matrix t a b f → 0 ≤ i < a → 0 ≤ j < b → in_range (shape t) [i; j].
Proof.
  intros [Hs _ _ _ _ _ _] Hi Hj. unfold in_range. rewrite Hs.
  apply Forall2_cons; split; [done|]. apply Forall2_cons; split; [done|].
  apply Forall2_nil_2.
Qed.

Lemma is_matrix_get t a b f i j :
  is_matrix t a b f → 0 ≤ i < a → 0 ≤ j < b →
  get_value t [i; j] = Some (f i j).
Proof.
  intros Hm Hi Hj.
  destruct (accessors_at_offset t [i; j] tzero (is_matrix_wf _ _ _ _ Hm)
              (is_matrix_in_range _ _ _ _ _ _ Hm Hi Hj)) as (_ & Hget & _).
  rewrite Hget, (im_shape _ _ _ _ Hm), matrix_offset.
  by apply (im_entry _ _ _ _ Hm).
Qed.

Lemma offset_inj a i j i' j' :
  0 ≤ i < a → 0 ≤ i' < a → i + j * a = i' + j' * a → i = i' ∧ j = j'.
Proof. intros Hi Hi' Heq. assert (j = j') by nia. subst. lia. Qed.

Lemma is_matrix_set t a b f i j v :
  is_matrix t a b f → 0 ≤ i < a → 0 ≤ j < b →
  ∃ t', set_value t v [i; j] = Some t'
        ∧ is_matrix t' a b
            (λ i' j', if decide ((i', j') = (i, j)) then v else f i' j').
Proof.
  intros Hm Hi Hj.
  destruct (accessors_at_offset t [i; j] v (is_matrix_wf _ _ _ _ Hm)
              (is_matrix_in_range _ _ _ _ _ _ Hm Hi Hj)) as (Hoff & _ & Hset).
  rewrite (im_shape _ _ _ _ Hm), matrix_offset in Hset, Hoff.
  eexists. split; [exact Hset|].
  destruct Hm as [Hs Hr Ha Hb Hint Hl He].
  split; simpl; try done.
  - by rewrite length_insert.
  - intros i' j' Hi' Hj'. case_decide as Heq.
    + injection Heq as -> ->. apply list_lookup_insert_eq. lia.
    + rewrite list_lookup_insert_ne; [by apply He|].
      intros Hk. apply Heq.
      assert (i + j * a = i' + j' * a) as Hk' by nia.
      apply offset_inj in Hk' as [-> ->]; done.
Qed.

Lemma buffer_length_matrix a b :
  0 ≤ a → 0 ≤ b → a * b ≤ INT_MAX → buffer_length [a; b] = a * b.
Proof.
  intros Ha Hb Hab. unfold buffer_length. simpl.
  assert (a = 0 ∨ b = 0 ∨ (a ≤ INT_MAX ∧ b ≤ INT_MAX)) as Hcase by nia.
  unfold INT_MAX in *.
  destruct Hcase as [->|[->|[Ha' Hb']]].
  - rewrite !Z.mul_0_r, !Z.mul_0_l. done.
  - rewrite !Z.mul_0_r. done.
  - rewrite (size_wrap_small a), Z.mul_1_l, (size_wrap_small a),
      (size_wrap_small b), size_wrap_small by lia. done.
Qed.

Lemma create_matrix_spec a b :
  0 ≤ a → 0 ≤ b → a * b ≤ INT_MAX →
  ∃ t : Tensor T, create_matrix a b = Some t ∧ is_matrix t a b (λ _ _, tzero).
Proof.
  intros Ha Hb Hab. unfold create_matrix, create_tensor. simpl.
  eexists. split; [done|]. simpl. rewrite buffer_length_matrix by done.
  split; simpl; try done.
  - rewrite length_replicate. lia.
  - intros i j Hi Hj. apply lookup_replicate_2. nia.
Qed.

Lemma is_matrix_inj t t' a b f :
  is_matrix t a b f → is_matrix t' a b f → t = t'.
Proof.
  intros [Hs Hr Ha Hb Hint Hl He] [Hs' Hr' _ _ _ Hl' He'].
  destruct t as [sh cs rk], t' as [sh' cs' rk']. simpl in *. subst.
  f_equal. apply list_eq. intros k.
  destruct (decide (Z.of_nat k < a * b)) as [Hk|Hk].
  - assert (0 < a) by nia.
    pose proof (Z.mod_pos_bound (Z.of_nat k) a ltac:(lia)).
    pose proof (Z.div_mod (Z.of_nat k) a ltac:(lia)) as Hdm.
    assert (0 ≤ Z.of_nat k / a < b) as Hq.
    { split; [apply Z.div_pos; lia|]. apply Z.div_lt_upper_bound; lia. }
    specialize (He (Z.of_nat k mod a) (Z.of_nat k / a) ltac:(lia) Hq).
    specialize (He' (Z.of_nat k mod a) (Z.of_nat k / a) ltac:(lia) Hq).
    replace (Z.to_nat (Z.of_nat k mod a + Z.of_nat k / a * a)) with k in He, He'
      by lia.
    by rewrite He, He'.
  - rewrite !lookup_ge_None_2; [done|lia|lia].
Qed.

(** A loop that stores [G i j] at every kept point [(i, j) = pos p]. *)
Lemma fill_matrix (pts : list (Z * Z)) (keep : Z * Z → Prop)
    `{!∀ p, Decision (keep p)} (pos : Z * Z → Z * Z) (G : Z → Z → T)
    (body : Tensor T → Z * Z → option (Tensor T)) t a b f :
  is_matrix t a b f →
  (∀ p, p ∈ pts → keep p → 0 ≤ (pos p).1 < a ∧ 0 ≤ (pos p).2 < b) →
  (∀ m p, p ∈ pts →
     body m p = if decide (keep p)
                then set_value m (G (pos p).1 (pos p).2) [(pos p).1; (pos p).2]
                else Some m) →
  ∃ t', for_each body pts t = Some t'
        ∧ ∀ h,
            (∀ p, p ∈ pts → keep p → h (pos p).1 (pos p).2 = G (pos p).1 (pos p).2) →
            (∀ i j, 0 ≤ i < a → 0 ≤ j < b →
                    (∀ p, p ∈ pts → keep p → pos p ≠ (i, j)) → h i j = f i j) →
            is_matrix t' a b h.
Proof.
  revert t f. induction pts as [|p pts IH]; intros t f Hm Hpos Hbody.
  - exists t. split; [done|]. intros h _ Hh.
    eapply is_matrix_fun_ext; [exact Hm|]. intros i j Hi Hj. symmetry.
    apply Hh; [done..|]. intros p Hp. by apply elem_of_nil in Hp.
  - simpl. rewrite Hbody by left.
    assert (Hpos' : ∀ q, q ∈ pts → keep q → 0 ≤ (pos q).1 < a ∧ 0 ≤ (pos q).2 < b).
    { intros q Hq. apply Hpos. by right. }
    assert (Hbody' : ∀ m q, q ∈ pts →
              body m q = if decide (keep q)
                then set_value m (G (pos q).1 (pos q).2) [(pos q).1; (pos q).2]
                else Some m).
    { intros m q Hq. apply Hbody. by right. }
    case_decide as Hk.
    + destruct (Hpos p ltac:(left) Hk) as [Hi Hj].
      destruct (is_matrix_set t a b f _ _ (G (pos p).1 (pos p).2) Hm Hi Hj)
        as (t1 & Hset & Hm1).
      rewrite Hset. simpl.
      destruct (IH _ _ Hm1 Hpos' Hbody') as (t' & Hloop & Hres).
      exists t'. split; [done|]. intros h Hw Hu. apply Hres.
      * intros q Hq. apply Hw. by right.
      * intros i j Hi' Hj' Hnot. case_decide as Heq.
        -- injection Heq as -> ->. by apply Hw; [left|].
        -- apply Hu; [done..|]. intros q Hq Hkq.
           apply elem_of_cons in Hq as [->|Hq]; [|by apply Hnot].
           intros Hp. apply Heq. by rewrite Hp.
    + simpl. destruct (IH _ _ Hm Hpos' Hbody') as (t' & Hloop & Hres).
      exists t'. split; [done|]. intros h Hw Hu. apply Hres.
      * intros q Hq. apply Hw. by right.
      * intros i j Hi' Hj' Hnot. apply Hu; [done..|]. intros q Hq Hkq.
        apply elem_of_cons in Hq as [->|Hq]; [done|by apply Hnot].
Qed.

End Matrices.

(** ** What the matrix constructors and loops compute *)

(** Reduce the binds of the option monad and nothing else. *)
Ltac step_bind := cbn [mbind option_bind].

Section MatrixOps.
Context {T : Type} `{!Scalar T}.
Implicit Types (t : Tensor T) (f g : Z → Z → T).

Lemma is_matrix_shape0 t a b f : is_matrix t a b f → shape t !! 0%nat = Some a.
Proof. intros Hm. by rewrite (im_shape _ _ _ _ Hm). Qed.

Lemma is_matrix_shape1 t a b f : is_matrix t a b f → shape t !! 1%nat = Some b.
Proof. intros Hm. by rewrite (im_shape _ _ _ _ Hm). Qed.

Lemma transpose_spec t a b f :
  is_matrix t a b f →
  ∃ t', transpose t = Some t' ∧ is_matrix t' b a (λ i j, f j i).
Proof.
  intros Hm. unfold transpose.
  rewrite (is_matrix_shape1 _ _ _ _ Hm), (is_matrix_shape0 _ _ _ _ Hm). step_bind.
  destruct (create_matrix_spec (T:=T) b a) as (z & -> & Hz);
    [apply Hm | apply Hm | pose proof (im_int _ _ _ _ Hm); lia |]. step_bind.
  rewrite for_each_nest.
  destruct (fill_matrix (pairs (seqZ 0 a) (seqZ 0 b)) (λ _, True)
              (λ p, (p.2, p.1)) (λ i j, f j i)
              (λ mt p, value ← get_value t [p.1; p.2];
                       set_value mt value [p.2; p.1])
              z b a (λ _ _, tzero) Hz) as (t' & Hloop & Hres).
  - intros p Hp _. apply elem_of_pairs_seqZ in Hp. simpl. lia.
  - intros m p Hp. apply elem_of_pairs_seqZ in Hp as [H1 H2].
    rewrite (is_matrix_get _ _ _ _ _ _ Hm H1 H2). by rewrite decide_True.
  - exists t'. split; [exact Hloop|]. apply Hres; [done|].
    intros i j Hi Hj Hnot. exfalso. apply (Hnot (j, i)); [|done..].
    apply elem_of_pairs_seqZ. simpl. lia.
Qed.

Lemma create_indentity_spec n :
  0 ≤ n → n * n ≤ INT_MAX →
  ∃ t : Tensor T, create_indentity n = Some t
      ∧ is_matrix t n n (λ i j, if decide (i = j) then tone else tzero).
Proof.
  intros Hn Hnn. unfold create_indentity.
  destruct (create_matrix_spec (T:=T) n n Hn Hn Hnn) as (z & -> & Hz). step_bind.
  rewrite for_each_nest.
  destruct (fill_matrix (pairs (seqZ 0 n) (seqZ 0 n)) (λ p, p.1 = p.2)
              (λ p, p) (λ _ _, tone)
              (λ m p, if decide (p.1 = p.2) then set_value m tone [p.1; p.2]
                      else Some m)
              z n n (λ _ _, tzero) Hz) as (t' & Hloop & Hres).
  - intros p Hp _. by apply elem_of_pairs_seqZ in Hp.
  - done.
  - exists t'. split; [exact Hloop|]. apply Hres.
    + intros p _ Hk. simpl in Hk. by rewrite decide_True.
    + intros i j Hi Hj Hnot. case_decide as Heq; [|done]. subst j.
      exfalso. apply (Hnot (i, i)); [|done..].
      apply elem_of_pairs_seqZ. simpl. lia.
Qed.

(** The innermost loop of [matmul] on in-range indices. *)
Lemma matmul_inner lhs rhs m n p f g r c :
  is_matrix lhs m n f → is_matrix rhs n p g → 0 ≤ r < p → 0 ≤ c < m →
  for_each (λ mir k,
              a ← get_value rhs [k; r];
              b ← get_value lhs [c; k];
              Some (tadd mir (tmul a b)))
           (seqZ 0 n) tzero
  = Some (loop_sum n (λ k, tmul (g k r) (f c k))).
Proof.
  intros Hl Hr Hr' Hc. unfold loop_sum.
  apply (for_each_pure (λ mir k, tadd mir (tmul (g k r) (f c k)))).
  intros mir k Hk. apply elem_of_seqZ in Hk.
  rewrite (is_matrix_get _ _ _ _ _ _ Hr), (is_matrix_get _ _ _ _ _ _ Hl) by lia.
  done.
Qed.

(** [matmul] when the product is square. *)
Lemma matmul_square_spec lhs rhs m n f g :
  is_matrix lhs m n f → is_matrix rhs n m g → m * m ≤ INT_MAX →
  ∃ res, matmul lhs rhs = Some res
         ∧ is_matrix res m m (λ r c, loop_sum n (λ k, tmul (g k r) (f c k))).
Proof.
  intros Hl Hr Hmm. unfold matmul.
  rewrite (is_matrix_shape1 _ _ _ _ Hr), (is_matrix_shape0 _ _ _ _ Hl),
    (is_matrix_shape1 _ _ _ _ Hl). step_bind.
  pose proof (im_rows _ _ _ _ Hl) as Hm0.
  destruct (create_matrix_spec (T:=T) m m Hm0 Hm0 Hmm) as (z & -> & Hz). step_bind.
  rewrite for_each_nest.
  destruct (fill_matrix (pairs (seqZ 0 m) (seqZ 0 m)) (λ _, True)
              (λ p, p) (λ r c, loop_sum n (λ k, tmul (g k r) (f c k)))
              (λ res p,
                 mir ← for_each (λ mir k,
                                   a ← get_value rhs [k; p.1];
                                   b ← get_value lhs [p.2; k];
                                   Some (tadd mir (tmul a b)))
                                (seqZ 0 n) tzero;
                 set_value res mir [p.1; p.2])
              z m m (λ _ _, tzero) Hz) as (t' & Hloop & Hres).
  - intros p Hp _. by apply elem_of_pairs_seqZ in Hp.
  - intros res p Hp. apply elem_of_pairs_seqZ in Hp as [H1 H2].
    rewrite (matmul_inner _ _ _ _ _ _ _ _ _ Hl Hr H1 H2). by rewrite decide_True.
  - exists t'. split; [exact Hloop|]. apply Hres; [done|].
    intros i j Hi Hj Hnot. exfalso. apply (Hnot (i, j)); [|done..].
    apply elem_of_pairs_seqZ. simpl. lia.
Qed.

(** The same on well-formed tensors: when [lhs.shape[0] = rhs.shape[1]]
    the result has shape [[rhs.shape[1]; lhs.shape[0]]] and its entry at
    [(r, c)] is the sum over [k] of
    [get_value(rhs, k, r) * get_value(lhs, c, k)]. *)
Lemma matmul_square lhs rhs m n :
  tensor_wf lhs → tensor_wf rhs → shape lhs = [m; n] → shape rhs = [n; m] →
  m * m ≤ INT_MAX →
  ∃ res, matmul lhs rhs = Some res
         ∧ shape res = [m; m]
         ∧ ∀ r c, 0 ≤ r < m → 0 ≤ c < m →
             ∃ a b : Z → T,
               (∀ k, 0 ≤ k < n →
                     get_value rhs [k; r] = Some (a k)
                     ∧ get_value lhs [c; k] = Some (b k))
               ∧ get_value res [r; c]
                 = Some (loop_sum n (λ k, tmul (a k) (b k))).
Proof.
  intros Hwl Hwr Hsl Hsr Hmm.
  pose proof (wf_is_matrix lhs m n Hwl Hsl) as Hl.
  pose proof (wf_is_matrix rhs n m Hwr Hsr) as Hr.
  destruct (matmul_square_spec lhs rhs m n _ _ Hl Hr Hmm) as (res & Hres & Hm).
  exists res. split; [done|]. split; [apply Hm|].
  intros r c Hr' Hc'.
  exists (λ k, default tzero (components rhs !! Z.to_nat (k + r * n))),
    (λ k, default tzero (components lhs !! Z.to_nat (c + k * m))).
  split.
  - intros k Hk. split.
    + by apply (is_matrix_get _ _ _ _ _ _ Hr).
    + by apply (is_matrix_get _ _ _ _ _ _ Hl).
  - by apply (is_matrix_get _ _ _ _ _ _ Hm).
Qed.

End MatrixOps.

(** ** The sub-matrix of [minor] *)

Lemma pairs_cons r rs cs : pairs (r :: rs) cs = (pair r <$> cs) ++ pairs rs cs.
Proof. done. Qed.

Lemma filter_pair_row (P Q : Z → Prop) `{!∀ x, Decision (P x)}
    `{!∀ x, Decision (Q x)} r cs :
  filter (λ p : Z * Z, P p.1 ∧ Q p.2) (pair r <$> cs)
  = if decide (P r) then pair r <$> filter Q cs else [].
Proof.
  induction cs as [|c cs IH]; [by case_decide|].
  rewrite fmap_cons, filter_cons, IH. simpl.
  destruct (decide (P r)) as [HP|HP].
  - rewrite filter_cons. destruct (decide (Q c)) as [HQ|HQ].
    + by rewrite decide_True.
    + rewrite decide_False; [done|]. tauto.
  - rewrite decide_False; [done|]. tauto.
Qed.

Lemma filter_pairs (P Q : Z → Prop) `{!∀ x, Decision (P x)}
    `{!∀ x, Decision (Q x)} rs cs :
  filter (λ p : Z * Z, P p.1 ∧ Q p.2) (pairs rs cs)
  = pairs (filter P rs) (filter Q cs).
Proof.
  induction rs as [|r rs IH]; [done|].
  rewrite pairs_cons, filter_app, IH, filter_pair_row, filter_cons.
  by destruct (decide (P r)).
Qed.

Lemma filter_all {A} (P : A → Prop) `{!∀ x, Decision (P x)} (l : list A) :
  Forall P l → filter P l = l.
Proof.
  induction 1 as [|x l Hx _ IH]; [done|]. rewrite filter_cons_True by done.
  by rewrite IH.
Qed.

(** The indices of a loop over [0..n) that differ from [d]. *)
Lemma filter_skip d n :
  0 ≤ d < n →
  filter (λ r, d ≠ r) (seqZ 0 n) = seqZ 0 d ++ seqZ (d + 1) (n - d - 1).
Proof.
  intros Hd. replace n with (d + (n - d)) at 1 by lia.
  rewrite seqZ_app by lia. rewrite (seqZ_cons (0 + d)) by lia.
  rewrite filter_app, filter_cons_False by (rewrite Z.add_0_l; tauto).
  replace (Z.succ (0 + d)) with (d + 1) by lia.
  replace (Z.pred (n - d)) with (n - d - 1) by lia.
  rewrite !filter_all; [done|apply Forall_seqZ; lia..].
Qed.

Lemma length_skip_list d n :
  0 ≤ d < n → length (seqZ 0 d ++ seqZ (d + 1) (n - d - 1)) = Z.to_nat (n - 1).
Proof. intros Hd. rewrite length_app, !length_seqZ. lia. Qed.

Lemma lookup_skip_list d n k :
  0 ≤ d < n → 0 ≤ k < n - 1 →
  (seqZ 0 d ++ seqZ (d + 1) (n - d - 1)) !! Z.to_nat k = Some (skip d k).
Proof.
  intros Hd Hk. unfold skip. case_decide.
  - rewrite lookup_app_l by (rewrite length_seqZ; lia).
    rewrite lookup_seqZ_lt by lia. f_equal. lia.
  - rewrite lookup_app_r by (rewrite length_seqZ; lia).
    rewrite length_seqZ, lookup_seqZ_lt by lia. f_equal. lia.
Qed.

Lemma length_pairs rs cs : length (pairs rs cs) = (length rs * length cs)%nat.
Proof.
  induction rs as [|r rs IH]; [done|].
  rewrite pairs_cons, length_app, length_fmap, IH. simpl. lia.
Qed.

Lemma lookup_pairs rs cs j i r c :
  rs !! j = Some r → cs !! i = Some c →
  pairs rs cs !! (j * length cs + i)%nat = Some (r, c).
Proof.
  revert j. induction rs as [|r' rs IH]; intros j Hr Hc; [done|].
  pose proof (lookup_lt_Some _ _ _ Hc) as Hi.
  rewrite pairs_cons. destruct j as [|j]; simpl in Hr.
  - injection Hr as ->. rewrite lookup_app_l by (rewrite length_fmap; lia).
    simpl. by rewrite list_lookup_fmap, Hc.
  - rewrite lookup_app_r by (rewrite length_fmap; lia).
    rewrite length_fmap.
    replace (S j * length cs + i - length cs)%nat with (j * length cs + i)%nat
      by lia.
    by apply IH.
Qed.

Section SubMatrix.
Context {T : Type} `{!Scalar T}.
Implicit Types (t : Tensor T) (f : Z → Z → T).

(** A loop that stores the values of the kept points one after the other,
    starting behind [pre]. *)
Lemma append_loop (pts : list (Z * Z)) (keep : Z * Z → Prop)
    `{!∀ p, Decision (keep p)} (G : Z * Z → T)
    (body : list T * Z → Z * Z → option (list T * Z)) (pre rest : list T) :
  (∀ st p, p ∈ pts →
     body st p = if decide (keep p)
                 then comps' ← write_at st.1 st.2 (G p);
                      Some (comps', int_wrap (st.2 + 1))
                 else Some st) →
  (length (filter keep pts) ≤ length rest)%nat →
  Z.of_nat (length pre + length (filter keep pts)) ≤ INT_MAX →
  for_each body pts (pre ++ rest, Z.of_nat (length pre))
  = Some (pre ++ (G <$> filter keep pts)
              ++ drop (length (filter keep pts)) rest,
          Z.of_nat (length pre + length (filter keep pts))).
Proof.
  revert pre rest. induction pts as [|p pts IH]; intros pre rest Hbody Hfit Hmax.
  - simpl. rewrite drop_0, Nat.add_0_r. done.
  - simpl. rewrite Hbody by left.
    assert (Hbody' : ∀ st q, q ∈ pts →
              body st q = if decide (keep q)
                 then comps' ← write_at st.1 st.2 (G q);
                      Some (comps', int_wrap (st.2 + 1))
                 else Some st).
    { intros st q Hq. apply Hbody. by right. }
    destruct (decide (keep p)) as [Hk|Hk].
    + rewrite filter_cons_True in Hfit, Hmax |- * by done. simpl in Hfit, Hmax.
      destruct rest as [|x rest]; [simpl in Hfit; lia|]. simpl in Hfit.
      cbn [fst snd]. rewrite write_at_in_bounds
        by (rewrite length_app; simpl; lia).
      rewrite Nat2Z.id.
      replace (length pre) with (length pre + 0)%nat at 1 by lia.
      rewrite insert_app_r. step_bind. simpl.
      rewrite int_wrap_small by (unfold INT_MAX in *; lia).
      replace (pre ++ G p :: rest) with ((pre ++ [G p]) ++ rest)
        by (by rewrite <- app_assoc).
      replace (Z.of_nat (length pre) + 1) with (Z.of_nat (length (pre ++ [G p])))
        by (rewrite length_app; simpl; lia).
      rewrite IH; [|done|lia|rewrite length_app; simpl; lia].
      rewrite <- !app_assoc. simpl. do 2 f_equal.
      rewrite length_app. simpl. lia.
    + rewrite filter_cons_False in Hfit, Hmax |- * by done.
      simpl. by apply IH.
Qed.

(** [sub_matrix_of] on a square matrix and a row and column of it: the
    kept entries in traversal order, which [get_value] then reads
    with the two indices exchanged. *)
Lemma sub_matrix_of_spec t n f row col :
  is_matrix t n n f → 0 ≤ row < n → 0 ≤ col < n →
  ∃ s, sub_matrix_of t row col = Some s
       ∧ is_matrix s (n - 1) (n - 1) (λ i j, f (skip row j) (skip col i))
       ∧ shape s = [n - 1; n - 1]
       ∧ components s
         = (λ p, f p.1 p.2)
             <$> filter (λ p, row ≠ p.1 ∧ col ≠ p.2) (pairs (seqZ 0 n) (seqZ 0 n)).
Proof.
  intros Hm Hrow Hcol. unfold sub_matrix_of.
  rewrite (is_matrix_shape1 _ _ _ _ Hm), (is_matrix_shape0 _ _ _ _ Hm). step_bind.
  pose proof (im_int _ _ _ _ Hm) as Hint.
  assert (Hsmall : (n - 1) * (n - 1) ≤ INT_MAX) by nia.
  destruct (create_matrix_spec (T:=T) (n - 1) (n - 1)) as (z & -> & Hz);
    [lia | lia | done |]. step_bind.
  rewrite for_each_nest.
  set (pts := pairs (seqZ 0 n) (seqZ 0 n)).
  set (keep := λ p : Z * Z, row ≠ p.1 ∧ col ≠ p.2).
  assert (Hkept : filter keep pts
                  = pairs (seqZ 0 row ++ seqZ (row + 1) (n - row - 1))
                          (seqZ 0 col ++ seqZ (col + 1) (n - col - 1))).
  { rewrite <- !filter_skip by done.
    exact (filter_pairs (λ r, row ≠ r) (λ c, col ≠ c) (seqZ 0 n) (seqZ 0 n)). }
  assert (Hcount : length (filter keep pts) = Z.to_nat ((n - 1) * (n - 1))).
  { rewrite Hkept, length_pairs, !length_skip_list by done. nia. }
  match goal with
  | |- context [for_each ?b pts _] =>
      pose proof (append_loop pts keep (λ p, f p.1 p.2) b [] (components z))
        as Hloop
  end.
  change ([] ++ components z, Z.of_nat (length (@nil T)))
    with (components z, 0) in Hloop.
  rewrite Hloop; clear Hloop.
  - step_bind. rewrite Hcount.
    rewrite drop_ge by (pose proof (im_len _ _ _ _ Hz); nia).
    rewrite app_nil_r. eexists. split; [done|].
    split; [|split; [apply (im_shape _ _ _ _ Hz)|done]].
    split; simpl; try apply Hz.
    + rewrite length_fmap, Hcount. nia.
    + intros i j Hi Hj. rewrite list_lookup_fmap, Hkept.
      replace (Z.to_nat (i + j * (n - 1)))
        with (Z.to_nat j
              * length (seqZ 0 col ++ seqZ (col + 1) (n - col - 1))
              + Z.to_nat i)%nat
        by (rewrite length_skip_list by done; nia).
      erewrite lookup_pairs; [done|by apply lookup_skip_list..].
  - intros [comps index] p Hp. apply elem_of_pairs_seqZ in Hp as [H1 H2].
    unfold keep. destruct (decide (row ≠ p.1 ∧ col ≠ p.2)); [|done].
    by rewrite (is_matrix_get _ _ _ _ _ _ Hm H1 H2).
  - rewrite Hcount. pose proof (im_len _ _ _ _ Hz). nia.
  - rewrite Hcount. unfold INT_MAX in *. simpl length. nia.
Qed.

End SubMatrix.

(** ** The recursion of [determinant] *)

Lemma pow_minus_one_pow r c : 0 ≤ r + c → pow_minus_one r c = (-1) ^ (r + c).
Proof.
  intros Hrc. unfold pow_minus_one.
  assert (Z.even ((r + c) mod 2 ^ 32) = Z.even (r + c)) as ->.
  { rewrite (Z.div_mod (r + c) (2 ^ 32)) at 2 by lia.
    rewrite Z.even_add, Z.even_mul. simpl. by destruct (Z.even _). }
  destruct (Z.even (r + c)) eqn:He.
  - apply Z.even_spec in He. change (-1) with (- (1)).
    rewrite Z.pow_opp_even by done. by rewrite Z.pow_1_l.
  - assert (Z.Odd (r + c)) as Ho.
    { apply Z.odd_spec. by rewrite <- Z.negb_even, He. }
    change (-1) with (- (1)) at 2.
    rewrite Z.pow_opp_odd by done. by rewrite Z.pow_1_l.
Qed.

Section Determinant.
Context {T : Type} `{!Scalar T}.
Implicit Types (t : Tensor T) (f : Z → Z → T).

Lemma determinant_fuel_S fuel t :
  determinant_fuel (S fuel) t
  = (s0 ← shape t !! 0%nat;
     s1 ← shape t !! 1%nat;
     if decide (s0 ≠ s1) then Some tzero
     else if decide (s1 = 2) then
       a ← get_value t [0; 0];
       d ← get_value t [1; 1];
       c ← get_value t [1; 0];
       b ← get_value t [0; 1];
       Some (tsub (tmul a d) (tmul c b))
     else
       for_each (λ result r,
                   cof ← cofactor_with (determinant_fuel fuel) t r 0;
                   v ← get_value t [r; 0];
                   Some (tadd result (tmul v cof)))
                (seqZ 0 s0) tzero).
Proof. done. Qed.

(** Enough fuel gives the value [det_spec], whatever the surplus. *)
Lemma determinant_fuel_enough n :
  ∀ fuel t f,
    is_matrix t (Z.of_nat n) (Z.of_nat n) f → (n < fuel)%nat →
    determinant_fuel fuel t = Some (det_spec n f).
Proof.
  induction n as [|n' IH]; intros fuel t f Hm Hfuel;
    (destruct fuel as [|fuel']; [lia|]);
    rewrite determinant_fuel_S,
      (is_matrix_shape0 _ _ _ _ Hm), (is_matrix_shape1 _ _ _ _ Hm);
    step_bind; rewrite decide_False by tauto.
  - rewrite decide_False by done. done.
  - cbn [det_spec]. destruct (decide (n' = 1%nat)) as [->|Hn'].
    + rewrite decide_True by done.
      rewrite !(is_matrix_get _ _ _ _ _ _ Hm) by (simpl; lia). done.
    + rewrite decide_False by lia.
      apply (for_each_pure
               (λ acc r,
                  tadd acc
                    (tmul (f r 0)
                       (tmul (of_int (pow_minus_one r 0))
                          (det_spec n' (λ i j, f (skip r j) (skip 0 i))))))).
      intros acc r Hr. apply elem_of_seqZ in Hr.
      unfold cofactor_with, minor_with.
      destruct (sub_matrix_of_spec t _ f r 0 Hm) as (s & -> & Hs & _);
        [lia..|]. step_bind.
      replace (Z.of_nat (S n') - 1) with (Z.of_nat n') in Hs by lia.
      rewrite (IH fuel' s _ Hs) by lia. step_bind.
      rewrite (is_matrix_get _ _ _ _ _ _ Hm) by lia. done.
Qed.

Lemma determinant_spec t n f :
  is_matrix t n n f → determinant t = Some (det_spec (Z.to_nat n) f).
Proof.
  intros Hm. unfold determinant. rewrite (is_matrix_shape1 _ _ _ _ Hm). simpl.
  apply determinant_fuel_enough; [|lia].
  by rewrite Z2Nat.id by apply Hm.
Qed.

Lemma minor_spec t n f r c :
  is_matrix t n n f → 0 ≤ r < n → 0 ≤ c < n →
  minor t r c
  = Some (det_spec (Z.to_nat (n - 1)) (λ i j, f (skip r j) (skip c i))).
Proof.
  intros Hm Hr Hc. unfold minor, minor_with.
  destruct (sub_matrix_of_spec t n f r c Hm Hr Hc) as (s & -> & Hs & _).
  step_bind. by apply determinant_spec.
Qed.

Lemma cofactor_spec t n f r c :
  is_matrix t n n f → 0 ≤ r < n → 0 ≤ c < n →
  cofactor t r c
  = Some (tmul (of_int (pow_minus_one r c))
            (det_spec (Z.to_nat (n - 1)) (λ i j, f (skip r j) (skip c i)))).
Proof.
  intros Hm Hr Hc. unfold cofactor, cofactor_with.
  change (minor_with determinant t r c) with (minor t r c).
  by rewrite (minor_spec t n f r c Hm Hr Hc).
Qed.

Lemma cofactor_matrix_spec t n f :
  is_matrix t n n f →
  ∃ t', cofactor_matrix t = Some t'
        ∧ is_matrix t' n n
            (λ r c, tmul (of_int (pow_minus_one r c))
                      (det_spec (Z.to_nat (n - 1))
                         (λ i j, f (skip r j) (skip c i)))).
Proof.
  intros Hm. unfold cofactor_matrix.
  rewrite (is_matrix_shape0 _ _ _ _ Hm), (is_matrix_shape1 _ _ _ _ Hm). step_bind.
  destruct (create_matrix_spec (T:=T) n n) as (z & -> & Hz); [apply Hm..|].
  step_bind. rewrite for_each_nest.
  destruct (fill_matrix (pairs (seqZ 0 n) (seqZ 0 n)) (λ _, True)
              (λ p, p)
              (λ r c, tmul (of_int (pow_minus_one r c))
                        (det_spec (Z.to_nat (n - 1))
                           (λ i j, f (skip r j) (skip c i))))
              (λ cm p, cof ← cofactor t p.1 p.2; set_value cm cof [p.1; p.2])
              z n n (λ _ _, tzero) Hz) as (t' & Hloop & Hres).
  - intros p Hp _. by apply elem_of_pairs_seqZ in Hp.
  - intros cm p Hp. apply elem_of_pairs_seqZ in Hp as [H1 H2].
    rewrite (cofactor_spec _ _ _ _ _ Hm H1 H2). by rewrite decide_True.
  - exists t'. split; [exact Hloop|]. apply Hres; [done|].
    intros i j Hi Hj Hnot. exfalso. apply (Hnot (i, j)); [|done..].
    apply elem_of_pairs_seqZ. simpl. lia.
Qed.

Lemma adjugate_matrix_spec t n f :
  is_matrix t n n f →
  ∃ t', adjugate_matrix t = Some t'
        ∧ is_matrix t' n n
            (λ c r, tmul (of_int (pow_minus_one r c))
                      (det_spec (Z.to_nat (n - 1))
                         (λ i j, f (skip r j) (skip c i)))).
Proof.
  intros Hm. unfold adjugate_matrix.
  destruct (cofactor_matrix_spec t n f Hm) as (cm & -> & Hcm). step_bind.
  destruct (transpose_spec cm n n _ Hcm) as (t' & Ht & Ht').
  exists t'. split; [done|]. exact Ht'.
Qed.

End Determinant.

(** ** The arithmetic family on tensor values *)

Lemma buffer_length_snoc dims s :
  buffer_length (dims ++ [s]) = size_wrap (buffer_length dims * size_wrap s).
Proof. unfold buffer_length. by rewrite foldl_app. Qed.

Lemma buffer_length_wf dims :
  Forall (λ s, 0 ≤ s) dims → Zprod dims ≤ INT_MAX →
  buffer_length dims = Zprod dims.
Proof.
  intros Hd Hmax.
  assert (buffer_length dims = Zprod dims mod 2 ^ 64) as ->.
  { clear. induction dims as [|s dims IH] using rev_ind; [done|].
    rewrite buffer_length_snoc, IH, Zprod_app. unfold size_wrap, Zprod at 3.
    simpl. rewrite Z.mul_1_r.
    by rewrite Z.mul_mod_idemp_l, Z.mul_mod_idemp_r by lia. }
  pose proof (Zprod_nonneg _ Hd). unfold INT_MAX in *.
  apply Z.mod_small. lia.
Qed.

Section Arithmetic.
Context {T : Type} `{!Scalar T}.
Implicit Types (t lhs rhs : Tensor T).

Lemma copy_shape_prefix lhs k :
  (k ≤ length (shape lhs))%nat →
  for_each (λ '(sh, len) i,
              s ← shape lhs !! i;
              Some (sh ++ [s], size_wrap (len * size_wrap s)))
           (seq 0 k) ([], 1)
  = Some (take k (shape lhs), buffer_length (take k (shape lhs))).
Proof.
  induction k as [|k IH]; intros Hk; [done|].
  rewrite seq_S, for_each_snoc, IH by lia. step_bind.
  destruct (lookup_lt_is_Some_2 (shape lhs) k) as [s Hs]; [lia|].
  simpl. rewrite Hs. step_bind.
  by rewrite (take_S_r _ _ _ Hs), buffer_length_snoc.
Qed.

Lemma copy_shape_wf lhs :
  tensor_wf lhs →
  copy_shape lhs = Some (shape lhs, Z.of_nat (length (components lhs))).
Proof.
  intros [Hr Hd Hl Hi]. unfold copy_shape.
  rewrite copy_shape_prefix by lia. rewrite <- Hr, firstn_all.
  by rewrite buffer_length_wf, Hl.
Qed.

(** A loop that stores [val i] at every offset [i] of the buffer. *)
Lemma store_loop (val : Z → T) (body : list T → Z → option (list T)) dst :
  (∀ comps i, 0 ≤ i < Z.of_nat (length dst) →
              body comps i = write_at comps i (val i)) →
  for_each body (seqZ 0 (Z.of_nat (length dst))) dst
  = Some (val <$> seqZ 0 (Z.of_nat (length dst))).
Proof.
  intros Hbody.
  assert (∀ k, (k ≤ length dst)%nat →
               for_each body (seqZ 0 (Z.of_nat k)) dst
               = Some ((val <$> seqZ 0 (Z.of_nat k)) ++ drop k dst)) as Hgen.
  { induction k as [|k IH]; intros Hk; [by rewrite drop_0|].
    rewrite seqZ_S, for_each_snoc, IH by lia. step_bind.
    rewrite Hbody by lia.
    destruct (lookup_lt_is_Some_2 dst k) as [x Hx]; [lia|].
    rewrite (drop_S _ _ _ Hx).
    rewrite write_at_in_bounds
      by (rewrite length_app, length_fmap, length_seqZ; simpl; lia).
    rewrite Z.add_0_l, Nat2Z.id, fmap_app, <- app_assoc. f_equal.
    replace k with (length (val <$> seqZ 0 (Z.of_nat k)) + 0)%nat at 1
      by (rewrite length_fmap, length_seqZ; lia).
    by rewrite insert_app_r. }
  rewrite Hgen by lia. by rewrite drop_all, app_nil_r.
Qed.

Lemma scalar_op_spec (op : T → T → T) lhs scalar :
  tensor_wf lhs →
  scalar_op op lhs scalar
  = Some (mkTensor (shape lhs) ((λ a, op a scalar) <$> components lhs)
            (rank lhs)).
Proof.
  intros Hwf. unfold scalar_op. rewrite (copy_shape_wf _ Hwf). step_bind.
  unfold create_tensor_byptr.
  rewrite decide_True by (rewrite (wf_rank _ Hwf); lia).
  step_bind. cbn [components shape rank].
  rewrite <- (wf_rank _ Hwf), firstn_all, buffer_length_wf
    by apply Hwf.
  rewrite <- (wf_len _ Hwf), Nat2Z.id.
  pose proof (store_loop
                (λ i, op (default tzero (components lhs !! Z.to_nat i)) scalar)
                (λ comps i, a ← read_at (components lhs) i;
                            write_at comps i (op a scalar))
                (replicate (length (components lhs)) tzero)) as Hloop.
  rewrite length_replicate in Hloop. rewrite Hloop; clear Hloop.
  - step_bind. do 2 f_equal. apply list_eq. intros i.
    rewrite !list_lookup_fmap.
    destruct (components lhs !! i) as [x|] eqn:Hx.
    + pose proof (lookup_lt_Some _ _ _ Hx).
      rewrite lookup_seqZ_lt by lia. simpl.
      by rewrite Z.add_0_l, Nat2Z.id, Hx.
    + apply lookup_ge_None in Hx. by rewrite lookup_seqZ_ge by lia.
  - intros comps i Hi. rewrite read_at_nonneg by lia.
    destruct (lookup_lt_is_Some_2 (components lhs) (Z.to_nat i)) as [x Hx];
      [lia|]. by rewrite Hx.
Qed.

Lemma binary_op_spec (op : T → T → T) lhs rhs :
  tensor_wf lhs → length (components rhs) = length (components lhs) →
  binary_op op lhs rhs
  = Some (mkTensor (shape lhs) (zip_with op (components lhs) (components rhs))
            (rank lhs)).
Proof.
  intros Hwf Hlen. unfold binary_op. rewrite (copy_shape_wf _ Hwf). step_bind.
  unfold create_tensor_byptr.
  rewrite decide_True by (rewrite (wf_rank _ Hwf); lia).
  step_bind. cbn [components shape rank].
  rewrite <- (wf_rank _ Hwf), firstn_all, buffer_length_wf
    by apply Hwf.
  rewrite <- (wf_len _ Hwf), Nat2Z.id.
  pose proof (store_loop
                (λ i, op (default tzero (components lhs !! Z.to_nat i))
                         (default tzero (components rhs !! Z.to_nat i)))
                (λ comps i, a ← read_at (components lhs) i;
                            b ← read_at (components rhs) i;
                            write_at comps i (op a b))
                (replicate (length (components lhs)) tzero)) as Hloop.
  rewrite length_replicate in Hloop. rewrite Hloop; clear Hloop.
  - step_bind. do 2 f_equal. apply list_eq. intros i.
    rewrite list_lookup_fmap, lookup_zip_with.
    destruct (components lhs !! i) as [x|] eqn:Hx.
    + pose proof (lookup_lt_Some _ _ _ Hx).
      destruct (lookup_lt_is_Some_2 (components rhs) i) as [y Hy]; [lia|].
      rewrite lookup_seqZ_lt by lia. simpl.
      by rewrite Z.add_0_l, Nat2Z.id, Hx, Hy.
    + apply lookup_ge_None in Hx. by rewrite lookup_seqZ_ge by lia.
  - intros comps i Hi. rewrite !read_at_nonneg by lia.
    destruct (lookup_lt_is_Some_2 (components lhs) (Z.to_nat i)) as [x Hx];
      [lia|].
    destruct (lookup_lt_is_Some_2 (components rhs) (Z.to_nat i)) as [y Hy];
      [lia|]. by rewrite Hx, Hy.
Qed.

End Arithmetic.

(** ** Sums with the ring laws *)

Section Algebra.
Context {T : Type} `{!Scalar T} `{!ScalarRing T}.
Implicit Types (t : Tensor T) (f : Z → Z → T).

Add Ring algebra_ring : scalar_ring.

Lemma foldl_add_zero (term : Z → T) (l : list Z) acc :
  (∀ k, k ∈ l → term k = tzero) →
  foldl (λ a k, tadd a (term k)) acc l = acc.
Proof.
  revert acc. induction l as [|k l IH]; intros acc Hz; [done|].
  simpl. rewrite (Hz k) by left. rewrite IH.
  - ring.
  - intros k' Hk'. apply Hz. by right.
Qed.

(** A sum whose terms vanish except at [r]. *)
Lemma loop_sum_single n (term : Z → T) r :
  0 ≤ r < n → (∀ k, 0 ≤ k < n → k ≠ r → term k = tzero) →
  loop_sum n term = term r.
Proof.
  intros Hr Hz. unfold loop_sum.
  replace n with (r + (n - r)) by lia.
  rewrite seqZ_app, foldl_app by lia.
  rewrite (seqZ_cons (0 + r)) by lia. simpl.
  rewrite !foldl_add_zero
    by (intros k Hk; apply elem_of_seqZ in Hk; apply Hz; lia).
  rewrite Z.add_0_l. ring.
Qed.

End Algebra.

(** ** Identity matrices *)

Section IdentityClaims.
Context {T : Type} `{!Scalar T} `{!ScalarRing T}.
Implicit Types (t : Tensor T) (f : Z → Z → T).

Add Ring identity_ring : scalar_ring.

(** Under the ring laws, for every [n] by [n] matrix [M], both
    [matmul(M, I)] and [matmul(I, M)] with [I = create_indentity(n)] are
    the tensor that [transpose(M)] returns, entry for entry. *)
Lemma matmul_identity_is_transpose t n :
  tensor_wf t → shape t = [n; n] →
  ∃ id tr, create_indentity n = Some id
           ∧ transpose t = Some tr
           ∧ matmul t id = Some tr
           ∧ matmul id t = Some tr.
Proof.
  intros Hwf Hsh. pose proof (wf_is_matrix t n n Hwf Hsh) as Hm.
  set (f := λ i j, default tzero (components t !! Z.to_nat (i + j * n))) in Hm.
  destruct (create_indentity_spec (T:=T) n (im_rows _ _ _ _ Hm) (im_int _ _ _ _ Hm))
    as (id & Hid & Hidm).
  destruct (transpose_spec t n n f Hm) as (tr & Htr & Htrm).
  destruct (matmul_square_spec t id n n _ _ Hm Hidm (im_int _ _ _ _ Hm))
    as (r1 & Hr1 & Hr1m).
  destruct (matmul_square_spec id t n n _ _ Hidm Hm (im_int _ _ _ _ Hm))
    as (r2 & Hr2 & Hr2m).
  exists id, tr. split; [done|]. split; [done|]. split.
  - rewrite Hr1. f_equal. apply (is_matrix_inj r1 tr n n (λ i j, f j i)); [|done].
    eapply is_matrix_fun_ext; [exact Hr1m|]. intros r c Hr Hc. simpl.
    rewrite (loop_sum_single n _ r Hr).
    + rewrite decide_True by done. ring.
    + intros k Hk Hne. rewrite decide_False by done. ring.
  - rewrite Hr2. f_equal. apply (is_matrix_inj r2 tr n n (λ i j, f j i)); [|done].
    eapply is_matrix_fun_ext; [exact Hr2m|]. intros r c Hr Hc. simpl.
    rewrite (loop_sum_single n _ c Hc).
    + rewrite decide_True by done. ring.
    + intros k Hk Hne. rewrite decide_False by done. ring.
Qed.

Lemma foldl_ext_elem {A B} (h1 h2 : A → B → A) (l : list B) a :
  (∀ a' x, x ∈ l → h1 a' x = h2 a' x) → foldl h1 a l = foldl h2 a l.
Proof.
  revert a. induction l as [|x l IH]; intros a Hh; [done|].
  simpl. rewrite Hh by left. apply IH. intros a' y Hy. apply Hh. by right.
Qed.

Lemma skip_range d k n : 0 ≤ k < n - 1 → 0 ≤ skip d k < n.
Proof. unfold skip. case_decide; lia. Qed.

Lemma det_spec_ext n :
  ∀ f g, (∀ i j, 0 ≤ i < Z.of_nat n → 0 ≤ j < Z.of_nat n → f i j = g i j) →
         det_spec n f = det_spec (T:=T) n g.
Proof.
  induction n as [|n' IH]; intros f g Hfg; [done|].
  cbn [det_spec]. case_decide as Hn'.
  - subst n'. rewrite !Hfg by lia. done.
  - unfold loop_sum. apply foldl_ext_elem. intros acc r Hr.
    apply elem_of_seqZ in Hr. rewrite Hfg by lia. do 3 f_equal.
    apply IH. intros i j Hi Hj. apply Hfg; apply skip_range; lia.
Qed.

(** The column expansion of an identity matrix keeps one term. *)
Lemma det_spec_identity n :
  (2 ≤ n)%nat →
  det_spec n (λ i j, if decide (i = j) then tone else tzero) = tone.
Proof.
  induction n as [|n' IH]; intros Hn; [lia|].
  cbn [det_spec]. case_decide as Hn'.
  - rewrite !decide_True by done. rewrite !decide_False by done. ring.
  - rewrite (loop_sum_single _ _ 0) by
      (first [lia | intros k Hk Hne; rewrite decide_False by done; ring]).
    rewrite decide_True by done.
    change (pow_minus_one 0 0) with 1. rewrite of_int_one.
    rewrite (det_spec_ext n' _ (λ i j, if decide (i = j) then tone else tzero)).
    + rewrite IH by lia. ring.
    + intros i j Hi Hj. unfold skip. repeat case_decide; first [done|lia].
Qed.

(** X21: under the ring laws [determinant(create_indentity(n))] is
    [1.0] for every size [n] from 2 on. *)
Lemma determinant_identity_from_2 n :
  2 ≤ n → n * n ≤ INT_MAX →
  ∃ id : Tensor T, create_indentity n = Some id ∧ determinant id = Some tone.
Proof.
  intros Hn Hnn.
  destruct (create_indentity_spec (T:=T) n) as (id & Hid & Hm); [lia|done|].
  exists id. split; [done|].
  rewrite (determinant_spec id n _ Hm), det_spec_identity by lia. done.
Qed.

(** Under the ring laws a 1 by 1 matrix has determinant [0.0] whatever
    its entry: its only minor is the determinant of the empty 0 by 0
    sub-matrix, which the expansion loop leaves at [0.0]; a 0 by 0
    matrix has determinant [0.0] as well. *)
Lemma determinant_size_1_is_zero t :
  tensor_wf t →
  (shape t = [1; 1] →
     sub_matrix_of t 0 0 = Some (mkTensor [0; 0] [] 2)
     ∧ determinant (mkTensor (T:=T) [0; 0] [] 2) = Some tzero
     ∧ minor t 0 0 = Some tzero
     ∧ determinant t = Some tzero)
  ∧ (shape t = [0; 0] → determinant t = Some tzero).
Proof.
  intros Hwf. split; intros Hsh.
  - pose proof (wf_is_matrix t _ _ Hwf Hsh) as Hm.
    destruct (sub_matrix_of_spec t 1 _ 0 0 Hm) as (s & Hs & Hsm & Hss & Hsc);
      [lia..|].
    assert (s = mkTensor [0; 0] [] 2) as ->.
    { destruct s as [sh cs rk]. simpl in *. subst.
      by rewrite <- (im_rank _ _ _ _ Hsm). }
    split; [done|]. split; [done|]. split.
    + rewrite (minor_spec t 1 _ 0 0 Hm) by lia. done.
    + rewrite (determinant_spec t 1 _ Hm).
      change (Z.to_nat 1) with 1%nat. cbn [det_spec]. rewrite decide_False by done.
      unfold loop_sum. change (seqZ 0 (Z.of_nat 1)) with [0]. simpl. f_equal. ring.
  - pose proof (wf_is_matrix t _ _ Hwf Hsh) as Hm.
    by rewrite (determinant_spec t 0 _ Hm).
Qed.

End IdentityClaims.

(** ** Determinant, minors and cofactors *)

Section DeterminantClaims.
Context {T : Type} `{!Scalar T}.
Implicit Types (t : Tensor T).

(** C5: on a square matrix of size 2 [determinant] returns
    [get(0,0) * get(1,1) - get(1,0) * get(0,1)]; on a square matrix of
    size [n > 2] it returns the sum over the rows [r], in increasing
    order, of [get_value(matrix, r, 0) * cofactor(matrix, r, 0)];
    [cofactor(matrix, r, c)] is [(-1)^(r+c) * minor(matrix, r, c)], and
    [minor(matrix, r, c)] is the determinant of the [n-1] by [n-1] matrix
    whose component buffer holds, in the order of the traversal (rows
    outside, columns inside), the entries outside row [r] and column
    [c]. *)
Theorem determinant_expansion t n :
  tensor_wf t → shape t = [n; n] →
  (n = 2 →
     ∃ a b c d,
       get_value t [0; 0] = Some a ∧ get_value t [0; 1] = Some b
       ∧ get_value t [1; 0] = Some c ∧ get_value t [1; 1] = Some d
       ∧ determinant t = Some (tsub (tmul a d) (tmul c b)))
  ∧ (2 < n →
     ∃ entry cof : Z → T,
       (∀ r, 0 ≤ r < n →
             get_value t [r; 0] = Some (entry r)
             ∧ cofactor t r 0 = Some (cof r))
       ∧ determinant t = Some (loop_sum n (λ r, tmul (entry r) (cof r))))
  ∧ (∀ r c, 0 ≤ r < n → 0 ≤ c < n →
     ∃ s m,
       sub_matrix_of t r c = Some s
       ∧ shape s = [n - 1; n - 1]
       ∧ Some <$> components s
         = (λ p, get_value t [p.1; p.2])
             <$> filter (λ p, r ≠ p.1 ∧ c ≠ p.2) (pairs (seqZ 0 n) (seqZ 0 n))
       ∧ determinant s = Some m
       ∧ minor t r c = Some m
       ∧ cofactor t r c = Some (tmul (of_int ((-1) ^ (r + c))) m)).
Proof.
  intros Hwf Hsh. pose proof (wf_is_matrix t n n Hwf Hsh) as Hm.
  set (f := λ i j, default tzero (components t !! Z.to_nat (i + j * n))) in Hm.
  split; [|split].
  - intros ->. exists (f 0 0), (f 0 1), (f 1 0), (f 1 1).
    rewrite !(is_matrix_get _ _ _ _ _ _ Hm) by lia.
    by rewrite (determinant_spec t 2 f Hm).
  - intros Hn.
    exists (λ r, f r 0),
      (λ r, tmul (of_int (pow_minus_one r 0))
              (det_spec (Z.to_nat (n - 1)) (λ i j, f (skip r j) (skip 0 i)))).
    split.
    + intros r Hr. split; [by apply (is_matrix_get _ _ _ _ _ _ Hm); lia|].
      by apply (cofactor_spec _ _ _ _ _ Hm); lia.
    + rewrite (determinant_spec t n f Hm).
      replace (Z.to_nat n) with (S (Z.to_nat (n - 1))) by lia.
      cbn [det_spec]. rewrite decide_False by lia.
      by replace (Z.of_nat (S (Z.to_nat (n - 1)))) with n by lia.
  - intros r c Hr Hc.
    destruct (sub_matrix_of_spec t n f r c Hm Hr Hc) as (s & Hs & Hsm & Hss & Hsc).
    exists s, (det_spec (Z.to_nat (n - 1)) (λ i j, f (skip r j) (skip c i))).
    split; [done|]. split; [done|]. split; [|split; [|split]].
    + rewrite Hsc, <- list_fmap_compose. apply list_fmap_ext.
      intros i p Hp. simpl. apply list_elem_of_lookup_2 in Hp.
      apply list_elem_of_filter in Hp as [_ Hp].
      apply elem_of_pairs_seqZ in Hp as [H1 H2].
      by rewrite (is_matrix_get _ _ _ _ _ _ Hm H1 H2).
    + by apply determinant_spec.
    + by apply minor_spec.
    + rewrite <- pow_minus_one_pow by lia. by apply cofactor_spec.
Qed.

(** C6: on a matrix whose two extents differ [determinant] returns
    [0.0], which is also what it returns on any square matrix whose
    determinant is zero. *)
Theorem determinant_non_square t s0 s1 :
  shape t !! 0%nat = Some s0 → shape t !! 1%nat = Some s1 → s0 ≠ s1 →
  determinant t = Some tzero
  ∧ ∀ sq n, shape sq = [n; n] → determinant sq = Some tzero →
            determinant sq = determinant t.
Proof.
  intros H0 H1 Hne.
  assert (determinant t = Some tzero) as Hdet.
  { unfold determinant. rewrite determinant_fuel_S, H0, H1. step_bind.
    by rewrite decide_True. }
  split; [done|]. intros sq n _ Hsq. by rewrite Hsq, Hdet.
Qed.

(** [inverse] returns the tensor of [adjugate_matrix]. *)
Lemma inverse_returns_adjugate t n :
  tensor_wf t → shape t = [n; n] →
  ∃ adj, adjugate_matrix t = Some adj ∧ inverse t = Some adj.
Proof.
  intros Hwf Hsh. pose proof (wf_is_matrix t n n Hwf Hsh) as Hm.
  destruct (adjugate_matrix_spec t n _ Hm) as (adj & Hadj & Hadjm).
  exists adj. split; [done|]. unfold inverse.
  rewrite (determinant_spec t n _ Hm), Hadj. step_bind.
  unfold product_scalar.
  by rewrite (scalar_op_spec _ _ _ (is_matrix_wf _ _ _ _ Hadjm)).
Qed.

End DeterminantClaims.

(** ** Worked examples in binary64 *)

(** C1, on the code: [inverse] returns the adjugate as it is.  On a matrix
    of determinant 4 the first component of the result is 3, the first
    component of the adjugate, and not 3 / 4. *)
Theorem inverse_skips_division :
  determinant inverse_input = Some 4%float
  ∧ adjugate_matrix inverse_input
    = Some (mkTensor [3; 3] [3; -1; -1; -1; 3; -1; -1; -1; 3]%float 2)
  ∧ inverse inverse_input = adjugate_matrix inverse_input
  ∧ (adj ← adjugate_matrix inverse_input; divide_scalar adj 4%float)
    = Some (mkTensor [3; 3]
              [0.75; -0.25; -0.25; -0.25; 0.75; -0.25; -0.25; -0.25; 0.75]%float
              2)
  ∧ first_component (inverse inverse_input) = Some 3%float
  ∧ first_component (inverse inverse_input)
    ≠ first_component (adj ← adjugate_matrix inverse_input;
                       divide_scalar adj 4%float).
Proof.
  repeat split; try (vm_compute; reflexivity).
  intros H. vm_compute in H.
  apply (f_equal (λ o, match o with
                       | Some x => PrimFloat.eqb x 3%float
                       | None => false
                       end)) in H.
  vm_compute in H. discriminate.
Qed.

(** C2, on the code: with a 1 by 1 left and a 1 by 2 right operand the
    loop asks for the entry [(1, 0)] of the left operand, which lies
    outside its one-component buffer, and [matmul] has no result. *)
Theorem matmul_rectangular_reads_outside :
  shape matmul_lhs = [1; 1] ∧ shape matmul_rhs = [1; 2]
  ∧ length (components matmul_lhs) = 1%nat
  ∧ flat_index matmul_lhs [1; 0] = Some 1
  ∧ get_value matmul_lhs [1; 0] = None
  ∧ matmul matmul_lhs matmul_rhs = None.
Proof. repeat split; vm_compute; reflexivity. Qed.

(** In binary64 a finite entry times zero is a zero, and [0.0] plus a zero
    of either sign is [0.0]: the determinant of a 1 by 1 matrix with a
    finite entry is [0.0]. *)
Lemma determinant_size_1_double (x : float) :
  finite_double x → determinant (mkTensor [1; 1] [x] 2) = Some 0%float.
Proof.
  unfold finite_double. intros Hx.
  assert (∃ s, Prim2SF (x * 0)%float = S754_zero s) as [s Hs].
  { rewrite FloatAxioms.mul_spec. destruct (Prim2SF x) as [s|s| |s m e]; try tauto.
    - eexists. vm_compute. reflexivity.
    - eexists. reflexivity. }
  vm_compute. f_equal.
  rewrite <- (SF2Prim_Prim2SF (x * 0)%float), Hs.
  destruct s; vm_compute; reflexivity.
Qed.

(** The product with the identity is the transpose, not the operand. *)
Lemma matmul_identity_differs_from_operand :
  let m : Tensor Z := mkTensor [2; 2] [1; 2; 3; 4] 2 in
  (id ← create_indentity 2; matmul m id)
  = Some (mkTensor [2; 2] [1; 3; 2; 4] 2)
  ∧ (id ← create_indentity 2; matmul m id) ≠ Some m.
Proof. split; [vm_compute; reflexivity | vm_compute; discriminate]. Qed.

(** The laws of anti-commutativity and of the identity product on sample
    binary64 inputs. *)
Lemma cross_double_example :
  let u : Tensor float := mkTensor [3] [1; 2; 3]%float 1 in
  let v : Tensor float := mkTensor [3] [4; 5; 6]%float 1 in
  cross u v = Some (mkTensor [3] [-3; 6; -3]%float 1)
  ∧ cross v u = Some (mkTensor [3] [3; -6; 3]%float 1).
Proof. split; vm_compute; reflexivity. Qed.

Lemma matmul_identity_double_example :
  let m : Tensor float := mkTensor [2; 2] [1.5; 2; 3; 4.25]%float 2 in
  (id ← create_indentity 2; matmul m id) = transpose m
  ∧ (id ← create_indentity 2; matmul id m) = transpose m
  ∧ transpose m = Some (mkTensor [2; 2] [1.5; 3; 2; 4.25]%float 2).
Proof. repeat split; vm_compute; reflexivity. Qed.

(** From size 2 on the determinant of the identity is [1.0] in binary64
    too, here up to size 5. *)
Lemma determinant_identity_double_example :
  Forall (λ n, (id ← create_indentity (T:=float) n; determinant id)
               = Some 1%float) [2; 3; 4; 5].
Proof. repeat constructor; vm_compute; reflexivity. Qed.

(** C4, on the code: the determinant of the 1 by 1 identity matrix is
    [0.0], not [1.0]. *)
Theorem determinant_identity_1 :
  create_indentity 1 = Some (mkTensor [1; 1] [1%float] 2)
  ∧ (id ← create_indentity (T:=float) 1; determinant id) = Some 0%float
  ∧ (id ← create_indentity (T:=float) 1; determinant id) ≠ Some 1%float.
Proof.
  repeat split; try (vm_compute; reflexivity).
  intros H. vm_compute in H.
  apply (f_equal (λ o, match o with
                       | Some x => PrimFloat.eqb x 1%float
                       | None => false
                       end)) in H.
  vm_compute in H. discriminate.
Qed.

(** ** The cross product *)

Section CrossClaim.
Context {T : Type} `{!Scalar T} `{!ScalarRing T}.

Add Ring cross_ring : scalar_ring.

Lemma cross_components (u v : Tensor T) u0 u1 u2 v0 v1 v2 :
  shape u = [3] →
  components u = [u0; u1; u2] → components v = [v0; v1; v2] →
  cross u v
  = Some (mkTensor [3]
            [tsub (tmul u1 v2) (tmul u2 v1);
             tsub (tmul u2 v0) (tmul u0 v2);
             tsub (tmul u0 v1) (tmul u1 v0)] 1).
Proof. intros Hs Hu Hv. unfold cross. rewrite Hs, Hu, Hv. reflexivity. Qed.

(** Under the ring laws: for vectors [u] and [v] of length 3,
    [cross(u, v)] has the components [u1*v2 - u2*v1], [u2*v0 - u0*v2],
    [u0*v1 - u1*v0], and each of them is the negation of the same
    component of [cross(v, u)]. *)
Lemma cross_anticommutative (u v : Tensor T) u0 u1 u2 v0 v1 v2 :
  shape u = [3] → shape v = [3] →
  components u = [u0; u1; u2] → components v = [v0; v1; v2] →
  ∃ uv vu,
    cross u v = Some uv ∧ cross v u = Some vu
    ∧ shape uv = [3] ∧ shape vu = [3]
    ∧ components uv = [tsub (tmul u1 v2) (tmul u2 v1);
                       tsub (tmul u2 v0) (tmul u0 v2);
                       tsub (tmul u0 v1) (tmul u1 v0)]
    ∧ components uv = topp <$> components vu.
Proof.
  intros Hsu Hsv Hu Hv.
  rewrite (cross_components u v _ _ _ _ _ _ Hsu Hu Hv),
    (cross_components v u _ _ _ _ _ _ Hsv Hv Hu).
  eexists _, _. repeat split. simpl. repeat f_equal; ring.
Qed.

End CrossClaim.

(** ** The algebraic statements in binary64 *)

(** The laws that remain of the ring laws in binary64. *)

Lemma double_one_repr :
  Prim2SF 1%float = S754_finite false 4503599627370496 (-52).
Proof. reflexivity. Qed.

Lemma shift52_digits m :
  Z.pos (digits2_pos (Pos.iter xO m 52)) = Z.pos (digits2_pos m) + 52.
Proof. cbn [Pos.iter digits2_pos]. lia. Qed.

Lemma SF64mul_one_l s m e :
  valid_binary (S754_finite s m e) = true →
  SF64mul (S754_finite false 4503599627370496 (-52)) (S754_finite s m e)
  = S754_finite s m e.
Proof.
  intros Hv. unfold SpecFloat.valid_binary, bounded, canonical_mantissa in Hv.
  apply andb_true_iff in Hv as [Hc Hb].
  apply Z.eqb_eq in Hc.
  unfold SF64mul, SFmul. cbn [xorb].
  unfold binary_round_aux, shr_fexp. unfold Zdigits2 at 1.
  change (4503599627370496 * m)%positive with (Pos.iter xO m 52).
  rewrite shift52_digits.
  replace (Z.pos (digits2_pos m) + 52 + (-52 + e))
    with (Z.pos (digits2_pos m) + e) by lia.
  rewrite Hc. replace (e - (-52 + e)) with 52 by lia.
  cbn [Pos.iter shr shr_record_of_loc SpecFloat.iter_pos shr_1 orb shr_m
       loc_of_shr_record round_nearest_even].
  replace (-52 + e + 52) with e by lia.
  unfold Zdigits2. rewrite Hc, Z.sub_diag.
  cbn [shr shr_record_of_loc shr_m]. rewrite Hb. reflexivity.
Qed.

Lemma double_mul_one (x : float) : (1 * x)%float = x.
Proof.
  apply Prim2SF_inj. rewrite FloatAxioms.mul_spec, double_one_repr.
  pose proof (Prim2SF_valid x) as Hv.
  destruct (Prim2SF x) as [s|s| |s m e]; try reflexivity.
  by apply SF64mul_one_l.
Qed.

Lemma SF64mul_comm x y : SF64mul x y = SF64mul y x.
Proof.
  destruct x as [sx|sx| |sx mx ex], y as [sy|sy| |sy my ey]; simpl;
    rewrite ?(xorb_comm sx sy); try reflexivity.
  by rewrite Pos.mul_comm, Z.add_comm.
Qed.

Lemma double_mul_comm (x y : float) : (x * y)%float = (y * x)%float.
Proof. apply Prim2SF_inj. rewrite !FloatAxioms.mul_spec. apply SF64mul_comm. Qed.

Lemma double_mul_zero (x : float) : finite_double x → double_zero (0 * x)%float.
Proof.
  unfold finite_double, double_zero. intros Hx. rewrite FloatAxioms.mul_spec.
  change (Prim2SF 0) with (S754_zero false).
  destruct (Prim2SF x) as [s|s| |s m e]; try tauto; eexists; reflexivity.
Qed.

Lemma double_add_zero_r (a z : float) : double_zero z → double_sim (a + z)%float a.
Proof.
  intros [sz Hz]. unfold double_sim, double_zero.
  destruct (Prim2SF a) as [s|s| |s m e] eqn:Ha.
  - right. split; [|eauto]. rewrite FloatAxioms.add_spec, Ha, Hz. simpl.
    destruct s, sz; eauto.
  - left. apply Prim2SF_inj. rewrite FloatAxioms.add_spec, Ha, Hz. reflexivity.
  - left. apply Prim2SF_inj. rewrite FloatAxioms.add_spec, Ha, Hz. reflexivity.
  - left. apply Prim2SF_inj. rewrite FloatAxioms.add_spec, Ha, Hz. reflexivity.
Qed.

Lemma double_zero_add (a : float) : double_sim (0 + a)%float a.
Proof.
  unfold double_sim, double_zero.
  destruct (Prim2SF a) as [s|s| |s m e] eqn:Ha.
  - right. split; [|eauto]. rewrite FloatAxioms.add_spec, Ha.
    change (Prim2SF 0) with (S754_zero false). destruct s; simpl; eauto.
  - left. apply Prim2SF_inj. rewrite FloatAxioms.add_spec, Ha. reflexivity.
  - left. apply Prim2SF_inj. rewrite FloatAxioms.add_spec, Ha. reflexivity.
  - left. apply Prim2SF_inj. rewrite FloatAxioms.add_spec, Ha. reflexivity.
Qed.

Lemma double_zero_add_zero (z : float) : double_zero z → (0 + z)%float = 0%float.
Proof.
  intros [sz Hz]. apply Prim2SF_inj. rewrite FloatAxioms.add_spec, Hz.
  change (Prim2SF 0) with (S754_zero false). destruct sz; reflexivity.
Qed.





#[export] Instance double_sim_equivalence : Equivalence double_sim.
Proof.
  split.
  - intros a. by left.
  - intros a b [->|[H1 H2]]; [by left | by right].
  - intros a b c [->|[H1 H2]] [->|[H3 H4]];
      first [by left | by right].
Qed.


(** Sums in binary64 whose terms are zeros except one. *)

Lemma foldl_zero_terms (term : Z → float) (l : list Z) :
  (∀ k, k ∈ l → double_zero (term k)) →
  foldl (λ a k, tadd a (term k)) tzero l = tzero.
Proof.
  induction l as [|k l IH]; intros Hz; [done|].
  simpl. rewrite double_zero_add_zero by (apply Hz; left).
  apply IH. intros k' Hk'. apply Hz. by right.
Qed.

Lemma foldl_add_zero_terms (term : Z → float) (l : list Z) acc :
  (∀ k, k ∈ l → double_zero (term k)) →
  double_sim (foldl (λ a k, tadd a (term k)) acc l) acc.
Proof.
  revert acc. induction l as [|k l IH]; intros acc Hz; [done|].
  simpl. etrans.
  - apply IH. intros k' Hk'. apply Hz. by right.
  - apply double_add_zero_r, Hz. left.
Qed.

Lemma loop_sum_single_double n (term : Z → float) r :
  0 ≤ r < n → (∀ k, 0 ≤ k < n → k ≠ r → double_zero (term k)) →
  double_sim (loop_sum n term) (term r).
Proof.
  intros Hr Hz. unfold loop_sum.
  replace n with (r + (n - r)) by lia.
  rewrite seqZ_app, foldl_app by lia.
  rewrite (seqZ_cons (0 + r)) by lia. simpl.
  rewrite foldl_zero_terms
    by (intros k Hk; apply elem_of_seqZ in Hk; apply Hz; lia).
  rewrite Z.add_0_l. etrans.
  - apply foldl_add_zero_terms.
    intros k Hk. apply elem_of_seqZ in Hk. apply Hz; lia.
  - apply double_zero_add.
Qed.

(** Two matrices of one shape, compared entry by entry. *)
Lemma is_matrix_Forall2 {T} (R : T → T → Prop) (t t' : Tensor T) a b f g :
  is_matrix t a b f → is_matrix t' a b g →
  (∀ i j, 0 ≤ i < a → 0 ≤ j < b → R (f i j) (g i j)) →
  Forall2 R (components t) (components t').
Proof.
  intros [Hs Hr Ha Hb Hint Hl He] [Hs' Hr' _ _ _ Hl' He'] HR.
  apply Forall2_same_length_lookup_2; [lia|].
  intros k x y Hx Hy.
  assert (Z.of_nat k < a * b) as Hk.
  { apply lookup_lt_Some in Hx. lia. }
  assert (0 < a) by nia.
  pose proof (Z.mod_pos_bound (Z.of_nat k) a ltac:(lia)).
  pose proof (Z.div_mod (Z.of_nat k) a ltac:(lia)) as Hdm.
  assert (0 ≤ Z.of_nat k / a < b) as Hq.
  { split; [apply Z.div_pos; lia|]. apply Z.div_lt_upper_bound; lia. }
  specialize (He (Z.of_nat k mod a) (Z.of_nat k / a) ltac:(lia) Hq).
  specialize (He' (Z.of_nat k mod a) (Z.of_nat k / a) ltac:(lia) Hq).
  replace (Z.to_nat (Z.of_nat k mod a + Z.of_nat k / a * a)) with k in He, He'
    by lia.
  rewrite Hx in He. rewrite Hy in He'.
  injection He as ->. injection He' as ->. apply HR; lia.
Qed.

(** X19: in binary64, for a matrix [M] of finite entries, [matmul(M, I)]
    and [matmul(I, M)] have the entries of [transpose(M)]; a zero entry
    may come out with the other sign. *)
Lemma matmul_identity_double (t : Tensor float) n :
  tensor_wf t → shape t = [n; n] → Forall finite_double (components t) →
  ∃ id tr r1 r2,
    create_indentity n = Some id ∧ transpose t = Some tr
    ∧ matmul t id = Some r1 ∧ matmul id t = Some r2
    ∧ shape r1 = shape tr ∧ shape r2 = shape tr
    ∧ Forall2 double_sim (components r1) (components tr)
    ∧ Forall2 double_sim (components r2) (components tr).
Proof.
  intros Hwf Hsh Hfin. pose proof (wf_is_matrix t n n Hwf Hsh) as Hm.
  set (f := λ i j, default tzero (components t !! Z.to_nat (i + j * n))) in Hm.
  assert (∀ i j, 0 ≤ i < n → 0 ≤ j < n → finite_double (f i j)) as Hf.
  { intros i j Hi Hj. pose proof (im_entry _ _ _ _ Hm i j Hi Hj) as He.
    eapply Forall_lookup_1; [exact Hfin|exact He]. }
  destruct (create_indentity_spec (T:=float) n (im_rows _ _ _ _ Hm)
              (im_int _ _ _ _ Hm)) as (id & Hid & Hidm).
  destruct (transpose_spec t n n f Hm) as (tr & Htr & Htrm).
  destruct (matmul_square_spec t id n n _ _ Hm Hidm (im_int _ _ _ _ Hm))
    as (r1 & Hr1 & Hr1m).
  destruct (matmul_square_spec id t n n _ _ Hidm Hm (im_int _ _ _ _ Hm))
    as (r2 & Hr2 & Hr2m).
  exists id, tr, r1, r2. repeat (split; [done|]).
  split; [by rewrite (im_shape _ _ _ _ Hr1m), (im_shape _ _ _ _ Htrm)|].
  split; [by rewrite (im_shape _ _ _ _ Hr2m), (im_shape _ _ _ _ Htrm)|].
  split.
  - apply (is_matrix_Forall2 _ _ _ _ _ _ _ Hr1m Htrm).
    intros r c Hr Hc. simpl. etrans.
    + apply (loop_sum_single_double n _ r Hr).
      intros k Hk Hne. rewrite decide_False by done.
      apply double_mul_zero, Hf; lia.
    + simpl. rewrite decide_True by done.
      left. apply double_mul_one.
  - apply (is_matrix_Forall2 _ _ _ _ _ _ _ Hr2m Htrm).
    intros r c Hr Hc. simpl. etrans.
    + apply (loop_sum_single_double n _ c Hc).
      intros k Hk Hne. rewrite decide_False by done.
      change (double_zero (f k r * 0)%float).
      rewrite double_mul_comm. apply double_mul_zero, Hf; lia.
    + simpl. rewrite decide_True by done.
      left. change ((f c r * 1)%float = f c r).
      rewrite double_mul_comm. apply double_mul_one.
Qed.


(** An entry that is not finite does not give these results: its
    product with [0.0] is a NaN. *)
Lemma not_finite_double_examples :
  determinant (mkTensor [1; 1] [infinity] 2) = Some nan
  ∧ (id ← create_indentity 2; matmul (mkTensor [2; 2] [infinity; 1; 2; 3]%float 2) id)
    = Some (mkTensor [2; 2] [infinity; nan; 1; 3]%float 2)
  ∧ transpose (mkTensor [2; 2] [infinity; 1; 2; 3]%float 2)
    = Some (mkTensor [2; 2] [infinity; 2; 1; 3]%float 2).
Proof. repeat split; vm_compute; reflexivity. Qed.

(** ** The algebraic claims in binary64, the default [ttype] *)

(** A finite value compares equal to itself. *)
Lemma finite_double_eqb_refl (x : float) :
  finite_double x → (x =? x)%float = true.
Proof.
  unfold finite_double. intros Hx. rewrite FloatAxioms.eqb_spec.
  destruct (Prim2SF x) as [s|s| |s m e]; try tauto.
  unfold SFeqb, SFcompare. rewrite Z.compare_refl.
  change (Pcompare m m Eq) with (Pos.compare m m).
  rewrite Pos.compare_refl. by destruct s.
Qed.

(** On a finite right-hand side [double_sim] is [==] of C. *)
Lemma double_sim_finite_eqb (x y : float) :
  finite_double y → double_sim x y → (x =? y)%float = true.
Proof.
  intros Hy [->|[[s1 H1] [s2 H2]]].
  - by apply finite_double_eqb_refl.
  - rewrite FloatAxioms.eqb_spec, H1, H2. reflexivity.
Qed.

(** The product of an identity row with a row of finite values keeps
    one of them. *)
Lemma identity_sum_double n (g : Z → float) r :
  0 ≤ r < n → (∀ k, 0 ≤ k < n → finite_double (g k)) →
  double_sim
    (loop_sum n (λ k, tmul (if decide (k = r) then tone else tzero) (g k)))
    (g r)
  ∧ double_sim
      (loop_sum n (λ k, tmul (g k) (if decide (r = k) then tone else tzero)))
      (g r).
Proof.
  intros Hr Hg. split.
  - etrans.
    + apply (loop_sum_single_double n _ r Hr).
      intros k Hk Hne. rewrite decide_False by done.
      by apply double_mul_zero, Hg.
    + simpl. rewrite decide_True by done. left. apply double_mul_one.
  - etrans.
    + apply (loop_sum_single_double n _ r Hr).
      intros k Hk Hne. rewrite decide_False by done.
      change (double_zero (g k * 0)%float).
      rewrite double_mul_comm. by apply double_mul_zero, Hg.
    + simpl. rewrite decide_True by done. left.
      change ((g r * 1)%float = g r).
      rewrite double_mul_comm. apply double_mul_one.
Qed.



(** C9, as amended: in binary64 a 1 by 1 matrix with a finite entry
    has determinant [0.0]: its only minor is the determinant of the
    empty 0 by 0 sub-matrix, which the expansion loop leaves at [0.0],
    and the entry times [0.0] is a zero; a 0 by 0 matrix has
    determinant [0.0] as well. *)
Theorem determinant_size_1_binary64 (t : Tensor float) :
  tensor_wf t →
  (shape t = [1; 1] → Forall finite_double (components t) →
     sub_matrix_of t 0 0 = Some (mkTensor [0; 0] [] 2)
     ∧ determinant (mkTensor (T:=float) [0; 0] [] 2) = Some 0%float
     ∧ minor t 0 0 = Some 0%float
     ∧ determinant t = Some 0%float)
  ∧ (shape t = [0; 0] → determinant t = Some 0%float).
Proof.
  intros Hwf. split.
  - intros Hsh Hfin. pose proof (wf_is_matrix t _ _ Hwf Hsh) as Hm.
    destruct (sub_matrix_of_spec t 1 _ 0 0 Hm) as (s & Hs & Hsm & Hss & Hsc);
      [lia..|].
    assert (s = mkTensor [0; 0] [] 2) as ->.
    { destruct s as [sh cs rk]. simpl in *. subst.
      by rewrite <- (im_rank _ _ _ _ Hsm). }
    split; [done|]. split; [done|]. split.
    + rewrite (minor_spec t 1 _ 0 0 Hm) by lia. done.
    + rewrite (determinant_spec t 1 _ Hm).
      change (Z.to_nat 1) with 1%nat. cbn [det_spec].
      rewrite decide_False by done.
      unfold loop_sum. change (seqZ 0 (Z.of_nat 1)) with [0]. cbn [foldl].
      f_equal.
      set (x := default tzero (components t !! Z.to_nat (0 + 0 * 1))).
      assert (finite_double x) as Hx.
      { pose proof (im_entry _ _ _ _ Hm 0 0 ltac:(lia) ltac:(lia)) as He.
        eapply Forall_lookup_1; [exact Hfin|exact He]. }
      change (0 + x * 0 = 0)%float.
      apply double_zero_add_zero.
      rewrite double_mul_comm. by apply double_mul_zero.
  - intros Hsh. pose proof (wf_is_matrix t _ _ Hwf Hsh) as Hm.
    by rewrite (determinant_spec t 0 _ Hm).
Qed.

(** C9, as it is written, fails in binary64: on the 1 by 1 matrix
    with the entry infinity [determinant] returns a NaN, which is not
    [0.0] and does not compare equal to it. *)
Lemma determinant_size_1_not_zero :
  determinant (mkTensor [1; 1] [infinity] 2) = Some nan
  ∧ determinant (mkTensor [1; 1] [infinity] 2) ≠ Some 0%float
  ∧ (nan =? 0)%float = false.
Proof.
  split; [vm_compute; reflexivity|]. split; [|reflexivity].
  intros H. vm_compute in H.
  apply (f_equal (λ o, match o with
                       | Some x => PrimFloat.is_nan x
                       | None => false
                       end)) in H.
  vm_compute in H. discriminate.
Qed.

(** C10, as amended: in binary64, for every [n] by [n] matrix [M]
    whose entries are all finite, [matmul(M, I)] and [matmul(I, M)]
    with [I = create_indentity(n)] have the shape and rank of
    [transpose(M)], and every entry compares equal under [==] of C to
    the same entry of [transpose(M)]: it is the same value, or both are
    zeros of either sign. *)
Theorem matmul_identity_binary64 (t : Tensor float) n :
  tensor_wf t → shape t = [n; n] → Forall finite_double (components t) →
  ∃ id tr r1 r2,
    create_indentity n = Some id ∧ transpose t = Some tr
    ∧ matmul t id = Some r1 ∧ matmul id t = Some r2
    ∧ shape r1 = shape tr ∧ rank r1 = rank tr
    ∧ shape r2 = shape tr ∧ rank r2 = rank tr
    ∧ Forall2 (λ x y, double_sim x y ∧ (x =? y)%float = true)
        (components r1) (components tr)
    ∧ Forall2 (λ x y, double_sim x y ∧ (x =? y)%float = true)
        (components r2) (components tr).
Proof.
  intros Hwf Hsh Hfin. pose proof (wf_is_matrix t n n Hwf Hsh) as Hm.
  set (f := λ i j, default tzero (components t !! Z.to_nat (i + j * n))) in Hm.
  assert (∀ i j, 0 ≤ i < n → 0 ≤ j < n → finite_double (f i j)) as Hf.
  { intros i j Hi Hj. pose proof (im_entry _ _ _ _ Hm i j Hi Hj) as He.
    eapply Forall_lookup_1; [exact Hfin|exact He]. }
  destruct (create_indentity_spec (T:=float) n (im_rows _ _ _ _ Hm)
              (im_int _ _ _ _ Hm)) as (id & Hid & Hidm).
  destruct (transpose_spec t n n f Hm) as (tr & Htr & Htrm).
  destruct (matmul_square_spec t id n n _ _ Hm Hidm (im_int _ _ _ _ Hm))
    as (r1 & Hr1 & Hr1m).
  destruct (matmul_square_spec id t n n _ _ Hidm Hm (im_int _ _ _ _ Hm))
    as (r2 & Hr2 & Hr2m).
  exists id, tr, r1, r2. repeat (split; [done|]).
  split; [by rewrite (im_shape _ _ _ _ Hr1m), (im_shape _ _ _ _ Htrm)|].
  split; [by rewrite (im_rank _ _ _ _ Hr1m), (im_rank _ _ _ _ Htrm)|].
  split; [by rewrite (im_shape _ _ _ _ Hr2m), (im_shape _ _ _ _ Htrm)|].
  split; [by rewrite (im_rank _ _ _ _ Hr2m), (im_rank _ _ _ _ Htrm)|].
  split.
  - apply (is_matrix_Forall2 _ _ _ _ _ _ _ Hr1m Htrm).
    intros r c Hr Hc.
    destruct (identity_sum_double n (λ k, f c k) r Hr) as [Hsim _].
    { intros k Hk. by apply Hf. }
    split; [exact Hsim|]. apply double_sim_finite_eqb; [by apply Hf|exact Hsim].
  - apply (is_matrix_Forall2 _ _ _ _ _ _ _ Hr2m Htrm).
    intros r c Hr Hc.
    destruct (identity_sum_double n (λ k, f k r) c Hc) as [_ Hsim].
    { intros k Hk. by apply Hf. }
    split; [exact Hsim|]. apply double_sim_finite_eqb; [by apply Hf|exact Hsim].
Qed.

(** C10, as it is written, fails in binary64: on a 2 by 2 matrix with
    an infinite entry the product with the identity has a NaN where
    the transpose has the entry [2.0]. *)
Lemma matmul_identity_not_transpose :
  let m := mkTensor [2; 2] [infinity; 1; 2; 3]%float 2 in
  (id ← create_indentity 2; matmul m id)
  = Some (mkTensor [2; 2] [infinity; nan; 1; 3]%float 2)
  ∧ transpose m = Some (mkTensor [2; 2] [infinity; 2; 1; 3]%float 2)
  ∧ (id ← create_indentity 2; matmul m id) ≠ transpose m
  ∧ (nan =? 2)%float = false.
Proof.
  split; [vm_compute; reflexivity|]. split; [vm_compute; reflexivity|].
  split; [|reflexivity].
  intros H. vm_compute in H.
  apply (f_equal (λ o, match o with
                       | Some t =>
                           match components t with
                           | _ :: x :: _ => PrimFloat.is_nan x
                           | _ => false
                           end
                       | None => false
                       end)) in H.
  vm_compute in H. discriminate.
Qed.

(** ** The arithmetic family on the heap *)

Section HeapLoops.
Context {T : Type} `{!Scalar T}.
Implicit Types (h : gmap Mem.loc (Mem.block T)) (p q : Mem.loc).

Lemma load_int_block h p cells i :
  h !! p = Some (Mem.IntBlock cells) → Mem.load_int h p i = read_at cells i.
Proof. intros Hp. unfold Mem.load_int. by rewrite Hp. Qed.

Lemma load_scalar_block h p cells i :
  h !! p = Some (Mem.ScalarBlock cells) →
  Mem.load_scalar h p i = read_at cells i.
Proof. intros Hp. unfold Mem.load_scalar. by rewrite Hp. Qed.

Lemma store_int_block h p cells i v :
  Mem.store_int (<[p := Mem.IntBlock cells]> h) p i v
  = cells' ← write_at cells i v; Some (<[p := Mem.IntBlock cells']> h).
Proof.
  unfold Mem.store_int. rewrite lookup_insert_eq.
  destruct (write_at cells i v) as [cells'|]; [|done].
  step_bind. by rewrite insert_insert_eq.
Qed.

Lemma store_scalar_block h p cells i v :
  Mem.store_scalar (<[p := Mem.ScalarBlock cells]> h) p i v
  = cells' ← write_at cells i v; Some (<[p := Mem.ScalarBlock cells']> h).
Proof.
  unfold Mem.store_scalar. rewrite lookup_insert_eq.
  destruct (write_at cells i v) as [cells'|]; [|done].
  step_bind. by rewrite insert_insert_eq.
Qed.

(** A loop on the heap that only stores into block [p] is a loop on the
    cells of [p]. *)
Lemma heap_loop_cells p h (val : Z → T)
    (body : gmap Mem.loc (Mem.block T) → Z → option (gmap Mem.loc (Mem.block T)))
    (l : list Z) :
  (∀ cells i, i ∈ l →
     body (<[p := Mem.ScalarBlock cells]> h) i
     = cells' ← write_at cells i (val i);
       Some (<[p := Mem.ScalarBlock cells']> h)) →
  ∀ dst,
    for_each body l (<[p := Mem.ScalarBlock dst]> h)
    = dst' ← for_each (λ d i, write_at d i (val i)) l dst;
      Some (<[p := Mem.ScalarBlock dst']> h).
Proof.
  induction l as [|i l IH]; intros Hbody dst; [done|].
  simpl. rewrite Hbody by left.
  destruct (write_at dst i (val i)) as [dst1|]; [|done]. step_bind.
  apply IH. intros cells j Hj. apply Hbody. by right.
Qed.

Lemma heap_store_loop p h (val : Z → T)
    (body : gmap Mem.loc (Mem.block T) → Z → option (gmap Mem.loc (Mem.block T)))
    (dst : list T) :
  (∀ cells i, 0 ≤ i < Z.of_nat (length dst) →
     body (<[p := Mem.ScalarBlock cells]> h) i
     = cells' ← write_at cells i (val i);
       Some (<[p := Mem.ScalarBlock cells']> h)) →
  for_each body (seqZ 0 (Z.of_nat (length dst))) (<[p := Mem.ScalarBlock dst]> h)
  = Some (<[p := Mem.ScalarBlock (val <$> seqZ 0 (Z.of_nat (length dst)))]> h).
Proof.
  intros Hbody. rewrite (heap_loop_cells p h val).
  - by rewrite (store_loop val).
  - intros cells i Hi. apply elem_of_seqZ in Hi. apply Hbody. lia.
Qed.

(** The length loop over a shape block. *)
Lemma length_loop h p sh :
  h !! p = Some (Mem.IntBlock sh) →
  for_each (λ len i,
              s ← Mem.load_int h p i;
              Some (size_wrap (len * size_wrap s)))
           (seqZ 0 (Z.of_nat (length sh))) 1
  = Some (buffer_length sh).
Proof.
  intros Hp.
  assert (∀ k, (k ≤ length sh)%nat →
            for_each (λ len i,
                        s ← Mem.load_int h p i;
                        Some (size_wrap (len * size_wrap s)))
                     (seqZ 0 (Z.of_nat k)) 1
            = Some (buffer_length (take k sh))) as Hgen.
  { induction k as [|k IH]; intros Hk; [done|].
    rewrite seqZ_S, for_each_snoc, IH by lia. step_bind.
    destruct (lookup_lt_is_Some_2 sh k) as [s Hs]; [lia|].
    rewrite (load_int_block _ _ _ _ Hp), read_at_nonneg by lia.
    rewrite Z.add_0_l, Nat2Z.id, Hs. step_bind.
    by rewrite (take_S_r _ _ _ Hs), buffer_length_snoc. }
  rewrite Hgen by lia. by rewrite firstn_all.
Qed.

(** The shape copy loop into the fresh block [p]. *)
Lemma copy_shape_run h (lhs : Mem.TensorRef) p sh :
  h !! Mem.shape_ptr lhs = Some (Mem.IntBlock sh) →
  Mem.rank_of lhs = length sh → p ≠ Mem.shape_ptr lhs →
  Mem.copy_shape lhs p
    (<[p := Mem.IntBlock (replicate (length sh) 0)]> h)
  = Some (<[p := Mem.IntBlock sh]> h, buffer_length sh).
Proof.
  intros Hsh Hrank Hne. unfold Mem.copy_shape. rewrite Hrank.
  assert (∀ k, (k ≤ length sh)%nat →
            for_each (λ '(h', len) i,
                        s ← Mem.load_int h' (Mem.shape_ptr lhs) i;
                        h'' ← Mem.store_int h' p i s;
                        Some (h'', size_wrap (len * size_wrap s)))
                     (seqZ 0 (Z.of_nat k))
                     (<[p := Mem.IntBlock (replicate (length sh) 0)]> h, 1)
            = Some (<[p := Mem.IntBlock
                            (take k sh ++ replicate (length sh - k) 0)]> h,
                    buffer_length (take k sh))) as Hgen.
  { induction k as [|k IH]; intros Hk.
    - simpl. by rewrite Nat.sub_0_r.
    - rewrite seqZ_S, for_each_snoc, IH by lia. step_bind.
      destruct (lookup_lt_is_Some_2 sh k) as [s Hs]; [lia|].
      rewrite (load_int_block _ _ sh) by (by rewrite lookup_insert_ne).
      rewrite read_at_nonneg, Z.add_0_l, Nat2Z.id, Hs by lia. step_bind.
      rewrite store_int_block.
      rewrite write_at_in_bounds
        by (rewrite length_app, length_take, length_replicate; lia).
      step_bind. rewrite Nat2Z.id.
      rewrite (take_S_r _ _ _ Hs), buffer_length_snoc. do 3 f_equal.
      replace (length sh - k)%nat with (S (length sh - S k)) by lia.
      replace k with (length (take k sh) + 0)%nat at 1
        by (rewrite length_take; lia).
      rewrite insert_app_r. simpl. by rewrite <- app_assoc. }
  rewrite Hgen by lia.
  by rewrite firstn_all, Nat.sub_diag, app_nil_r.
Qed.

Lemma create_tensor_byptr_run h p sh :
  h !! p = Some (Mem.IntBlock sh) →
  Mem.create_tensor_byptr (length sh) p h
  = Some (Mem.mkRef p (fresh (dom h)) (length sh),
          <[fresh (dom h) :=
              Mem.ScalarBlock (replicate (Z.to_nat (buffer_length sh)) tzero)]> h).
Proof.
  intros Hp. unfold Mem.create_tensor_byptr.
  rewrite (length_loop h p sh Hp). step_bind. unfold Mem.malloc_scalar.
  set (n := Z.to_nat (buffer_length sh)).
  set (q := fresh (dom h)).
  destruct (decide (0 ≤ buffer_length sh)) as [Hn|Hn].
  - pose proof (heap_store_loop q h (λ _, tzero)
                  (λ h' i, Mem.store_scalar h' q i tzero)
                  (replicate n tzero)) as Hloop.
    rewrite length_replicate in Hloop.
    replace (Z.of_nat n) with (buffer_length sh) in Hloop by lia.
    rewrite Hloop by (intros cells i _; apply store_scalar_block).
    step_bind. do 4 f_equal. apply list_eq. intros i.
    rewrite list_lookup_fmap. destruct (decide (i < n)%nat).
    + rewrite lookup_seqZ_lt, lookup_replicate_2 by lia. done.
    + rewrite lookup_seqZ_ge by lia. symmetry. apply lookup_replicate_None. lia.
  - rewrite seqZ_nil by lia. done.
Qed.

End HeapLoops.

Section HeapArithmetic.
Context {T : Type} `{!Scalar T}.
Implicit Types (h : gmap Mem.loc (Mem.block T)) (lhs rhs : Mem.TensorRef)
  (l r : Tensor T).

Lemma fresh_not_allocated h p (b : Mem.block T) :
  h !! p = Some b → fresh (dom h) ≠ p.
Proof.
  intros Hp Heq. apply (is_fresh (dom h)). rewrite Heq.
  by apply elem_of_dom_2 with b.
Qed.

(** What the two allocations and the three loops leave behind. *)
Lemma arithmetic_run
    (body : gmap Mem.loc (Mem.block T) → Mem.loc → Z
            → option (gmap Mem.loc (Mem.block T)))
    (val : Z → T) h lhs l :
  Mem.represents h lhs l → tensor_wf l →
  let p := fresh (dom h) in
  let h1 := <[p := Mem.IntBlock (shape l)]> h in
  let q := fresh (dom h1) in
  (∀ cells i, 0 ≤ i < Z.of_nat (length (components l)) →
     body (<[q := Mem.ScalarBlock cells]> h1) q i
     = Mem.store_scalar (<[q := Mem.ScalarBlock cells]> h1) q i (val i)) →
  (let '(sh, h0) := Mem.malloc_int (Z.of_nat (Mem.rank_of lhs)) h in
   '(h2, len) ← Mem.copy_shape lhs sh h0;
   '(tensor, h3) ← Mem.create_tensor_byptr (Mem.rank_of lhs) sh h2;
   h4 ← for_each (λ h' i, body h' (Mem.components_ptr tensor) i)
                 (seqZ 0 len) h3;
   Some (tensor, h4))
  = Some (Mem.mkRef p q (rank l),
          <[q := Mem.ScalarBlock
                   (val <$> seqZ 0 (Z.of_nat (length (components l))))]> h1).
Proof.
  intros (Hsh & Hcs & Hrk) Hwf p h1 q Hbody.
  unfold Mem.malloc_int. fold p.
  rewrite Hrk, <- (wf_rank _ Hwf), Nat2Z.id.
  rewrite (copy_shape_run h lhs p (shape l) Hsh)
    by (rewrite ?Hrk, ?(wf_rank _ Hwf); first [done | by apply fresh_not_allocated with (Mem.IntBlock (shape l))]).
  step_bind. fold h1.
  rewrite (create_tensor_byptr_run h1 p (shape l))
    by apply lookup_insert_eq.
  step_bind. fold q. cbn [Mem.components_ptr].
  rewrite buffer_length_wf by apply Hwf.
  rewrite <- (wf_len _ Hwf), Nat2Z.id.
  pose proof (heap_store_loop q h1 val (λ h' i, body h' q i)
                (replicate (length (components l)) tzero)) as Hloop.
  rewrite length_replicate in Hloop. rewrite Hloop.
  - done.
  - intros cells i Hi. rewrite Hbody by done. apply store_scalar_block.
Qed.

Lemma arithmetic_frame h lhs l rhs r run result :
  Mem.represents h lhs l → Mem.represents h rhs r →
  run = Some (Mem.mkRef (fresh (dom h))
                (fresh (dom (<[fresh (dom h) := Mem.IntBlock (shape l)]> h)))
                (rank l),
              <[fresh (dom (<[fresh (dom h) := Mem.IntBlock (shape l)]> h)) :=
                  Mem.ScalarBlock (components result)]>
                (<[fresh (dom h) := Mem.IntBlock (shape l)]> h)) →
  shape result = shape l → rank result = rank l →
  Mem.returns_new_tensor h lhs l rhs r run result.
Proof.
  intros Hl Hr Hrun Hs Hk.
  set (p := fresh (dom h)) in *.
  set (h1 := <[p := Mem.IntBlock (shape l)]> h) in *.
  set (q := fresh (dom h1)) in *.
  assert (Hp : p ∉ dom h) by apply is_fresh.
  assert (Hq : q ∉ dom h1) by apply is_fresh.
  assert (Hqp : q ≠ p).
  { intros Heq. apply Hq. rewrite Heq. unfold h1. rewrite dom_insert_L.
    set_solver. }
  assert (Hqh : q ∉ dom h).
  { intros Hin. apply Hq. unfold h1. rewrite dom_insert_L. set_solver. }
  assert (Hframe : ∀ x b, h !! x = Some b →
            <[q := Mem.ScalarBlock (components result)]> h1 !! x = Some b).
  { intros x b Hx. pose proof (elem_of_dom_2 _ _ _ Hx) as Hd.
    unfold h1. rewrite !lookup_insert_ne; [done| |]; intros ->; done. }
  exists (Mem.mkRef p q (rank l)),
    (<[q := Mem.ScalarBlock (components result)]> h1).
  split; [done|]. simpl.
  split; [done|]. split; [done|]. split; [done|]. split; [|split; [done|]].
  - unfold Mem.represents. simpl. split; [|split; [|done]].
    + rewrite lookup_insert_ne by done. unfold h1.
      by rewrite lookup_insert_eq, Hs.
    + by rewrite lookup_insert_eq.
  - destruct Hl as (H1 & H2 & H3), Hr as (H4 & H5 & H6).
    split; (split; [|split]); auto.
Qed.

Lemma binary_op_heap (op : T → T → T) h lhs l rhs r :
  Mem.represents h lhs l → Mem.represents h rhs r →
  tensor_wf l → tensor_wf r → shape r = shape l →
  Mem.new_tensor_like h lhs l rhs r
    (Mem.binary_op op lhs rhs h) (binary_op op l r).
Proof.
  intros Hl Hr Hwl Hwr Hsh.
  assert (Hlen : length (components r) = length (components l)).
  { pose proof (wf_len _ Hwl). pose proof (wf_len _ Hwr). rewrite Hsh in *. lia. }
  exists (mkTensor (shape l) (zip_with op (components l) (components r)) (rank l)).
  split; [by apply binary_op_spec|]. simpl.
  split; [done|]. split; [done|].
  split; [rewrite length_zip_with; lia|].
  apply arithmetic_frame; try done. simpl.
  unfold Mem.binary_op.
  etrans;
    [apply (arithmetic_run
              (λ h' q i,
                 a ← Mem.load_scalar h' (Mem.components_ptr lhs) i;
                 b ← Mem.load_scalar h' (Mem.components_ptr rhs) i;
                 Mem.store_scalar h' q i (op a b))
              (λ i, op (default tzero (components l !! Z.to_nat i))
                       (default tzero (components r !! Z.to_nat i)))
              h lhs l Hl Hwl)|].
  2: { do 4 f_equal. apply list_eq. intros i.
    rewrite list_lookup_fmap, lookup_zip_with.
    destruct (components l !! i) as [x|] eqn:Hx.
    + pose proof (lookup_lt_Some _ _ _ Hx).
      destruct (lookup_lt_is_Some_2 (components r) i) as [y Hy]; [lia|].
      rewrite lookup_seqZ_lt by lia. simpl.
      by rewrite Z.add_0_l, Nat2Z.id, Hx, Hy.
    + apply lookup_ge_None in Hx. by rewrite lookup_seqZ_ge by lia. }
  - intros cells i Hi.
    destruct Hl as (_ & Hlc & _), Hr as (_ & Hrc & _).
    assert (∀ x b, h !! x = Some b →
              <[fresh (dom (<[fresh (dom h) := Mem.IntBlock (shape l)]> h)) :=
                  Mem.ScalarBlock cells]>
                (<[fresh (dom h) := Mem.IntBlock (shape l)]> h) !! x = Some b)
      as Hframe.
    { intros x b Hx. pose proof (elem_of_dom_2 _ _ _ Hx) as Hd.
      rewrite !lookup_insert_ne; [done| |].
      - intros Heq. apply (is_fresh (dom h)). by rewrite Heq.
      - intros Heq.
        apply (is_fresh (dom (<[fresh (dom h) := Mem.IntBlock (shape l)]> h))).
        rewrite Heq, dom_insert_L. apply elem_of_union. by right. }
    rewrite (load_scalar_block _ _ _ _ (Hframe _ _ Hlc)),
      (load_scalar_block _ _ _ _ (Hframe _ _ Hrc)), !read_at_nonneg by lia.
    destruct (lookup_lt_is_Some_2 (components l) (Z.to_nat i)) as [x Hx]; [lia|].
    destruct (lookup_lt_is_Some_2 (components r) (Z.to_nat i)) as [y Hy]; [lia|].
    by rewrite Hx, Hy.
Qed.

Lemma scalar_op_heap (op : T → T → T) h lhs l rhs r scalar :
  Mem.represents h lhs l → Mem.represents h rhs r → tensor_wf l →
  Mem.new_tensor_like h lhs l rhs r
    (Mem.scalar_op op lhs scalar h) (scalar_op op l scalar).
Proof.
  intros Hl Hr Hwl.
  exists (mkTensor (shape l) ((λ a, op a scalar) <$> components l) (rank l)).
  split; [by apply scalar_op_spec|]. simpl.
  split; [done|]. split; [done|].
  split; [by rewrite length_fmap|].
  apply arithmetic_frame; try done. simpl.
  unfold Mem.scalar_op.
  etrans;
    [apply (arithmetic_run
              (λ h' q i,
                 a ← Mem.load_scalar h' (Mem.components_ptr lhs) i;
                 Mem.store_scalar h' q i (op a scalar))
              (λ i, op (default tzero (components l !! Z.to_nat i)) scalar)
              h lhs l Hl Hwl)|].
  2: { do 4 f_equal. apply list_eq. intros i. rewrite !list_lookup_fmap.
    destruct (components l !! i) as [x|] eqn:Hx.
    + pose proof (lookup_lt_Some _ _ _ Hx).
      rewrite lookup_seqZ_lt by lia. simpl.
      by rewrite Z.add_0_l, Nat2Z.id, Hx.
    + apply lookup_ge_None in Hx. by rewrite lookup_seqZ_ge by lia. }
  - intros cells i Hi. destruct Hl as (_ & Hlc & _).
    assert (<[fresh (dom (<[fresh (dom h) := Mem.IntBlock (shape l)]> h)) :=
                Mem.ScalarBlock cells]>
              (<[fresh (dom h) := Mem.IntBlock (shape l)]> h)
              !! Mem.components_ptr lhs
            = Some (Mem.ScalarBlock (components l))) as Hframe.
    { pose proof (elem_of_dom_2 _ _ _ Hlc) as Hd.
      rewrite !lookup_insert_ne; [done| |].
      - intros Heq. apply (is_fresh (dom h)). by rewrite Heq.
      - intros Heq.
        apply (is_fresh (dom (<[fresh (dom h) := Mem.IntBlock (shape l)]> h))).
        rewrite Heq, dom_insert_L. apply elem_of_union. by right. }
    rewrite (load_scalar_block _ _ _ _ Hframe), read_at_nonneg by lia.
    destruct (lookup_lt_is_Some_2 (components l) (Z.to_nat i)) as [x Hx]; [lia|].
    by rewrite Hx.
Qed.

(** C7: started on two tensors of identical shape, each operation of the
    arithmetic family ([sum], [subtract], [divide], [hadamard] and the
    scalar variants [sum_scalar], [subtract_scalar], [divide_scalar],
    [product_scalar]) returns a tensor in two newly allocated blocks, of
    the shape and rank of its operand, and leaves every block that was
    allocated before as it was: the shape, rank and components of the
    operands are unchanged. *)
Theorem arithmetic_returns_new_tensor h lhs l rhs r scalar :
  Mem.represents h lhs l → Mem.represents h rhs r →
  tensor_wf l → tensor_wf r → shape r = shape l →
  Mem.new_tensor_like h lhs l rhs r (Mem.sum lhs rhs h) (sum l r)
  ∧ Mem.new_tensor_like h lhs l rhs r (Mem.subtract lhs rhs h) (subtract l r)
  ∧ Mem.new_tensor_like h lhs l rhs r (Mem.divide lhs rhs h) (divide l r)
  ∧ Mem.new_tensor_like h lhs l rhs r (Mem.hadamard lhs rhs h) (hadamard l r)
  ∧ Mem.new_tensor_like h lhs l rhs r
      (Mem.sum_scalar lhs scalar h) (sum_scalar l scalar)
  ∧ Mem.new_tensor_like h lhs l rhs r
      (Mem.subtract_scalar lhs scalar h) (subtract_scalar l scalar)
  ∧ Mem.new_tensor_like h lhs l rhs r
      (Mem.divide_scalar lhs scalar h) (divide_scalar l scalar)
  ∧ Mem.new_tensor_like h lhs l rhs r
      (Mem.product_scalar lhs scalar h) (product_scalar l scalar).
Proof.
  intros Hl Hr Hwl Hwr Hsh.
  repeat split;
    first [by apply binary_op_heap | by apply scalar_op_heap].
Qed.

End HeapArithmetic.

(** ** The statements at concrete inputs *)

(** The ring laws hold at [Z]. *)
#[export] Instance Z_scalar_ring : ScalarRing Z.
Proof. split; [exact Zth | reflexivity | reflexivity]. Qed.

(** Well-formedness of a tensor given by its lists, by evaluation. *)
Lemma small_tensor_wf {T : Type} (sh : list Z) (cs : list T) (rk : nat) :
  length sh = rk → forallb (λ s, bool_decide (0 ≤ s)) sh = true →
  Z.of_nat (length cs) = Zprod sh → Zprod sh ≤ INT_MAX →
  tensor_wf (mkTensor sh cs rk).
Proof.
  intros Hr Hd Hl Hi. split; simpl; try done.
  apply Forall_forall. intros s Hs.
  rewrite forallb_forall in Hd. apply list_elem_of_In in Hs.
  specialize (Hd s Hs). by apply bool_decide_eq_true in Hd.
Defined.

(** The column expansion on a 3 by 3 matrix of integers. *)
Lemma determinant_expansion_witness :
  let t := mkTensor [3; 3] [1; 2; 3; 4; 5; 6; 7; 8; 10] 2 in
  tensor_wf t ∧ shape t = [3; 3]
  ∧ ∃ entry cof : Z → Z,
      (∀ r, 0 ≤ r < 3 →
            get_value t [r; 0] = Some (entry r) ∧ cofactor t r 0 = Some (cof r))
      ∧ determinant t = Some (loop_sum 3 (λ r, tmul (entry r) (cof r))).
Proof.
  assert (Hwf : tensor_wf (mkTensor [3; 3] [1; 2; 3; 4; 5; 6; 7; 8; 10] 2)).
  { apply small_tensor_wf; [reflexivity | reflexivity | reflexivity |].
    unfold INT_MAX, Zprod. simpl. lia. }
  split; [exact Hwf|]. split; [reflexivity|].
  apply (determinant_expansion
           (mkTensor [3; 3] [1; 2; 3; 4; 5; 6; 7; 8; 10] 2) 3 Hwf eq_refl).
  lia.
Defined.

(** A 2 by 3 matrix next to a singular 2 by 2 matrix: the same value. *)
Lemma determinant_non_square_witness :
  let t := mkTensor [2; 3] [1; 2; 3; 4; 5; 6] 2 in
  let sq := mkTensor [2; 2] [1; 2; 2; 4] 2 in
  shape t !! 0%nat = Some 2 ∧ shape t !! 1%nat = Some 3 ∧ 2 ≠ 3
  ∧ determinant t = Some 0 ∧ determinant sq = determinant t.
Proof.
  assert (Hne : 2 ≠ 3) by lia.
  split; [reflexivity|]. split; [reflexivity|]. split; [exact Hne|].
  destruct (determinant_non_square
              (mkTensor [2; 3] [1; 2; 3; 4; 5; 6] 2) 2 3 eq_refl eq_refl Hne)
    as [Hdet Hsame].
  split; [exact Hdet|].
  apply (Hsame (mkTensor [2; 2] [1; 2; 2; 4] 2) 2); reflexivity.
Defined.

(** The cross products of [(1, 2, 3)] and [(4, 5, 6)] in both orders. *)
Lemma cross_anticommutative_witness :
  let u := mkTensor [3] [1; 2; 3] 1 in
  let v := mkTensor [3] [4; 5; 6] 1 in
  ∃ uv vu : Tensor Z,
    cross u v = Some uv ∧ cross v u = Some vu
    ∧ shape uv = [3] ∧ shape vu = [3]
    ∧ components uv = [2 * 6 - 3 * 5; 3 * 4 - 1 * 6; 1 * 5 - 2 * 4]
    ∧ components uv = Z.opp <$> components vu.
Proof.
  exact (cross_anticommutative
           (mkTensor [3] [1; 2; 3] 1) (mkTensor [3] [4; 5; 6] 1)
           1 2 3 4 5 6 eq_refl eq_refl eq_refl eq_refl).
Defined.

(** The 1 by 1 matrix of entry 5. *)
Lemma determinant_size_1_is_zero_witness :
  let t := mkTensor [1; 1] [5] 2 in
  tensor_wf t ∧ shape t = [1; 1] ∧ determinant t = Some 0.
Proof.
  assert (Hwf : tensor_wf (mkTensor [1; 1] [5] 2)).
  { apply small_tensor_wf; [reflexivity | reflexivity | reflexivity |].
    unfold INT_MAX, Zprod. simpl. lia. }
  split; [exact Hwf|]. split; [reflexivity|].
  destruct (determinant_size_1_is_zero (mkTensor [1; 1] [5] 2) Hwf) as [H1 _].
  destruct (H1 eq_refl) as (_ & _ & _ & Hdet). exact Hdet.
Defined.

(** A 2 by 2 matrix of integers and the identity of size 2. *)
Lemma matmul_identity_is_transpose_witness :
  let t := mkTensor [2; 2] [1; 2; 3; 4] 2 in
  tensor_wf t ∧ shape t = [2; 2]
  ∧ ∃ id tr : Tensor Z,
      create_indentity 2 = Some id ∧ transpose t = Some tr
      ∧ matmul t id = Some tr ∧ matmul id t = Some tr.
Proof.
  assert (Hwf : tensor_wf (mkTensor [2; 2] [1; 2; 3; 4] 2)).
  { apply small_tensor_wf; [reflexivity | reflexivity | reflexivity |].
    unfold INT_MAX, Zprod. simpl. lia. }
  split; [exact Hwf|]. split; [reflexivity|].
  exact (matmul_identity_is_transpose (mkTensor [2; 2] [1; 2; 3; 4] 2) 2
           Hwf eq_refl).
Defined.

(** A heap that holds two vectors of length 2, their sum and a scalar
    product. *)
Lemma arithmetic_returns_new_tensor_witness :
  let h : gmap Mem.loc (Mem.block Z) :=
    <[1%positive := Mem.IntBlock [2]]>
      (<[2%positive := Mem.ScalarBlock [1; 2]]>
         (<[3%positive := Mem.IntBlock [2]]>
            (<[4%positive := Mem.ScalarBlock [3; 4]]> ∅))) in
  let lhs := Mem.mkRef 1%positive 2%positive 1 in
  let rhs := Mem.mkRef 3%positive 4%positive 1 in
  let l := mkTensor [2] [1; 2] 1 in
  let r := mkTensor [2] [3; 4] 1 in
  Mem.represents h lhs l ∧ Mem.represents h rhs r
  ∧ tensor_wf l ∧ tensor_wf r ∧ shape r = shape l
  ∧ Mem.new_tensor_like h lhs l rhs r (Mem.sum lhs rhs h) (sum l r)
  ∧ Mem.new_tensor_like h lhs l rhs r
      (Mem.product_scalar lhs 7 h) (product_scalar l 7).
Proof.
  intros h lhs rhs l r.
  assert (Hl : Mem.represents h lhs l).
  { repeat split; reflexivity. }
  assert (Hr : Mem.represents h rhs r).
  { repeat split; reflexivity. }
  assert (Hwl : tensor_wf l).
  { apply small_tensor_wf; [reflexivity | reflexivity | reflexivity |].
    unfold INT_MAX, Zprod. simpl. lia. }
  assert (Hwr : tensor_wf r).
  { apply small_tensor_wf; [reflexivity | reflexivity | reflexivity |].
    unfold INT_MAX, Zprod. simpl. lia. }
  split; [exact Hl|]. split; [exact Hr|]. split; [exact Hwl|].
  split; [exact Hwr|]. split; [reflexivity|].
  destruct (arithmetic_returns_new_tensor h lhs l rhs r 7 Hl Hr Hwl Hwr eq_refl)
    as (Hsum & _ & _ & _ & _ & _ & _ & Hprod).
  split; [exact Hsum | exact Hprod].
Defined.


(** The 1 by 1 matrix of entry [5.0]. *)
Lemma determinant_size_1_binary64_witness :
  let t := mkTensor [1; 1] [5%float] 2 in
  tensor_wf t ∧ shape t = [1; 1] ∧ Forall finite_double (components t)
  ∧ minor t 0 0 = Some 0%float ∧ determinant t = Some 0%float.
Proof.
  intros t.
  assert (Hwf : tensor_wf t).
  { apply small_tensor_wf; [reflexivity | reflexivity | reflexivity |].
    unfold INT_MAX, Zprod. simpl. lia. }
  assert (Hfin : Forall finite_double (components t))
    by (apply Forall_cons; split; [exact I | apply Forall_nil_2]).
  split; [exact Hwf|]. split; [reflexivity|]. split; [exact Hfin|].
  destruct (determinant_size_1_binary64 t Hwf) as [H1 _].
  destruct (H1 eq_refl Hfin) as (_ & _ & Hminor & Hdet).
  split; [exact Hminor | exact Hdet].
Defined.

(** A 2 by 2 matrix of finite binary64 entries and the identity. *)
Lemma matmul_identity_binary64_witness :
  let t := mkTensor [2; 2] [1.5; 2; 3; 4.25]%float 2 in
  tensor_wf t ∧ shape t = [2; 2] ∧ Forall finite_double (components t)
  ∧ ∃ id tr r1 r2,
      create_indentity 2 = Some id ∧ transpose t = Some tr
      ∧ matmul t id = Some r1 ∧ matmul id t = Some r2
      ∧ shape r1 = shape tr ∧ rank r1 = rank tr
      ∧ shape r2 = shape tr ∧ rank r2 = rank tr
      ∧ Forall2 (λ x y, double_sim x y ∧ (x =? y)%float = true)
          (components r1) (components tr)
      ∧ Forall2 (λ x y, double_sim x y ∧ (x =? y)%float = true)
          (components r2) (components tr).
Proof.
  intros t.
  assert (Hwf : tensor_wf t).
  { apply small_tensor_wf; [reflexivity | reflexivity | reflexivity |].
    unfold INT_MAX, Zprod. simpl. lia. }
  assert (Hfin : Forall finite_double (components t))
    by (repeat (apply Forall_cons; split; [exact I|]); apply Forall_nil_2).
  split; [exact Hwf|]. split; [reflexivity|]. split; [exact Hfin|].
  exact (matmul_identity_binary64 t 2 Hwf eq_refl Hfin).
Defined.

(** * Further properties of the code *)

(** ** tensor.h: construction, access and copies *)

Section TensorAccess.
Context {T : Type} `{!Scalar T}.
Implicit Types (t : Tensor T).

(** A buffer read back cell by cell. *)
Lemma fmap_lookup_seqZ (d : T) (l : list T) :
  (λ i, default d (l !! Z.to_nat i)) <$> seqZ 0 (Z.of_nat (length l)) = l.
Proof.
  apply list_eq. intros i. rewrite list_lookup_fmap.
  destruct (l !! i) as [x|] eqn:Hx.
  - pose proof (lookup_lt_Some _ _ _ Hx).
    rewrite lookup_seqZ_lt by lia. simpl.
    by rewrite Z.add_0_l, Nat2Z.id, Hx.
  - apply lookup_ge_None in Hx. by rewrite lookup_seqZ_ge by lia.
Qed.

Lemma in_range_length sh idx : in_range sh idx → length idx = length sh.
Proof. apply Forall2_length. Qed.

Lemma in_range_lookup sh idx k :
  in_range sh idx → (k < length sh)%nat →
  ∃ i s, idx !! k = Some i ∧ sh !! k = Some s ∧ 0 ≤ i < s.
Proof.
  intros Hin Hk. pose proof (in_range_length _ _ Hin) as Hlen.
  destruct (lookup_lt_is_Some_2 idx k) as [i Hi]; [lia|].
  destruct (lookup_lt_is_Some_2 sh k) as [s Hs]; [lia|].
  exists i, s. split; [done|]. split; [done|].
  apply (Forall2_lookup_lr _ _ _ _ _ _ Hin Hi Hs).
Qed.

(** Two index lists with one index per axis and the same offset agree:
    the offsets are the numbers written in the mixed radix of the shape. *)
Lemma offset_formula_inj sh idx idx' :
  in_range sh idx → in_range sh idx' → Zprod sh ≤ INT_MAX →
  offset_formula sh idx = offset_formula sh idx' → idx = idx'.
Proof.
  intros Hin Hin' Hint Heq.
  assert (∀ n, (n ≤ length sh)%nat →
               offset_formula sh (take n idx) = offset_formula sh (take n idx') →
               take n idx = take n idx') as Hgen.
  { induction n as [|n IH]; intros Hn Hoff; [done|].
    destruct (in_range_lookup sh idx n Hin ltac:(lia)) as (i & s & Hi & Hs & Hb).
    destruct (in_range_lookup sh idx' n Hin' ltac:(lia))
      as (i' & s' & Hi' & Hs' & Hb').
    rewrite (take_S_r _ _ _ Hi), (take_S_r _ _ _ Hi') in Hoff |- *.
    rewrite !offset_formula_snoc in Hoff.
    pose proof (in_range_length _ _ Hin) as Hl.
    pose proof (in_range_length _ _ Hin') as Hl'.
    rewrite !length_take in Hoff.
    replace (n `min` length idx)%nat with n in Hoff by lia.
    replace (n `min` length idx')%nat with n in Hoff by lia.
    destruct (flat_index_prefix sh idx n Hin Hint ltac:(lia)) as [_ Hb1].
    destruct (flat_index_prefix sh idx' n Hin' Hint ltac:(lia)) as [_ Hb2].
    set (st := axis_stride sh n) in *.
    set (o := offset_formula sh (take n idx)) in *.
    set (o' := offset_formula sh (take n idx')) in *.
    assert (i = i') as ->.
    { destruct (Z.lt_trichotomy i i') as [Hlt|[->|Hgt]]; [exfalso|done|exfalso].
      - assert (1 * st ≤ (i' - i) * st) as Hst
          by (apply Z.mul_le_mono_nonneg_r; lia).
        rewrite Z.mul_sub_distr_r in Hst. lia.
      - assert (1 * st ≤ (i - i') * st) as Hst
          by (apply Z.mul_le_mono_nonneg_r; lia).
        rewrite Z.mul_sub_distr_r in Hst. lia. }
    rewrite IH; [done|lia|lia]. }
  specialize (Hgen (length sh) ltac:(lia)).
  pose proof (in_range_length _ _ Hin). pose proof (in_range_length _ _ Hin').
  rewrite !take_ge in Hgen by lia. by apply Hgen.
Qed.

Lemma set_value_wf t v idx t' :
  tensor_wf t → in_range (shape t) idx → set_value t v idx = Some t' →
  tensor_wf t' ∧ shape t' = shape t ∧ rank t' = rank t.
Proof.
  intros Hwf Hin Hset.
  destruct (accessors_at_offset t idx v Hwf Hin) as (_ & _ & Hs).
  rewrite Hs in Hset. injection Hset as <-.
  destruct Hwf as [Hr Hd Hl Hi]. repeat split; simpl; try done.
  by rewrite length_insert.
Qed.

(** X1: [create_tensor(rank, d_0, ..., d_{rank-1})] with non-negative
    [int] dimensions whose product fits an [int] returns a well-formed tensor
    of that shape and rank, with one component per index, and every
    in-range read of it gives [0.0].  Arguments past the first [rank]
    are not read. *)
Theorem create_tensor_zeros (dims extra : list Z) :
  Forall (λ s, 0 ≤ s ≤ INT_MAX) dims → Zprod dims ≤ INT_MAX →
  ∃ t : Tensor T,
    create_tensor (length dims) (dims ++ extra) = Some t
    ∧ shape t = dims ∧ rank t = length dims ∧ tensor_wf t
    ∧ Z.of_nat (length (components t)) = Zprod dims
    ∧ ∀ idx, in_range dims idx → get_value t idx = Some tzero.
Proof.
  intros Hd' Hint.
  assert (Forall (λ s, 0 ≤ s) dims) as Hd
    by (eapply Forall_impl; [exact Hd'|]; simpl; lia).
  unfold create_tensor.
  rewrite decide_True by (rewrite length_app; lia).
  rewrite take_app_length, buffer_length_wf by done.
  pose proof (Zprod_nonneg _ Hd) as Hp.
  eexists. split; [reflexivity|]. cbn [shape rank components].
  assert (tensor_wf (mkTensor dims (replicate (Z.to_nat (Zprod dims)) (tzero : T))
                       (length dims))) as Hwf.
  { split; cbn [shape rank components]; try done.
    rewrite length_replicate. lia. }
  split; [done|]. split; [done|]. split; [done|].
  split; [rewrite length_replicate; lia|].
  intros idx Hin.
  destruct (accessors_at_offset _ idx tzero Hwf Hin) as (Hb & Hg & _).
  rewrite Hg. cbn [shape components] in *.
  apply lookup_replicate_2. rewrite length_replicate in Hb. lia.
Qed.

(** X2: a store through [set_value] at an in-range index is read back
    by [get_value] at that index, leaves every other in-range index as
    it was, and keeps the shape, the rank and the well-formedness. *)
Theorem get_value_after_set t (idx idx' : list Z) (v : T) :
  tensor_wf t → in_range (shape t) idx → in_range (shape t) idx' →
  ∃ t', set_value t v idx = Some t'
        ∧ tensor_wf t' ∧ shape t' = shape t ∧ rank t' = rank t
        ∧ get_value t' idx = Some v
        ∧ (idx' ≠ idx → get_value t' idx' = get_value t idx').
Proof.
  intros Hwf Hin Hin'.
  destruct (accessors_at_offset t idx v Hwf Hin) as (Hb & _ & Hs).
  eexists. split; [exact Hs|].
  destruct (set_value_wf t v idx _ Hwf Hin Hs) as (Hwf' & Hsh & Hrk).
  split; [done|]. split; [done|]. split; [done|].
  cbn [shape] in Hsh. split.
  - destruct (accessors_at_offset _ idx v Hwf') as (_ & Hg & _); [done|].
    rewrite Hg. cbn [shape components].
    apply list_lookup_insert_eq. lia.
  - intros Hne.
    destruct (accessors_at_offset _ idx' v Hwf') as (_ & Hg & _); [done|].
    destruct (accessors_at_offset t idx' v Hwf Hin') as (Hb' & Hg' & _).
    rewrite Hg, Hg'. cbn [shape components].
    apply list_lookup_insert_ne. intros Heq.
    apply Hne. symmetry.
    apply (offset_formula_inj (shape t)); [done|done|apply Hwf|lia].
Qed.

(** X3: on a well-formed tensor [get_length] returns the product of the
    dimensions, which is the number of components of the buffer. *)
Theorem get_length_components t :
  tensor_wf t →
  get_length t = Some (Zprod (shape t))
  ∧ Zprod (shape t) = Z.of_nat (length (components t)).
Proof.
  intros [Hr Hd Hl Hi]. unfold get_length.
  rewrite decide_True by lia.
  rewrite <- Hr, firstn_all, buffer_length_wf by done. by rewrite Hl.
Qed.

(** [create_copy] of a well-formed tensor returns a tensor with the same
    shape, rank and components. *)
Lemma create_copy_same t : tensor_wf t → create_copy t = Some t.
Proof.
  intros Hwf. unfold create_copy. rewrite (copy_shape_wf _ Hwf). step_bind.
  rewrite Nat2Z.id.
  pose proof (store_loop
                (λ i, default tzero (components t !! Z.to_nat i))
                (λ comps i, v ← read_at (components t) i; write_at comps i v)
                (replicate (length (components t)) tzero)) as Hloop.
  rewrite length_replicate in Hloop. rewrite Hloop; clear Hloop.
  - step_bind. rewrite fmap_lookup_seqZ. by destruct t.
  - intros comps i Hi. rewrite read_at_nonneg by lia.
    destruct (lookup_lt_is_Some_2 (components t) (Z.to_nat i)) as [x Hx];
      [lia|]. by rewrite Hx.
Qed.

Lemma flat_index_pair t a b x y :
  shape t = [a; b] → rank t = 2%nat →
  flat_index t [x; y] = Some (int_wrap (int_wrap (0 + x) + int_wrap (y * a))).
Proof. intros Hs Hr. unfold flat_index, stride_loop. by rewrite Hs, Hr. Qed.

(** X4: the accessors do not check an index against its axis.  In a
    matrix of [a] rows an index [(i + a, j)] with a column [j + 1] inside
    the matrix is the element [(i, j + 1)]: both reads return the same
    value and both stores give the same tensor. *)
Theorem accessors_alias_next_column t a b i j (v : T) :
  tensor_wf t → shape t = [a; b] → 0 ≤ i < a → 0 ≤ j → j + 1 < b →
  ¬ in_range (shape t) [i + a; j]
  ∧ get_value t [i + a; j] = get_value t [i; j + 1]
  ∧ set_value t v [i + a; j] = set_value t v [i; j + 1]
  ∧ ∃ x, get_value t [i + a; j] = Some x.
Proof.
  intros Hwf Hsh Hi Hj Hj1.
  pose proof (wf_is_matrix t a b Hwf Hsh) as Hm.
  pose proof (im_int _ _ _ _ Hm) as Hint.
  assert (0 ≤ j * a) by (apply Z.mul_nonneg_nonneg; lia).
  assert ((j + 1) * a ≤ (b - 1) * a) as Hja
    by (apply Z.mul_le_mono_nonneg_r; lia).
  rewrite Z.mul_sub_distr_r, Z.mul_add_distr_r, (Z.mul_comm b a) in Hja.
  assert (flat_index t [i + a; j] = flat_index t [i; j + 1]) as Hfi.
  { rewrite !(flat_index_pair t a b) by (done || apply Hm).
    unfold INT_MAX in *.
    rewrite !(int_wrap_small (0 + _)) by (unfold INT_MAX; lia).
    rewrite !(int_wrap_small (_ * a)) by (unfold INT_MAX; lia).
    f_equal. f_equal. lia. }
  split.
  - rewrite Hsh. intros Hr. apply Forall2_cons in Hr as [Hr _]. lia.
  - split; [|split].
    + unfold get_value. by rewrite Hfi.
    + unfold set_value. by rewrite Hfi.
    + unfold get_value. rewrite Hfi. fold (get_value t [i; j + 1]).
      rewrite (is_matrix_get _ _ _ _ _ _ Hm) by lia. eauto.
Qed.

End TensorAccess.

(** ** tensor.h: the arithmetic family and [dot] on tensor values *)

Section ArithmeticValues.
Context {T : Type} `{!Scalar T}.
Implicit Types (lhs rhs t : Tensor T).

(** X5: the eight operations of the arithmetic family are
    element-wise.  For a well-formed [lhs], [sum], [subtract], [divide]
    and [hadamard] with any [rhs] of as many components, and
    [sum_scalar], [subtract_scalar], [divide_scalar] and
    [product_scalar] with any scalar, return the shape and rank of [lhs]
    with component [i] equal to [lhs[i] op rhs[i]], or [lhs[i] op scalar];
    the shape of [rhs] is not consulted. *)
Theorem arithmetic_family_elementwise lhs rhs (scalar : T) :
  tensor_wf lhs → length (components rhs) = length (components lhs) →
  let binary (op : T → T → T) :=
    Some (mkTensor (shape lhs)
            (zip_with op (components lhs) (components rhs)) (rank lhs)) in
  let unary (op : T → T → T) :=
    Some (mkTensor (shape lhs)
            ((λ x, op x scalar) <$> components lhs) (rank lhs)) in
  sum lhs rhs = binary tadd
  ∧ subtract lhs rhs = binary tsub
  ∧ divide lhs rhs = binary tdiv
  ∧ hadamard lhs rhs = binary tmul
  ∧ sum_scalar lhs scalar = unary tadd
  ∧ subtract_scalar lhs scalar = unary tsub
  ∧ divide_scalar lhs scalar = unary tdiv
  ∧ product_scalar lhs scalar = unary tmul.
Proof.
  intros Hwf Hlen binary unary.
  unfold sum, subtract, divide, hadamard,
    sum_scalar, subtract_scalar, divide_scalar, product_scalar.
  repeat split; first [by apply binary_op_spec | by apply scalar_op_spec].
Qed.

Lemma arithmetic_result_wf lhs (cs : list T) :
  tensor_wf lhs → length cs = length (components lhs) →
  tensor_wf (mkTensor (shape lhs) cs (rank lhs)).
Proof. intros [Hr Hd Hl Hi] Hcs. split; simpl; try done. by rewrite Hcs. Qed.

(** The sum that [dot] accumulates. *)
Lemma dot_spec lhs rhs :
  tensor_wf lhs → (length (components lhs) ≤ length (components rhs))%nat →
  dot lhs rhs
  = Some (loop_sum (Z.of_nat (length (components lhs)))
            (λ i, tmul (default tzero (components lhs !! Z.to_nat i))
                    (default tzero (components rhs !! Z.to_nat i)))).
Proof.
  intros Hwf Hlen. unfold dot. rewrite (copy_shape_wf _ Hwf). step_bind.
  unfold loop_sum. apply for_each_pure. intros acc i Hi.
  apply elem_of_seqZ in Hi. rewrite !read_at_nonneg by lia.
  destruct (lookup_lt_is_Some_2 (components lhs) (Z.to_nat i)) as [x Hx];
    [lia|].
  destruct (lookup_lt_is_Some_2 (components rhs) (Z.to_nat i)) as [y Hy];
    [lia|].
  by rewrite Hx, Hy.
Qed.

(** A sum over the offsets of two buffers, as a sum over their pairs. *)
Lemma loop_sum_zip (l k : list T) :
  (length l ≤ length k)%nat →
  ∀ acc,
    foldl (λ acc i, tadd acc (tmul (default tzero (l !! Z.to_nat i))
                                (default tzero (k !! Z.to_nat i))))
          acc (seqZ 0 (Z.of_nat (length l)))
    = foldl (λ acc p, tadd acc (tmul p.1 p.2)) acc (zip l k).
Proof.
  revert k. induction l as [|x l IH]; intros k Hlen acc; [done|].
  destruct k as [|y k]; simpl in Hlen; [lia|].
  rewrite seqZ_cons by (simpl; lia).
  replace (Z.pred (Z.of_nat (length (x :: l)))) with (Z.of_nat (length l))
    by (simpl; lia).
  change (Z.succ 0) with (1 + 0).
  rewrite <- (fmap_add_seqZ 1 0). cbn [foldl zip zip_with].
  rewrite foldl_fmap, <- IH by lia.
  apply foldl_ext_elem. intros a i Hi. apply elem_of_seqZ in Hi.
  replace (Z.to_nat (1 + i)) with (S (Z.to_nat i)) by lia. done.
Qed.

Lemma dot_zip lhs rhs :
  tensor_wf lhs → (length (components lhs) ≤ length (components rhs))%nat →
  dot lhs rhs
  = Some (foldl (λ acc p, tadd acc (tmul p.1 p.2)) tzero
            (zip (components lhs) (components rhs))).
Proof.
  intros Hwf Hlen. rewrite (dot_spec _ _ Hwf Hlen). f_equal.
  unfold loop_sum. by apply loop_sum_zip.
Qed.

(** X6: [dot] treats its operands as flat buffers: for a well-formed
    [lhs] of any rank and an [rhs] with at least as many components it
    returns [0.0 + lhs[0]*rhs[0] + ...], summed in index order over the
    components of [lhs].  Neither shape is compared, and the components
    of [rhs] past those of [lhs] are not read. *)
Theorem dot_flat_sum lhs rhs :
  tensor_wf lhs → (length (components lhs) ≤ length (components rhs))%nat →
  dot lhs rhs
  = Some (foldl (λ acc p, tadd acc (tmul p.1 p.2)) tzero
            (zip (components lhs) (components rhs)))
  ∧ ∀ sh rk,
      dot lhs (mkTensor sh (take (length (components lhs)) (components rhs)) rk)
      = dot lhs rhs.
Proof.
  intros Hwf Hlen. split; [by apply dot_zip|].
  intros sh rk. rewrite !dot_zip; try done.
  - cbn [components]. f_equal. f_equal. apply zip_with_take_r.
  - cbn [components]. rewrite length_take. lia.
Qed.

End ArithmeticValues.

(** ** The arithmetic family, [dot] and [cross] under the ring laws *)

Section ArithmeticLaws.
Context {T : Type} `{!Scalar T} `{!ScalarRing T}.
Implicit Types (a b c t u v : Tensor T).

Add Ring arithmetic_ring : scalar_ring.

Lemma foldl_pairs_shift (l : list (T * T)) (acc : T) :
  foldl (λ acc p, tadd acc (tmul p.1 p.2)) acc l
  = tadd acc (foldl (λ acc p, tadd acc (tmul p.1 p.2)) tzero l).
Proof.
  revert acc. induction l as [|p l IH]; intros acc; simpl; [ring|].
  rewrite IH, (IH (tadd tzero _)). ring.
Qed.

Lemma zip_with_comm_ring (op : T → T → T) (l k : list T) :
  (∀ x y, op x y = op y x) → zip_with op l k = zip_with op k l.
Proof.
  intros Hop. revert k. induction l as [|x l IH]; intros [|y k]; simpl; try done.
  by rewrite Hop, IH.
Qed.

(** X7: under the ring laws [sum] and [hadamard] do not depend on the
    order of two well-formed operands of one shape and rank. *)
Theorem sum_hadamard_commute a b :
  tensor_wf a → tensor_wf b → shape a = shape b → rank a = rank b →
  (∃ r, sum a b = Some r ∧ sum b a = Some r)
  ∧ (∃ r, hadamard a b = Some r ∧ hadamard b a = Some r).
Proof.
  intros Ha Hb Hs Hr.
  assert (length (components b) = length (components a)) as Hl.
  { pose proof (wf_len _ Ha). pose proof (wf_len _ Hb). rewrite Hs in *. lia. }
  unfold sum, hadamard.
  rewrite !(binary_op_spec _ a b Ha Hl), !(binary_op_spec _ b a Hb (eq_sym Hl)).
  split; eexists; (split; [reflexivity|]); rewrite <- Hs, <- Hr; do 2 f_equal;
    apply zip_with_comm_ring; intros; ring.
Qed.

Lemma fmap_id_ring (g : T → T) (l : list T) : (∀ x, g x = x) → g <$> l = l.
Proof.
  intros Hg. induction l as [|x l IH]; [done|]. by rewrite fmap_cons, Hg, IH.
Qed.

(** X8: under the ring laws the scalar operations undo one another
    and have neutral scalars: subtracting the scalar that was added
    gives the tensor back, and so do adding [0.0] and multiplying by
    [1.0]. *)
Theorem scalar_family_round_trip t (s : T) :
  tensor_wf t →
  (u ← sum_scalar t s; subtract_scalar u s) = Some t
  ∧ (u ← subtract_scalar t s; sum_scalar u s) = Some t
  ∧ sum_scalar t tzero = Some t
  ∧ product_scalar t tone = Some t.
Proof.
  intros Hwf. unfold sum_scalar, subtract_scalar, product_scalar.
  assert (∀ cs, length cs = length (components t) →
                tensor_wf (mkTensor (shape t) cs (rank t))) as Hwf'
    by (intros; by apply arithmetic_result_wf).
  rewrite !(scalar_op_spec _ t _ Hwf). step_bind.
  rewrite (scalar_op_spec tsub _ s
             (Hwf' _ (length_fmap (λ x, tadd x s) (components t)))).
  rewrite (scalar_op_spec tadd _ s
             (Hwf' _ (length_fmap (λ x, tsub x s) (components t)))).
  cbn [shape rank components]. rewrite <- !list_fmap_compose.
  repeat split; rewrite fmap_id_ring by (intros; simpl; ring); by destruct t.
Qed.

Lemma zip_flip (l k : list T) : zip k l = (λ p, (p.2, p.1)) <$> zip l k.
Proof.
  revert k. induction l as [|x l IH]; intros [|y k]; simpl; try done.
  by rewrite IH.
Qed.

Lemma dot_sum_add (l k m : list T) :
  length k = length l → (length l ≤ length m)%nat →
  foldl (λ acc p, tadd acc (tmul p.1 p.2)) tzero (zip (zip_with tadd l k) m)
  = tadd (foldl (λ acc p, tadd acc (tmul p.1 p.2)) tzero (zip l m))
         (foldl (λ acc p, tadd acc (tmul p.1 p.2)) tzero (zip k m)).
Proof.
  revert k m. induction l as [|x l IH]; intros [|y k] [|z m] Hk Hm;
    simpl in *; try lia; try ring.
  rewrite 3!(foldl_pairs_shift _ (tadd tzero _)).
  rewrite IH by lia. simpl. ring.
Qed.

(** X9: under the ring laws [dot] is symmetric in two well-formed
    operands with the same number of components, and additive in its
    first operand: [dot(sum(a, b), c) = dot(a, c) + dot(b, c)] for a
    [c] with as many components. *)
Theorem dot_symmetric_additive a b c :
  tensor_wf a → tensor_wf b →
  length (components b) = length (components a) →
  length (components c) = length (components a) →
  (∃ x, dot a b = Some x ∧ dot b a = Some x)
  ∧ (∃ x y, dot a c = Some x ∧ dot b c = Some y
            ∧ (s ← sum a b; dot s c) = Some (tadd x y)).
Proof.
  intros Ha Hb Hlb Hlc. split.
  - eexists. split; [apply dot_zip; [done|lia]|].
    rewrite dot_zip by (done || lia). f_equal.
    rewrite (zip_flip (components a) (components b)), foldl_fmap.
    apply foldl_ext_elem. intros acc p _. simpl. ring.
  - eexists _, _. split; [apply dot_zip; [done|lia]|].
    split; [apply dot_zip; [done|lia]|].
    unfold sum. rewrite (binary_op_spec _ a b Ha Hlb). step_bind.
    rewrite dot_zip.
    + cbn [components]. f_equal. apply dot_sum_add; lia.
    + apply arithmetic_result_wf; [done|].
      rewrite length_zip_with. lia.
    + cbn [components]. rewrite length_zip_with. lia.
Qed.

(** X10: under the ring laws the cross product of two vectors of
    length 3 is orthogonal to both, and the cross product of a vector
    with itself is the zero vector. *)
Theorem cross_orthogonal u v (u0 u1 u2 v0 v1 v2 : T) :
  shape u = [3] →
  components u = [u0; u1; u2] → components v = [v0; v1; v2] →
  (∃ w, cross u v = Some w ∧ dot w u = Some tzero ∧ dot w v = Some tzero)
  ∧ cross u u = Some (mkTensor [3] [tzero; tzero; tzero] 1).
Proof.
  intros Hsu Hu Hv. split.
  - eexists. split; [by apply (cross_components u v _ _ _ _ _ _ Hsu Hu Hv)|].
    assert (tensor_wf
              (mkTensor [3]
                 [tsub (tmul u1 v2) (tmul u2 v1); tsub (tmul u2 v0) (tmul u0 v2);
                  tsub (tmul u0 v1) (tmul u1 v0)] 1)) as Hw.
    { apply small_tensor_wf; [reflexivity..|].
      unfold INT_MAX, Zprod. simpl. lia. }
    split.
    + rewrite dot_zip by (done || (rewrite Hu; simpl; lia)).
      rewrite Hu. simpl. f_equal. ring.
    + rewrite dot_zip by (done || (rewrite Hv; simpl; lia)).
      rewrite Hv. simpl. f_equal. ring.
  - rewrite (cross_components u u _ _ _ _ _ _ Hsu Hu Hu).
    do 2 f_equal. repeat f_equal; ring.
Qed.

End ArithmeticLaws.

(** ** vector.h *)

Section Vectors.
Context {T : Type} `{!Scalar T}.
Implicit Types (vec : Tensor T).

Lemma create_vector_spec (n : Z) :
  0 ≤ n ≤ INT_MAX →
  create_vector n = Some (mkTensor [n] (replicate (Z.to_nat n) (tzero : T)) 1).
Proof.
  intros Hn. unfold create_vector, create_tensor.
  rewrite decide_True by (simpl; lia). simpl take.
  rewrite buffer_length_wf.
  - unfold Zprod. simpl. by rewrite Z.mul_1_r.
  - repeat constructor; lia.
  - unfold Zprod. simpl. lia.
Qed.

Lemma vector_wf vec n :
  tensor_wf vec → shape vec = [n] →
  0 ≤ n ≤ INT_MAX ∧ Z.of_nat (length (components vec)) = n.
Proof.
  intros [Hr Hd Hl Hi] Hs. rewrite Hs in *. unfold Zprod in *. simpl in *.
  apply Forall_cons in Hd as [Hn _]. lia.
Qed.

(** X11: [cross] sizes its result by [u.shape[0]] and stores three
    components.  For a [u] of shape [[n]] with [3 ≤ n] the result has
    shape [[n]]: the cross product of the first three components of the
    operands, then [0.0] up to length [n].  For [n < 3] a store falls
    outside the result's buffer and there is no result. *)
Theorem cross_result_length (u v : Tensor T) n (u0 u1 u2 v0 v1 v2 : T) ru rv :
  shape u = [n] → 0 ≤ n ≤ INT_MAX →
  components u = u0 :: u1 :: u2 :: ru → components v = v0 :: v1 :: v2 :: rv →
  (3 ≤ n →
   cross u v
   = Some (mkTensor [n]
             (tsub (tmul u1 v2) (tmul u2 v1)
              :: tsub (tmul u2 v0) (tmul u0 v2)
              :: tsub (tmul u0 v1) (tmul u1 v0)
              :: replicate (Z.to_nat (n - 3)) tzero) 1))
  ∧ (n < 3 → cross u v = None).
Proof.
  intros Hs Hn Hu Hv. unfold cross. rewrite Hs, Hu, Hv.
  cbn [lookup list_lookup]. step_bind.
  rewrite (create_vector_spec n Hn). step_bind.
  unfold read_at. simpl. split; intros Hn3.
  - replace (Z.to_nat n) with (3 + Z.to_nat (n - 3))%nat by lia.
    simpl replicate.
    rewrite !write_at_in_bounds by (simpl; lia). step_bind.
    rewrite !write_at_in_bounds by (simpl; lia). step_bind.
    rewrite !write_at_in_bounds by (simpl; lia). step_bind.
    replace (3 + Z.to_nat (n - 3))%nat with (Z.to_nat n) by lia. done.
  - assert (n = 0 ∨ n = 1 ∨ n = 2) as [-> | [-> | ->]] by lia; reflexivity.
Qed.

(** [create_vector_from] reads the first three cells of its argument
    and returns a well-formed vector of length 3 that [get_value] reads
    back cell by cell. *)
Lemma create_vector_from_reads_back (a b c : T) (rest : list T) :
  ∃ vec, create_vector_from (a :: b :: c :: rest) = Some vec
         ∧ tensor_wf vec ∧ shape vec = [3]
         ∧ get_value vec [0] = Some a
         ∧ get_value vec [1] = Some b
         ∧ get_value vec [2] = Some c.
Proof.
  eexists. split; [reflexivity|]. split.
  - apply small_tensor_wf; [reflexivity..|]. unfold INT_MAX, Zprod. simpl. lia.
  - repeat split.
Qed.

(** A loop that replaces every cell of a buffer by [g] of it. *)
Lemma map_in_place (g : T → T) (body : list T → Z → option (list T)) l :
  (∀ comps i, 0 ≤ i < Z.of_nat (length l) →
              body comps i = a ← read_at comps i; write_at comps i (g a)) →
  for_each body (seqZ 0 (Z.of_nat (length l))) l = Some (g <$> l).
Proof.
  intros Hbody.
  assert (∀ k, (k ≤ length l)%nat →
               for_each body (seqZ 0 (Z.of_nat k)) l
               = Some ((g <$> take k l) ++ drop k l)) as Hgen.
  { induction k as [|k IH]; intros Hk; [by rewrite drop_0|].
    rewrite seqZ_S, for_each_snoc, IH by lia. step_bind.
    rewrite Hbody by lia.
    destruct (lookup_lt_is_Some_2 l k) as [x Hx]; [lia|].
    rewrite Z.add_0_l, read_at_nonneg, Nat2Z.id by lia.
    assert (length (g <$> take k l) = k) as Hlen
      by (rewrite length_fmap, length_take; lia).
    rewrite lookup_app_r, Hlen, Nat.sub_diag by lia.
    rewrite (drop_S _ _ _ Hx). simpl.
    rewrite write_at_in_bounds
      by (rewrite length_app, Hlen; simpl; lia).
    rewrite Nat2Z.id. f_equal.
    replace k with (length (g <$> take k l) + 0)%nat at 1 by lia.
    rewrite insert_app_r. simpl.
    rewrite (take_S_r _ _ _ Hx), fmap_app, <- app_assoc. done. }
  rewrite Hgen by lia. by rewrite firstn_all, drop_all, app_nil_r.
Qed.

Context `{!ScalarSqrt T}.

Lemma norm_spec vec n :
  tensor_wf vec → shape vec = [n] →
  norm vec
  = Some (tsqrt (loop_sum n
                   (λ i, tmul (default tzero (components vec !! Z.to_nat i))
                           (default tzero (components vec !! Z.to_nat i))))).
Proof.
  intros Hwf Hs. destruct (vector_wf vec n Hwf Hs) as [Hn Hl].
  unfold norm. rewrite Hs. cbn [lookup list_lookup]. step_bind.
  erewrite for_each_pure; [reflexivity|].
  intros acc i Hi. apply elem_of_seqZ in Hi. rewrite read_at_nonneg by lia.
  destruct (lookup_lt_is_Some_2 (components vec) (Z.to_nat i)) as [x Hx];
    [lia|]. by rewrite Hx.
Qed.

Lemma normalize_spec vec n m :
  tensor_wf vec → shape vec = [n] → norm vec = Some m →
  normalize vec = Some (mkTensor [n] ((λ x, tdiv x m) <$> components vec) 1).
Proof.
  intros Hwf Hs Hnorm. destruct (vector_wf vec n Hwf Hs) as [Hn Hl].
  unfold normalize. rewrite Hnorm. step_bind.
  rewrite (create_copy_same _ Hwf). step_bind.
  rewrite Hs. cbn [lookup list_lookup]. step_bind.
  pose proof (map_in_place (λ x, tdiv x m)
                (λ comps i, x ← read_at comps i; write_at comps i (tdiv x m))
                (components vec) (λ _ _ _, eq_refl)) as Hloop.
  rewrite Hl in Hloop. rewrite Hloop. step_bind. do 2 f_equal.
  pose proof (wf_rank _ Hwf) as Hr. rewrite Hs in Hr. done.
Qed.

(** X13: for a well-formed vector (rank 1) [norm] is the square root
    of the [dot] of the vector with itself. *)
Theorem norm_sqrt_dot vec n :
  tensor_wf vec → shape vec = [n] →
  ∃ d, dot vec vec = Some d ∧ norm vec = Some (tsqrt d).
Proof.
  intros Hwf Hs. destruct (vector_wf vec n Hwf Hs) as [Hn Hl].
  eexists. split; [by apply dot_spec|].
  rewrite Hl. by apply norm_spec.
Qed.

(** X14: for a well-formed vector [normalize] is [divide_scalar] by
    the [norm]: every component divided by the norm, in a tensor of the
    same shape. *)
Theorem normalize_divides_by_norm vec n :
  tensor_wf vec → shape vec = [n] →
  ∃ m, norm vec = Some m
       ∧ normalize vec = divide_scalar vec m
       ∧ normalize vec
         = Some (mkTensor [n] ((λ x, tdiv x m) <$> components vec) 1).
Proof.
  intros Hwf Hs. eexists. split; [by apply norm_spec|].
  rewrite (normalize_spec vec n _ Hwf Hs (norm_spec vec n Hwf Hs)).
  split; [|done].
  unfold divide_scalar. rewrite (scalar_op_spec _ _ _ Hwf), Hs. do 2 f_equal.
  pose proof (wf_rank _ Hwf) as Hr. rewrite Hs in Hr. done.
Qed.

End Vectors.

Lemma foldl_zero_squares (l : list Z) :
  foldl (λ acc i, (acc + 0 * 0)%float) 0%float l = 0%float.
Proof. induction l as [|i l IH]; [done|]. simpl. exact IH. Qed.

(** X15: [normalize] has no test for a zero norm.  In binary64 the
    zero vector of any length [n] has norm [0.0], and [normalize]
    returns [n] components [0.0 / 0.0], each a NaN. *)
Theorem normalize_zero_vector (n : Z) :
  0 ≤ n ≤ INT_MAX →
  (vec ← create_vector n; norm vec) = Some 0%float
  ∧ (vec ← create_vector n; normalize vec)
    = Some (mkTensor [n] (replicate (Z.to_nat n) nan) 1).
Proof.
  intros Hn. rewrite (create_vector_spec n Hn). step_bind.
  set (z := mkTensor [n] (replicate (Z.to_nat n) (tzero : float)) 1).
  assert (tensor_wf z) as Hwf.
  { split; simpl; try done.
    - repeat constructor; lia.
    - rewrite length_replicate. unfold Zprod. simpl. lia.
    - unfold Zprod. simpl. lia. }
  assert (norm z = Some 0%float) as Hnorm.
  { unfold norm. cbn [z shape lookup list_lookup]. step_bind.
    erewrite for_each_pure.
    - step_bind. f_equal.
      rewrite (foldl_ext_elem _ (λ acc i, (acc + 0 * 0)%float)).
      + by rewrite foldl_zero_squares.
      + done.
    - intros acc i Hi. apply elem_of_seqZ in Hi.
      rewrite read_at_nonneg by lia. cbn [z components].
      rewrite lookup_replicate_2 by lia. done. }
  split; [done|].
  rewrite (normalize_spec z n _ Hwf eq_refl Hnorm).
  cbn [z components]. by rewrite fmap_replicate.
Qed.

(** ** matrix.h: transposes, identities and products *)

Section MatrixProperties.
Context {T : Type} `{!Scalar T}.
Implicit Types (t : Tensor T).

(** X16: [transpose] of a well-formed [a] by [b] matrix has shape
    [[b; a]], its entry [(j, i)] is the entry [(i, j)] of the operand,
    and transposing it again gives the operand back. *)
Theorem transpose_involution t a b :
  tensor_wf t → shape t = [a; b] →
  ∃ tr, transpose t = Some tr
        ∧ tensor_wf tr ∧ shape tr = [b; a]
        ∧ (∀ i j, 0 ≤ i < a → 0 ≤ j < b →
                  get_value tr [j; i] = get_value t [i; j])
        ∧ transpose tr = Some t.
Proof.
  intros Hwf Hsh. pose proof (wf_is_matrix t a b Hwf Hsh) as Hm.
  destruct (transpose_spec t a b _ Hm) as (tr & Htr & Htrm).
  destruct (transpose_spec tr b a _ Htrm) as (t2 & Ht2 & Ht2m).
  exists tr. split; [done|]. split; [by eapply is_matrix_wf|].
  split; [apply Htrm|]. split.
  - intros i j Hi Hj.
    by rewrite (is_matrix_get _ _ _ _ _ _ Htrm), (is_matrix_get _ _ _ _ _ _ Hm).
  - rewrite Ht2. f_equal. by apply (is_matrix_inj t2 t a b _ Ht2m).
Qed.

(** X17: [create_indentity(n)] returns a well-formed [n] by [n] matrix
    with [1.0] at the entries [(i, i)] and [0.0] elsewhere, and the
    matrix is its own transpose. *)
Theorem create_indentity_entries n :
  0 ≤ n → n * n ≤ INT_MAX →
  ∃ id : Tensor T,
    create_indentity n = Some id
    ∧ tensor_wf id ∧ shape id = [n; n]
    ∧ (∀ i j, 0 ≤ i < n → 0 ≤ j < n →
              get_value id [i; j] = Some (if decide (i = j) then tone else tzero))
    ∧ transpose id = Some id.
Proof.
  intros Hn Hnn.
  destruct (create_indentity_spec (T:=T) n Hn Hnn) as (id & Hid & Hm).
  destruct (transpose_spec id n n _ Hm) as (tr & Htr & Htrm).
  exists id. split; [done|]. split; [by eapply is_matrix_wf|].
  split; [apply Hm|]. split.
  - intros i j Hi Hj. by rewrite (is_matrix_get _ _ _ _ _ _ Hm).
  - rewrite Htr. f_equal. apply (is_matrix_inj tr id n n _ Htrm).
    eapply is_matrix_fun_ext; [exact Hm|].
    intros i j _ _. simpl. repeat case_decide; congruence.
Qed.

(** X22: for a well-formed [n] by [n] matrix [adjugate_matrix] is the
    transpose of [cofactor_matrix]: both have shape [[n; n]], the entry
    [(r, c)] of the cofactor matrix is [cofactor(matrix, r, c)], and it
    is the entry [(c, r)] of the adjugate. *)
Theorem adjugate_entries t n :
  tensor_wf t → shape t = [n; n] →
  ∃ cof adj,
    cofactor_matrix t = Some cof ∧ adjugate_matrix t = Some adj
    ∧ shape cof = [n; n] ∧ shape adj = [n; n]
    ∧ transpose cof = Some adj
    ∧ ∀ r c, 0 ≤ r < n → 0 ≤ c < n →
        ∃ x, cofactor t r c = Some x
             ∧ get_value cof [r; c] = Some x
             ∧ get_value adj [c; r] = Some x.
Proof.
  intros Hwf Hsh. pose proof (wf_is_matrix t n n Hwf Hsh) as Hm.
  destruct (cofactor_matrix_spec t n _ Hm) as (cof & Hcof & Hcm).
  destruct (adjugate_matrix_spec t n _ Hm) as (adj & Hadj & Ham).
  exists cof, adj. split; [done|]. split; [done|].
  split; [apply Hcm|]. split; [apply Ham|]. split.
  - unfold adjugate_matrix in Hadj. by rewrite Hcof in Hadj.
  - intros r c Hr Hc. eexists.
    split; [by apply (cofactor_spec t n _ r c Hm)|].
    split; [by rewrite (is_matrix_get _ _ _ _ _ _ Hcm)|].
    by rewrite (is_matrix_get _ _ _ _ _ _ Ham).
Qed.

End MatrixProperties.

Section MatrixLaws.
Context {T : Type} `{!Scalar T} `{!ScalarRing T}.
Implicit Types (t : Tensor T).

Add Ring matrix_ring : scalar_ring.

Lemma loop_sum_ext n (f g : Z → T) :
  (∀ k, 0 ≤ k < n → f k = g k) → loop_sum n f = loop_sum n g.
Proof.
  intros Hfg. unfold loop_sum. apply foldl_ext_elem.
  intros acc k Hk. apply elem_of_seqZ in Hk. rewrite Hfg by lia. done.
Qed.

(** X18: for a well-formed [lhs] of shape [[m; n]] and [rhs] of shape
    [[n; m]], the shapes for which the loops of [matmul] stay inside
    the buffers, the result is the transpose of the conventional
    product under the ring laws: its entry [(c, r)] is the sum over [k]
    of [lhs(r, k) * rhs(k, c)]. *)
Theorem matmul_is_transposed_product (lhs rhs : Tensor T) m n :
  tensor_wf lhs → tensor_wf rhs → shape lhs = [m; n] → shape rhs = [n; m] →
  m * m ≤ INT_MAX →
  ∃ res (a b : Z → Z → T),
    matmul lhs rhs = Some res ∧ shape res = [m; m]
    ∧ (∀ r k, 0 ≤ r < m → 0 ≤ k < n → get_value lhs [r; k] = Some (a r k))
    ∧ (∀ k c, 0 ≤ k < n → 0 ≤ c < m → get_value rhs [k; c] = Some (b k c))
    ∧ (∀ r c, 0 ≤ r < m → 0 ≤ c < m →
              get_value res [c; r]
              = Some (loop_sum n (λ k, tmul (a r k) (b k c)))).
Proof.
  intros Hwl Hwr Hsl Hsr Hmm.
  pose proof (wf_is_matrix lhs m n Hwl Hsl) as Hl.
  pose proof (wf_is_matrix rhs n m Hwr Hsr) as Hr.
  destruct (matmul_square_spec lhs rhs m n _ _ Hl Hr Hmm) as (res & Hres & Hm).
  eexists res, _, _. split; [done|]. split; [apply Hm|].
  split; [intros r k Hr' Hk; by apply (is_matrix_get _ _ _ _ _ _ Hl)|].
  split; [intros k c Hk Hc; by apply (is_matrix_get _ _ _ _ _ _ Hr)|].
  intros r c Hr' Hc. rewrite (is_matrix_get _ _ _ _ _ _ Hm) by done.
  f_equal. apply loop_sum_ext. intros k Hk. simpl. ring.
Qed.

Lemma pow_minus_one_values :
  pow_minus_one 0 0 = 1 ∧ pow_minus_one 1 0 = -1 ∧ pow_minus_one 2 0 = 1
  ∧ pow_minus_one 0 1 = -1 ∧ pow_minus_one 1 1 = 1 ∧ pow_minus_one 2 1 = -1
  ∧ pow_minus_one 0 2 = 1 ∧ pow_minus_one 1 2 = -1 ∧ pow_minus_one 2 2 = 1.
Proof. repeat split. Qed.

Lemma det_spec_2 (f : Z → Z → T) :
  det_spec 2 f = tsub (tmul (f 0 0) (f 1 1)) (tmul (f 1 0) (f 0 1)).
Proof. reflexivity. Qed.

Lemma det_spec_3 (f : Z → Z → T) : det_spec 3 f = leibniz3 f.
Proof.
  cbn [det_spec]. rewrite decide_False by done.
  unfold loop_sum. change (seqZ 0 (Z.of_nat 3)) with [0; 1; 2].
  cbn [foldl]. rewrite !decide_True by done.
  destruct pow_minus_one_values as (-> & -> & -> & _).
  rewrite of_int_one, of_int_minus_one. unfold skip, leibniz3. simpl.
  change (0 + 1) with 1. change (1 + 1) with 2. ring.
Qed.

(** X20: under the ring laws the determinant of a well-formed 3 by 3
    matrix is the standard one,
    [a(ei - fh) - b(di - fg) + c(dh - eg)] for the rows [a b c],
    [d e f], [g h i], and it is also the determinant of the transpose. *)
Theorem determinant_3x3 t :
  tensor_wf t → shape t = [3; 3] →
  ∃ f : Z → Z → T,
    (∀ i j, 0 ≤ i < 3 → 0 ≤ j < 3 → get_value t [i; j] = Some (f i j))
    ∧ determinant t = Some (leibniz3 f)
    ∧ (tr ← transpose t; determinant tr) = Some (leibniz3 f).
Proof.
  intros Hwf Hsh. pose proof (wf_is_matrix t 3 3 Hwf Hsh) as Hm.
  destruct (transpose_spec t 3 3 _ Hm) as (tr & Htr & Htrm).
  eexists. split; [intros i j Hi Hj; by apply (is_matrix_get _ _ _ _ _ _ Hm)|].
  split.
  - rewrite (determinant_spec t 3 _ Hm). f_equal. apply det_spec_3.
  - rewrite Htr. step_bind. rewrite (determinant_spec tr 3 _ Htrm). f_equal.
    change (Z.to_nat 3) with 3%nat. rewrite det_spec_3.
    unfold leibniz3. ring.
Qed.

Lemma is_matrix_fmap (g : T → T) t a b f :
  is_matrix t a b f →
  is_matrix (mkTensor (shape t) (g <$> components t) (rank t)) a b
    (λ i j, g (f i j)).
Proof.
  intros [Hs Hr Ha Hb Hint Hl He]. split; cbn [shape rank components]; try done.
  - by rewrite length_fmap.
  - intros i j Hi Hj. by rewrite list_lookup_fmap, He.
Qed.

Lemma zero_matrix_2 :
  is_matrix (mkTensor [2; 2] [tzero; tzero; tzero; tzero] 2) 2 2
    (λ _ _, tzero : T).
Proof.
  split; cbn [shape rank components]; try done; try (unfold INT_MAX; lia).
  intros i j Hi Hj.
  assert (i = 0 ∨ i = 1) as [-> | ->] by lia;
    assert (j = 0 ∨ j = 1) as [-> | ->] by lia; reflexivity.
Qed.

(** X23: under the ring laws, for any well-formed 2 by 2 matrix every
    minor, the determinant of a 1 by 1 sub-matrix, is [0.0], and
    [cofactor_matrix] and [adjugate_matrix] return the zero matrix. *)
Theorem adjugate_2x2_is_zero t :
  tensor_wf t → shape t = [2; 2] →
  let zero := mkTensor [2; 2] [tzero; tzero; tzero; tzero] 2 in
  (∀ r c, 0 ≤ r < 2 → 0 ≤ c < 2 → minor t r c = Some tzero)
  ∧ cofactor_matrix t = Some zero
  ∧ adjugate_matrix t = Some zero.
Proof.
  intros Hwf Hsh zero. pose proof (wf_is_matrix t 2 2 Hwf Hsh) as Hm.
  assert (∀ g : Z → Z → T, det_spec 1 g = tzero) as Hd1.
  { intros g. cbn [det_spec]. rewrite decide_False by done.
    unfold loop_sum. change (seqZ 0 (Z.of_nat 1)) with [0]. simpl. ring. }
  split; [|split].
  - intros r c Hr Hc. rewrite (minor_spec t 2 _ r c Hm Hr Hc).
    change (Z.to_nat (2 - 1)) with 1%nat. by rewrite Hd1.
  - destruct (cofactor_matrix_spec t 2 _ Hm) as (cm & -> & Hcm). f_equal.
    apply (is_matrix_inj cm zero 2 2 (λ _ _, tzero)); [|apply zero_matrix_2].
    eapply is_matrix_fun_ext; [exact Hcm|]. intros i j _ _. cbn beta.
    change (Z.to_nat (2 - 1)) with 1%nat. rewrite Hd1. ring.
  - destruct (adjugate_matrix_spec t 2 _ Hm) as (adj & -> & Ham). f_equal.
    apply (is_matrix_inj adj zero 2 2 (λ _ _, tzero)); [|apply zero_matrix_2].
    eapply is_matrix_fun_ext; [exact Ham|]. intros i j _ _. cbn beta.
    change (Z.to_nat (2 - 1)) with 1%nat. rewrite Hd1. ring.
Qed.

(** X24: under the ring laws, for a well-formed 3 by 3 matrix [M] the
    products [matmul(M, adjugate_matrix(M))] and
    [matmul(adjugate_matrix(M), M)] are both the identity matrix scaled
    by [determinant(M)]. *)
Theorem adjugate_3x3_product t :
  tensor_wf t → shape t = [3; 3] →
  ∃ adj d scaled,
    adjugate_matrix t = Some adj ∧ determinant t = Some d
    ∧ (id ← create_indentity 3; product_scalar id d) = Some scaled
    ∧ matmul t adj = Some scaled ∧ matmul adj t = Some scaled.
Proof.
  intros Hwf Hsh. pose proof (wf_is_matrix t 3 3 Hwf Hsh) as Hm.
  set (f := λ i j, default tzero (components t !! Z.to_nat (i + j * 3))) in Hm.
  assert (3 * 3 ≤ INT_MAX) as H9 by (unfold INT_MAX; lia).
  destruct (adjugate_matrix_spec t 3 f Hm) as (adj & Hadj & Ham).
  destruct (create_indentity_spec (T:=T) 3 ltac:(lia) H9) as (id & Hid & Hidm).
  destruct (matmul_square_spec t adj 3 3 _ _ Hm Ham H9) as (p & Hp & Hpm).
  destruct (matmul_square_spec adj t 3 3 _ _ Ham Hm H9) as (q & Hq & Hqm).
  pose proof (is_matrix_fmap (λ x, tmul x (leibniz3 f)) id 3 3 _ Hidm) as Hsc.
  eexists adj, (leibniz3 f), _. split; [done|]. split.
  { rewrite (determinant_spec t 3 _ Hm). f_equal. apply det_spec_3. }
  split.
  { rewrite Hid. step_bind.
    unfold product_scalar.
    by rewrite (scalar_op_spec _ id (leibniz3 f) (is_matrix_wf _ _ _ _ Hidm)). }
  destruct pow_minus_one_values
    as (P00 & P10 & P20 & P01 & P11 & P21 & P02 & P12 & P22).
  split.
  - rewrite Hp. f_equal. apply (is_matrix_inj _ _ 3 3 _ Hpm).
    eapply is_matrix_fun_ext; [exact Hsc|]. intros r c Hr Hc.
    assert (r = 0 ∨ r = 1 ∨ r = 2) as [-> | [-> | ->]] by lia;
      assert (c = 0 ∨ c = 1 ∨ c = 2) as [-> | [-> | ->]] by lia;
      unfold loop_sum; change (seqZ 0 3) with [0; 1; 2]; cbn [foldl];
      change (Z.to_nat (3 - 1)) with 2%nat; rewrite !det_spec_2;
      rewrite ?P00, ?P10, ?P20, ?P01, ?P11, ?P21, ?P02, ?P12, ?P22;
      rewrite ?of_int_one, ?of_int_minus_one; unfold skip, leibniz3; simpl;
      change (0 + 1) with 1; change (1 + 1) with 2; ring.
  - rewrite Hq. f_equal. apply (is_matrix_inj _ _ 3 3 _ Hqm).
    eapply is_matrix_fun_ext; [exact Hsc|]. intros r c Hr Hc.
    assert (r = 0 ∨ r = 1 ∨ r = 2) as [-> | [-> | ->]] by lia;
      assert (c = 0 ∨ c = 1 ∨ c = 2) as [-> | [-> | ->]] by lia;
      unfold loop_sum; change (seqZ 0 3) with [0; 1; 2]; cbn [foldl];
      change (Z.to_nat (3 - 1)) with 2%nat; rewrite !det_spec_2;
      rewrite ?P00, ?P10, ?P20, ?P01, ?P11, ?P21, ?P02, ?P12, ?P22;
      rewrite ?of_int_one, ?of_int_minus_one; unfold skip, leibniz3; simpl;
      change (0 + 1) with 1; change (1 + 1) with 2; ring.
Qed.

End MatrixLaws.

(** ** matrix.h: [transform] *)

Section Transform.
Context {T : Type} `{!Scalar T}.
Implicit Types (vec matrix : Tensor T).

Lemma set_value_vector (cs : list T) n c (v : T) :
  0 ≤ c ≤ INT_MAX →
  set_value (mkTensor [n] cs 1) v [c]
  = cs' ← write_at cs c v; Some (mkTensor [n] cs' 1).
Proof.
  intros Hc. unfold set_value, flat_index, stride_loop. simpl.
  rewrite int_wrap_small by (unfold INT_MAX in *; lia). done.
Qed.

(** A loop of stores into the buffer of a tensor, as a loop on the
    buffer. *)
Lemma for_each_components (val : Z → T)
    (body : Tensor T → Z → option (Tensor T)) sh rk (l : list Z) :
  (∀ cs i, i ∈ l →
     body (mkTensor sh cs rk) i
     = cs' ← write_at cs i (val i); Some (mkTensor sh cs' rk)) →
  ∀ cs,
    for_each body l (mkTensor sh cs rk)
    = cs' ← for_each (λ d i, write_at d i (val i)) l cs;
      Some (mkTensor sh cs' rk).
Proof.
  induction l as [|i l IH]; intros Hbody cs; [done|].
  simpl. rewrite Hbody by left.
  destruct (write_at cs i (val i)) as [cs'|]; [|done]. step_bind.
  apply IH. intros cs'' j Hj. apply Hbody. by right.
Qed.

(** Stores of [val i] at the offsets [i < k] of a buffer. *)
Lemma store_prefix (val : Z → T) (dst : list T) (k : nat) :
  (k ≤ length dst)%nat →
  for_each (λ d i, write_at d i (val i)) (seqZ 0 (Z.of_nat k)) dst
  = Some ((val <$> seqZ 0 (Z.of_nat k)) ++ drop k dst).
Proof.
  induction k as [|k IH]; intros Hk; [by rewrite drop_0|].
  rewrite seqZ_S, for_each_snoc, IH by lia. step_bind.
  destruct (lookup_lt_is_Some_2 dst k) as [x Hx]; [lia|].
  rewrite (drop_S _ _ _ Hx).
  rewrite write_at_in_bounds
    by (rewrite length_app, length_fmap, length_seqZ; simpl; lia).
  rewrite Z.add_0_l, Nat2Z.id, fmap_app, <- app_assoc. f_equal.
  replace k with (length (val <$> seqZ 0 (Z.of_nat k)) + 0)%nat at 1
    by (rewrite length_fmap, length_seqZ; lia).
  by rewrite insert_app_r.
Qed.

Lemma fill_vector (val : Z → T) (body : Tensor T → Z → option (Tensor T)) n :
  0 ≤ n ≤ INT_MAX →
  (∀ rv c, 0 ≤ c < n → body rv c = set_value rv (val c) [c]) →
  for_each body (seqZ 0 n) (mkTensor [n] (replicate (Z.to_nat n) tzero) 1)
  = Some (mkTensor [n] (val <$> seqZ 0 n) 1).
Proof.
  intros Hn Hbody.
  rewrite (for_each_components val body [n] 1%nat).
  - pose proof (store_prefix val (replicate (Z.to_nat n) tzero) (Z.to_nat n))
      as Hst.
    rewrite length_replicate, Z2Nat.id in Hst by lia.
    rewrite Hst by lia. step_bind.
    by rewrite drop_ge, app_nil_r by (rewrite length_replicate; lia).
  - intros cs i Hi. apply elem_of_seqZ in Hi.
    rewrite Hbody by lia. apply set_value_vector. lia.
Qed.

Lemma fmap_seqZ_ext (g g' : Z → T) n :
  (∀ i, 0 ≤ i < n → g i = g' i) → g <$> seqZ 0 n = g' <$> seqZ 0 n.
Proof.
  intros Hg. apply list_fmap_ext. intros k i Hi.
  apply lookup_seqZ in Hi. apply Hg. lia.
Qed.

(** What [transform] computes when the rows and the columns of the
    matrix are at most as many as the components of the vector. *)
Lemma transform_spec vec matrix m n l (a : Z → Z → T) :
  tensor_wf vec → shape vec = [l] → is_matrix matrix m n a →
  m ≤ l → n ≤ l →
  transform vec matrix
  = Some (mkTensor [l]
            (((λ r, loop_sum n
                      (λ c, tmul (a r c)
                              (default tzero (components vec !! Z.to_nat c))))
                <$> seqZ 0 m)
             ++ replicate (Z.to_nat (l - m)) tzero) 1).
Proof.
  intros Hwf Hs Hm Hml Hnl.
  destruct (vector_wf vec l Hwf Hs) as [Hl Hlen].
  pose proof (im_rows _ _ _ _ Hm) as Hm0. pose proof (im_cols _ _ _ _ Hm) as Hn0.
  unfold transform. rewrite Hs. cbn [lookup list_lookup]. step_bind.
  rewrite (create_vector_spec l Hl). step_bind.
  rewrite (is_matrix_shape0 _ _ _ _ Hm). step_bind.
  set (val := λ r, loop_sum n
                     (λ c, tmul (a r c)
                             (default tzero (components vec !! Z.to_nat c)))).
  rewrite (for_each_components val _ [l] 1%nat).
  - pose proof (store_prefix val (replicate (Z.to_nat l) tzero) (Z.to_nat m))
      as Hst.
    rewrite Z2Nat.id in Hst by lia.
    rewrite Hst by (rewrite length_replicate; lia). step_bind.
    do 3 f_equal. rewrite drop_replicate. f_equal. lia.
  - intros cs r Hr. apply elem_of_seqZ in Hr.
    rewrite (is_matrix_shape1 _ _ _ _ Hm). step_bind.
    rewrite (create_vector_spec n) by lia. step_bind.
    rewrite (fill_vector (a r)); [|lia|].
    + step_bind.
      assert (tensor_wf (mkTensor [n] (a r <$> seqZ 0 n) 1)) as Hrow.
      { split; cbn [shape rank components]; try done.
        - repeat constructor; lia.
        - rewrite length_fmap, length_seqZ. unfold Zprod. simpl. lia.
        - unfold Zprod. simpl. lia. }
      rewrite (dot_spec _ _ Hrow)
        by (cbn [components]; rewrite length_fmap, length_seqZ; lia).
      step_bind. cbn [components shape rank].
      rewrite length_fmap, length_seqZ, Z2Nat.id by lia.
      replace (loop_sum n _) with (val r); [done|].
      apply foldl_ext_elem. intros acc c Hc. apply elem_of_seqZ in Hc.
      rewrite list_lookup_fmap, lookup_seqZ_lt by lia. simpl.
      rewrite Z.add_0_l, Z2Nat.id by lia. done.
    + intros rv c Hc. by rewrite (is_matrix_get _ _ _ _ _ _ Hm) by lia.
Qed.

(** X25: for a well-formed vector of [l] components and a well-formed
    [m] by [n] matrix with [m ≤ l] and [n ≤ l], [transform] returns a
    vector of [l] components, the length of its operand: component
    [r < m] is the sum over [c < n] of [matrix(r, c) * vec[c]], and the
    components from [m] on are [0.0]. *)
Theorem transform_rows vec matrix m n l :
  tensor_wf vec → shape vec = [l] → tensor_wf matrix → shape matrix = [m; n] →
  m ≤ l → n ≤ l →
  ∃ (a : Z → Z → T) (x : Z → T),
    (∀ r c, 0 ≤ r < m → 0 ≤ c < n → get_value matrix [r; c] = Some (a r c))
    ∧ (∀ c, 0 ≤ c < l → get_value vec [c] = Some (x c))
    ∧ transform vec matrix
      = Some (mkTensor [l]
                (((λ r, loop_sum n (λ c, tmul (a r c) (x c))) <$> seqZ 0 m)
                 ++ replicate (Z.to_nat (l - m)) tzero) 1).
Proof.
  intros Hwf Hs Hwm Hsm Hml Hnl.
  pose proof (wf_is_matrix matrix m n Hwm Hsm) as Hm.
  destruct (vector_wf vec l Hwf Hs) as [Hl Hlen].
  eexists _, (λ c, default tzero (components vec !! Z.to_nat c)).
  split; [intros r c Hr Hc; by apply (is_matrix_get _ _ _ _ _ _ Hm)|].
  split; [|by apply transform_spec].
  intros c Hc.
  destruct (accessors_at_offset vec [c] tzero Hwf) as (_ & -> & _).
  { rewrite Hs. apply Forall2_cons; split; [done|apply Forall2_nil_2]. }
  rewrite Hs. unfold offset_formula, axis_stride, Zsum, Zprod. simpl.
  replace (c * 1 + 0) with c by lia.
  destruct (lookup_lt_is_Some_2 (components vec) (Z.to_nat c)) as [y Hy];
    [lia|]. by rewrite Hy.
Qed.

End Transform.

Section TransformLaws.
Context {T : Type} `{!Scalar T} `{!ScalarRing T}.

Add Ring transform_ring : scalar_ring.

(** X26: under the ring laws [transform] by the identity matrix of
    size [l] returns a well-formed vector of [l] components as it is. *)
Theorem transform_identity (vec : Tensor T) l :
  tensor_wf vec → shape vec = [l] → l * l ≤ INT_MAX →
  (id ← create_indentity l; transform vec id) = Some vec.
Proof.
  intros Hwf Hs Hll. destruct (vector_wf vec l Hwf Hs) as [Hl Hlen].
  destruct (create_indentity_spec (T:=T) l ltac:(lia) Hll) as (id & -> & Hm).
  step_bind. rewrite (transform_spec vec id l l l _ Hwf Hs Hm) by lia.
  rewrite Z.sub_diag, app_nil_r.
  rewrite (fmap_seqZ_ext _ (λ i, default tzero (components vec !! Z.to_nat i))).
  - rewrite <- Hlen, fmap_lookup_seqZ. destruct vec as [sh cs rk].
    pose proof (wf_rank _ Hwf) as Hr. simpl in *. subst. done.
  - intros r Hr. rewrite (loop_sum_single l _ r Hr).
    + rewrite decide_True by done. ring.
    + intros k Hk Hne. rewrite decide_False by done. ring.
Qed.

End TransformLaws.

(** ** tensor.h on the heap: copies, [dot] and [destroy_tensor] *)

Section HeapMore.
Context {T : Type} `{!Scalar T}.
Implicit Types (h : gmap Mem.loc (Mem.block T)) (t l r : Tensor T).

(** What [create_copy] leaves behind. *)
Lemma create_copy_run h ref t :
  Mem.represents h ref t → tensor_wf t →
  let p := fresh (dom h) in
  let h1 := <[p := Mem.IntBlock (shape t)]> h in
  let q := fresh (dom h1) in
  Mem.create_copy ref h
  = Some (Mem.mkRef p q (rank t),
          <[q := Mem.ScalarBlock (components t)]> h1).
Proof.
  intros (Hsh & Hcs & Hrk) Hwf p h1 q.
  unfold Mem.create_copy, Mem.malloc_int. fold p.
  rewrite Hrk, <- (wf_rank _ Hwf), Nat2Z.id.
  rewrite (copy_shape_run h ref p (shape t) Hsh)
    by (rewrite ?Hrk, ?(wf_rank _ Hwf);
        first [done | by apply fresh_not_allocated with (Mem.IntBlock (shape t))]).
  step_bind. fold h1. unfold Mem.malloc_scalar. fold q.
  rewrite buffer_length_wf by apply Hwf.
  rewrite <- (wf_len _ Hwf), Nat2Z.id.
  pose proof (heap_store_loop q h1
                (λ i, default tzero (components t !! Z.to_nat i))
                (λ h' i, v ← Mem.load_scalar h' (Mem.components_ptr ref) i;
                         Mem.store_scalar h' q i v)
                (replicate (length (components t)) tzero)) as Hloop.
  rewrite length_replicate in Hloop. rewrite Hloop.
  - step_bind. by rewrite fmap_lookup_seqZ.
  - intros cells i Hi.
    assert (<[q := Mem.ScalarBlock cells]> h1 !! Mem.components_ptr ref
            = Some (Mem.ScalarBlock (components t))) as Hframe.
    { pose proof (elem_of_dom_2 _ _ _ Hcs) as Hd.
      unfold h1. rewrite !lookup_insert_ne; [done| |].
      - intros Heq. apply (is_fresh (dom h)). fold p. by rewrite Heq.
      - intros Heq. apply (is_fresh (dom h1)). fold q.
        rewrite Heq. unfold h1. rewrite dom_insert_L.
        apply elem_of_union. by right. }
    rewrite (load_scalar_block _ _ _ _ Hframe), read_at_nonneg by lia.
    destruct (lookup_lt_is_Some_2 (components t) (Z.to_nat i)) as [x Hx];
      [lia|]. rewrite Hx. step_bind. apply store_scalar_block.
Qed.

(** X27: [create_copy] is a deep copy.  Started on a well-formed
    tensor it returns a tensor in two blocks that were not allocated
    before, which hold the shape and the components of the source;
    every block allocated before, the two of the source among them, is
    as it was. *)
Theorem create_copy_is_deep h ref t :
  Mem.represents h ref t → tensor_wf t →
  create_copy t = Some t
  ∧ Mem.returns_new_tensor h ref t ref t (Mem.create_copy ref h) t.
Proof.
  intros Hrep Hwf. split; [by apply create_copy_same|].
  apply arithmetic_frame; try done.
  apply (create_copy_run h ref t Hrep Hwf).
Qed.

Lemma fresh_blocks h (b : Mem.block T) :
  let p := fresh (dom h) in
  let q := fresh (dom (<[p := b]> h)) in
  h !! p = None ∧ h !! q = None ∧ q ≠ p.
Proof.
  intros p q.
  assert (p ∉ dom h) as Hp by apply is_fresh.
  assert (q ∉ dom (<[p := b]> h)) as Hq by apply is_fresh.
  rewrite dom_insert_L in Hq.
  split; [by apply not_elem_of_dom|].
  split; [apply not_elem_of_dom; set_solver|]. set_solver.
Qed.

(** X28: [destroy_tensor] frees the two blocks of a tensor, and
    nothing else: a copy made by [create_copy] and then destroyed
    leaves the heap as it was before the copy. *)
Theorem destroy_copy_restores h ref t :
  Mem.represents h ref t → tensor_wf t →
  ∃ copy h',
    Mem.create_copy ref h = Some (copy, h')
    ∧ h' !! Mem.shape_ptr copy = Some (Mem.IntBlock (shape t))
    ∧ h' !! Mem.components_ptr copy = Some (Mem.ScalarBlock (components t))
    ∧ Mem.destroy_tensor copy h' = Some h.
Proof.
  intros Hrep Hwf. pose proof (create_copy_run h ref t Hrep Hwf) as Hrun.
  destruct (fresh_blocks h (Mem.IntBlock (shape t))) as (Hp & Hq & Hqp).
  simpl in Hrun.
  set (p := fresh (dom h)) in *.
  set (q := fresh (dom (<[p := Mem.IntBlock (shape t)]> h))) in *.
  eexists _, _. split; [exact Hrun|]. cbn [Mem.shape_ptr Mem.components_ptr].
  split; [by rewrite lookup_insert_ne, lookup_insert_eq|].
  split; [by rewrite lookup_insert_eq|].
  unfold Mem.destroy_tensor, Mem.free. cbn [Mem.shape_ptr Mem.components_ptr].
  rewrite lookup_insert_ne, lookup_insert_eq by done. step_bind.
  rewrite lookup_delete_ne, lookup_insert_eq by done. f_equal.
  rewrite (delete_insert_ne _ p q) by done.
  rewrite (delete_insert_id h p) by done.
  by apply delete_insert_id.
Qed.

(** X29: [dot] allocates an array for a copy of the shape of [lhs]
    and returns without freeing it.  After a call on a well-formed
    [lhs] and an [rhs] with at least as many components the heap has
    exactly one block more, which holds that copy and which the result,
    a scalar, does not refer to; every other block is as it was, and
    the scalar is the one [dot] returns on tensor values. *)
Theorem dot_leaves_shape_copy h lhs l rhs r :
  Mem.represents h lhs l → Mem.represents h rhs r → tensor_wf l →
  (length (components l) ≤ length (components r))%nat →
  ∃ d p,
    dot l r = Some d
    ∧ h !! p = None
    ∧ Mem.dot lhs rhs h = Some (d, <[p := Mem.IntBlock (shape l)]> h).
Proof.
  intros (Hsh & Hcs & Hrk) (_ & Hrcs & _) Hwf Hlen.
  exists (loop_sum (Z.of_nat (length (components l)))
            (λ i, tmul (default tzero (components l !! Z.to_nat i))
                    (default tzero (components r !! Z.to_nat i)))),
    (fresh (dom h)).
  split; [by apply dot_spec|].
  assert (fresh (dom h) ∉ dom h) as Hp by apply is_fresh.
  split; [by apply not_elem_of_dom|].
  unfold Mem.dot, Mem.malloc_int.
  set (p := fresh (dom h)) in *.
  rewrite Hrk, <- (wf_rank _ Hwf), Nat2Z.id.
  rewrite (copy_shape_run h lhs p (shape l) Hsh)
    by (rewrite ?Hrk, ?(wf_rank _ Hwf);
        first [done | by apply fresh_not_allocated with (Mem.IntBlock (shape l))]).
  step_bind. rewrite buffer_length_wf by apply Hwf.
  rewrite <- (wf_len _ Hwf).
  erewrite for_each_pure; [reflexivity|].
  intros acc i Hi. apply elem_of_seqZ in Hi.
  assert (∀ x b, h !! x = Some b →
                 <[p := Mem.IntBlock (shape l)]> h !! x = Some b) as Hframe.
  { intros x b Hx. rewrite lookup_insert_ne; [done|].
    intros <-. apply Hp. by apply elem_of_dom_2 with b. }
  rewrite (load_scalar_block _ _ _ _ (Hframe _ _ Hcs)),
    (load_scalar_block _ _ _ _ (Hframe _ _ Hrcs)), !read_at_nonneg by lia.
  destruct (lookup_lt_is_Some_2 (components l) (Z.to_nat i)) as [x Hx]; [lia|].
  destruct (lookup_lt_is_Some_2 (components r) (Z.to_nat i)) as [y Hy]; [lia|].
  by rewrite Hx, Hy.
Qed.

(** X30: [create_tensor_byptr] keeps the caller's shape array.  Two
    tensors made from one array share it as their shape and have
    separate component buffers; [destroy_tensor] on the first frees the
    shared array, so that the second is left with a shape pointer to no
    block, and [destroy_tensor] on the second has no block to free. *)
Theorem create_tensor_byptr_shares_shape h p (sh : list Z) :
  h !! p = Some (Mem.IntBlock sh) →
  ∃ ref1 h1 ref2 h2 h3,
    Mem.create_tensor_byptr (length sh) p h = Some (ref1, h1)
    ∧ Mem.create_tensor_byptr (length sh) p h1 = Some (ref2, h2)
    ∧ Mem.shape_ptr ref1 = p ∧ Mem.shape_ptr ref2 = p
    ∧ Mem.components_ptr ref1 ≠ Mem.components_ptr ref2
    ∧ Mem.destroy_tensor ref1 h2 = Some h3
    ∧ h3 !! Mem.shape_ptr ref2 = None
    ∧ Mem.destroy_tensor ref2 h3 = None.
Proof.
  intros Hp.
  pose proof (create_tensor_byptr_run h p sh Hp) as H1.
  set (q1 := fresh (dom h)) in *.
  set (h1 := <[q1 := Mem.ScalarBlock
                       (replicate (Z.to_nat (buffer_length sh)) tzero)]> h) in *.
  assert (q1 ≠ p) as Hq1 by (by apply fresh_not_allocated with (Mem.IntBlock sh)).
  assert (h1 !! p = Some (Mem.IntBlock sh)) as Hp1
    by (unfold h1; by rewrite lookup_insert_ne).
  pose proof (create_tensor_byptr_run h1 p sh Hp1) as H2.
  set (q2 := fresh (dom h1)) in *.
  set (h2 := <[q2 := Mem.ScalarBlock
                       (replicate (Z.to_nat (buffer_length sh)) tzero)]> h1) in *.
  assert (q2 ≠ p) as Hq2 by (by apply fresh_not_allocated with (Mem.IntBlock sh)).
  assert (q2 ≠ q1) as Hq21.
  { apply fresh_not_allocated with
      (Mem.ScalarBlock (replicate (Z.to_nat (buffer_length sh)) tzero)).
    unfold h1. by rewrite lookup_insert_eq. }
  exists (Mem.mkRef p q1 (length sh)), h1, (Mem.mkRef p q2 (length sh)), h2,
    (delete q1 (delete p h2)).
  split; [done|]. split; [done|]. cbn [Mem.shape_ptr Mem.components_ptr].
  split; [done|]. split; [done|]. split; [done|].
  assert (h2 !! p = Some (Mem.IntBlock sh)) as Hp2
    by (unfold h2; by rewrite lookup_insert_ne).
  split; [|split].
  - unfold Mem.destroy_tensor, Mem.free. cbn [Mem.shape_ptr Mem.components_ptr].
    rewrite Hp2. step_bind.
    rewrite lookup_delete_ne by done. unfold h2.
    rewrite lookup_insert_ne by done. unfold h1.
    by rewrite lookup_insert_eq.
  - rewrite lookup_delete_ne by done. apply lookup_delete_eq.
  - unfold Mem.destroy_tensor, Mem.free. cbn [Mem.shape_ptr Mem.components_ptr].
    rewrite lookup_delete_ne by done. by rewrite lookup_delete_eq.
Qed.

End HeapMore.

(** ** The further properties at concrete inputs *)

Ltac wf_by_evaluation :=
  apply small_tensor_wf;
  [reflexivity | reflexivity | reflexivity | unfold INT_MAX, Zprod; simpl; lia].

(** A 2 by 3 tensor of zeros, made with one argument too many. *)
Lemma create_tensor_zeros_witness :
  Forall (λ s, 0 ≤ s ≤ INT_MAX) [2; 3] ∧ Zprod [2; 3] ≤ INT_MAX
  ∧ ∃ t : Tensor Z,
      create_tensor 2 [2; 3; 7] = Some t
      ∧ shape t = [2; 3] ∧ rank t = 2%nat ∧ tensor_wf t
      ∧ Z.of_nat (length (components t)) = 6
      ∧ ∀ idx, in_range [2; 3] idx → get_value t idx = Some 0.
Proof.
  assert (Hd : Forall (λ s, 0 ≤ s ≤ INT_MAX) [2; 3])
    by (repeat constructor; unfold INT_MAX; lia).
  assert (Hp : Zprod [2; 3] ≤ INT_MAX)
    by (unfold INT_MAX, Zprod; simpl; lia).
  split; [exact Hd|]. split; [exact Hp|].
  exact (create_tensor_zeros (T:=Z) [2; 3] [7] Hd Hp).
Defined.

(** A store at [(1, 2)] of a 2 by 3 tensor, read at [(1, 2)] and
    [(0, 1)]. *)
Lemma get_value_after_set_witness :
  let t := mkTensor [2; 3] [1; 2; 3; 4; 5; 6] 2 in
  tensor_wf t ∧ in_range (shape t) [1; 2] ∧ in_range (shape t) [0; 1]
  ∧ ∃ t', set_value t 9 [1; 2] = Some t'
          ∧ tensor_wf t' ∧ shape t' = shape t ∧ rank t' = rank t
          ∧ get_value t' [1; 2] = Some 9
          ∧ ([0; 1] ≠ [1; 2] → get_value t' [0; 1] = get_value t [0; 1]).
Proof.
  intros t.
  assert (Hwf : tensor_wf t) by wf_by_evaluation.
  assert (H1 : in_range (shape t) [1; 2]) by (repeat constructor; lia).
  assert (H2 : in_range (shape t) [0; 1]) by (repeat constructor; lia).
  split; [exact Hwf|]. split; [exact H1|]. split; [exact H2|].
  exact (get_value_after_set t [1; 2] [0; 1] 9 Hwf H1 H2).
Defined.

(** The length of a 2 by 3 tensor. *)
Lemma get_length_components_witness :
  let t := mkTensor [2; 3] [1; 2; 3; 4; 5; 6] 2 in
  tensor_wf t
  ∧ get_length t = Some 6 ∧ 6 = Z.of_nat (length (components t)).
Proof.
  intros t. assert (Hwf : tensor_wf t) by wf_by_evaluation.
  split; [exact Hwf|]. exact (get_length_components t Hwf).
Defined.

(** The index [(3, 0)] of a 2 by 3 tensor is its element [(1, 1)]. *)
Lemma accessors_alias_next_column_witness :
  let t := mkTensor [2; 3] [1; 2; 3; 4; 5; 6] 2 in
  tensor_wf t ∧ shape t = [2; 3]
  ∧ ¬ in_range (shape t) [3; 0]
  ∧ get_value t [3; 0] = get_value t [1; 1]
  ∧ set_value t 9 [3; 0] = set_value t 9 [1; 1]
  ∧ ∃ x, get_value t [3; 0] = Some x.
Proof.
  intros t. assert (Hwf : tensor_wf t) by wf_by_evaluation.
  split; [exact Hwf|]. split; [reflexivity|].
  assert (Hi : 0 ≤ 1 < 2) by lia. assert (Hj : 0 ≤ 0) by lia.
  assert (Hj1 : 0 + 1 < 3) by lia.
  exact (accessors_alias_next_column t 2 3 1 0 9 Hwf eq_refl Hi Hj Hj1).
Defined.

(** The arithmetic family on the vectors [(1, 2)] and [(3, 4)] and the
    scalar 7. *)
Lemma arithmetic_family_elementwise_witness :
  let lhs := mkTensor [2] [1; 2] 1 in
  let rhs := mkTensor [2] [3; 4] 1 in
  tensor_wf lhs ∧ length (components rhs) = length (components lhs)
  ∧ sum lhs rhs = Some (mkTensor [2] [4; 6] 1)
  ∧ subtract lhs rhs = Some (mkTensor [2] [-2; -2] 1)
  ∧ divide lhs rhs = Some (mkTensor [2] [0; 0] 1)
  ∧ hadamard lhs rhs = Some (mkTensor [2] [3; 8] 1)
  ∧ sum_scalar lhs 7 = Some (mkTensor [2] [8; 9] 1)
  ∧ subtract_scalar lhs 7 = Some (mkTensor [2] [-6; -5] 1)
  ∧ divide_scalar lhs 7 = Some (mkTensor [2] [0; 0] 1)
  ∧ product_scalar lhs 7 = Some (mkTensor [2] [7; 14] 1).
Proof.
  intros lhs rhs. assert (Hwf : tensor_wf lhs) by wf_by_evaluation.
  split; [exact Hwf|]. split; [reflexivity|].
  exact (arithmetic_family_elementwise lhs rhs 7 Hwf eq_refl).
Defined.

(** The dot product of a 2 by 2 matrix with a vector of five components. *)
Lemma dot_flat_sum_witness :
  let lhs := mkTensor [2; 2] [1; 2; 3; 4] 2 in
  let rhs := mkTensor [5] [5; 6; 7; 8; 9] 1 in
  tensor_wf lhs ∧ (length (components lhs) ≤ length (components rhs))%nat
  ∧ dot lhs rhs = Some (0 + 1 * 5 + 2 * 6 + 3 * 7 + 4 * 8)
  ∧ ∀ sh rk, dot lhs (mkTensor sh [5; 6; 7; 8] rk) = dot lhs rhs.
Proof.
  intros lhs rhs. assert (Hwf : tensor_wf lhs) by wf_by_evaluation.
  assert (Hlen : (length (components lhs) ≤ length (components rhs))%nat)
    by (simpl; lia).
  split; [exact Hwf|]. split; [exact Hlen|].
  exact (dot_flat_sum lhs rhs Hwf Hlen).
Defined.

(** [sum] and [hadamard] of [(1, 2)] and [(3, 4)] in both orders. *)
Lemma sum_hadamard_commute_witness :
  let a := mkTensor [2] [1; 2] 1 in
  let b := mkTensor [2] [3; 4] 1 in
  tensor_wf a ∧ tensor_wf b ∧ shape a = shape b ∧ rank a = rank b
  ∧ (∃ r, sum a b = Some r ∧ sum b a = Some r)
  ∧ (∃ r, hadamard a b = Some r ∧ hadamard b a = Some r).
Proof.
  intros a b. assert (Ha : tensor_wf a) by wf_by_evaluation.
  assert (Hb : tensor_wf b) by wf_by_evaluation.
  split; [exact Ha|]. split; [exact Hb|]. split; [reflexivity|].
  split; [reflexivity|].
  exact (sum_hadamard_commute a b Ha Hb eq_refl eq_refl).
Defined.

(** The scalar 7 added to and subtracted from [(1, 2)]. *)
Lemma scalar_family_round_trip_witness :
  let t := mkTensor [2] [1; 2] 1 in
  tensor_wf t
  ∧ (u ← sum_scalar t 7; subtract_scalar u 7) = Some t
  ∧ (u ← subtract_scalar t 7; sum_scalar u 7) = Some t
  ∧ sum_scalar t 0 = Some t
  ∧ product_scalar t 1 = Some t.
Proof.
  intros t. assert (Hwf : tensor_wf t) by wf_by_evaluation.
  split; [exact Hwf|]. exact (scalar_family_round_trip t 7 Hwf).
Defined.

(** [dot] on the vectors [(1, 2)], [(3, 4)] and [(5, 6)]. *)
Lemma dot_symmetric_additive_witness :
  let a := mkTensor [2] [1; 2] 1 in
  let b := mkTensor [2] [3; 4] 1 in
  let c := mkTensor [2] [5; 6] 1 in
  tensor_wf a ∧ tensor_wf b
  ∧ (∃ x, dot a b = Some x ∧ dot b a = Some x)
  ∧ (∃ x y, dot a c = Some x ∧ dot b c = Some y
            ∧ (s ← sum a b; dot s c) = Some (x + y)).
Proof.
  intros a b c. assert (Ha : tensor_wf a) by wf_by_evaluation.
  assert (Hb : tensor_wf b) by wf_by_evaluation.
  split; [exact Ha|]. split; [exact Hb|].
  exact (dot_symmetric_additive a b c Ha Hb eq_refl eq_refl).
Defined.

(** The cross product of [(1, 2, 3)] and [(4, 5, 6)] against its
    operands. *)
Lemma cross_orthogonal_witness :
  let u := mkTensor [3] [1; 2; 3] 1 in
  let v := mkTensor [3] [4; 5; 6] 1 in
  (∃ w, cross u v = Some w ∧ dot w u = Some 0 ∧ dot w v = Some 0)
  ∧ cross u u = Some (mkTensor [3] [0; 0; 0] 1).
Proof.
  exact (cross_orthogonal (mkTensor [3] [1; 2; 3] 1) (mkTensor [3] [4; 5; 6] 1)
           1 2 3 4 5 6 eq_refl eq_refl eq_refl).
Defined.

(** [cross] on a first operand of shape [[4]]. *)
Lemma cross_result_length_witness :
  let u := mkTensor [4] [1; 2; 3; 9] 1 in
  let v := mkTensor [3] [4; 5; 6] 1 in
  0 ≤ 4 ≤ INT_MAX
  ∧ cross u v = Some (mkTensor [4] [-3; 6; -3; 0] 1).
Proof.
  intros u v.
  assert (Hn : 0 ≤ 4 ≤ INT_MAX) by (unfold INT_MAX; lia).
  split; [exact Hn|].
  destruct (cross_result_length u v 4 1 2 3 4 5 6 [9] [] eq_refl Hn
              eq_refl eq_refl) as [Hlong _].
  apply Hlong. lia.
Defined.


(** The norm of [(3, 4)] in binary64. *)
Lemma norm_sqrt_dot_witness :
  let vec := mkTensor [2] [3; 4]%float 1 in
  tensor_wf vec ∧ ∃ d, dot vec vec = Some d ∧ norm vec = Some (tsqrt d).
Proof.
  intros vec. assert (Hwf : tensor_wf vec) by wf_by_evaluation.
  split; [exact Hwf|]. exact (norm_sqrt_dot vec 2 Hwf eq_refl).
Defined.

(** [(3, 4)] normalized in binary64. *)
Lemma normalize_divides_by_norm_witness :
  let vec := mkTensor [2] [3; 4]%float 1 in
  tensor_wf vec
  ∧ ∃ m, norm vec = Some m
         ∧ normalize vec = divide_scalar vec m
         ∧ normalize vec
           = Some (mkTensor [2] ((λ x, tdiv x m) <$> components vec) 1).
Proof.
  intros vec. assert (Hwf : tensor_wf vec) by wf_by_evaluation.
  split; [exact Hwf|]. exact (normalize_divides_by_norm vec 2 Hwf eq_refl).
Defined.

(** The zero vector of length 3 normalized. *)
Lemma normalize_zero_vector_witness :
  0 ≤ 3 ≤ INT_MAX
  ∧ (vec ← create_vector 3; norm vec) = Some 0%float
  ∧ (vec ← create_vector 3; normalize vec)
    = Some (mkTensor [3] [nan; nan; nan] 1).
Proof.
  assert (Hn : 0 ≤ 3 ≤ INT_MAX) by (unfold INT_MAX; lia).
  split; [exact Hn|]. exact (normalize_zero_vector 3 Hn).
Defined.

(** A 2 by 3 matrix transposed twice. *)
Lemma transpose_involution_witness :
  let t := mkTensor [2; 3] [1; 2; 3; 4; 5; 6] 2 in
  tensor_wf t
  ∧ ∃ tr, transpose t = Some tr
          ∧ tensor_wf tr ∧ shape tr = [3; 2]
          ∧ (∀ i j, 0 ≤ i < 2 → 0 ≤ j < 3 →
                    get_value tr [j; i] = get_value t [i; j])
          ∧ transpose tr = Some t.
Proof.
  intros t. assert (Hwf : tensor_wf t) by wf_by_evaluation.
  split; [exact Hwf|]. exact (transpose_involution t 2 3 Hwf eq_refl).
Defined.

(** The identity matrix of size 2. *)
Lemma create_indentity_entries_witness :
  0 ≤ 2 ∧ 2 * 2 ≤ INT_MAX
  ∧ ∃ id : Tensor Z,
      create_indentity 2 = Some id
      ∧ tensor_wf id ∧ shape id = [2; 2]
      ∧ (∀ i j, 0 ≤ i < 2 → 0 ≤ j < 2 →
                get_value id [i; j] = Some (if decide (i = j) then 1 else 0))
      ∧ transpose id = Some id.
Proof.
  assert (H0 : 0 ≤ 2) by lia.
  assert (H4 : 2 * 2 ≤ INT_MAX) by (unfold INT_MAX; lia).
  split; [exact H0|]. split; [exact H4|].
  exact (create_indentity_entries (T:=Z) 2 H0 H4).
Defined.

(** A 2 by 3 matrix times a 3 by 2 matrix. *)
Lemma matmul_is_transposed_product_witness :
  let lhs := mkTensor [2; 3] [1; 2; 3; 4; 5; 6] 2 in
  let rhs := mkTensor [3; 2] [1; 0; 2; 0; 1; 3] 2 in
  tensor_wf lhs ∧ tensor_wf rhs ∧ 2 * 2 ≤ INT_MAX
  ∧ ∃ res (a b : Z → Z → Z),
      matmul lhs rhs = Some res ∧ shape res = [2; 2]
      ∧ (∀ r k, 0 ≤ r < 2 → 0 ≤ k < 3 → get_value lhs [r; k] = Some (a r k))
      ∧ (∀ k c, 0 ≤ k < 3 → 0 ≤ c < 2 → get_value rhs [k; c] = Some (b k c))
      ∧ (∀ r c, 0 ≤ r < 2 → 0 ≤ c < 2 →
                get_value res [c; r]
                = Some (loop_sum 3 (λ k, a r k * b k c))).
Proof.
  intros lhs rhs. assert (Hl : tensor_wf lhs) by wf_by_evaluation.
  assert (Hr : tensor_wf rhs) by wf_by_evaluation.
  assert (H4 : 2 * 2 ≤ INT_MAX) by (unfold INT_MAX; lia).
  split; [exact Hl|]. split; [exact Hr|]. split; [exact H4|].
  exact (matmul_is_transposed_product lhs rhs 2 3 Hl Hr eq_refl eq_refl H4).
Defined.

(** A 2 by 2 matrix of binary64 components and the identity. *)
Lemma matmul_identity_double_witness :
  let t := mkTensor [2; 2] [1.5; 2; 3; 4.25]%float 2 in
  tensor_wf t ∧ Forall finite_double (components t)
  ∧ ∃ id tr r1 r2,
      create_indentity 2 = Some id ∧ transpose t = Some tr
      ∧ matmul t id = Some r1 ∧ matmul id t = Some r2
      ∧ shape r1 = shape tr ∧ shape r2 = shape tr
      ∧ Forall2 double_sim (components r1) (components tr)
      ∧ Forall2 double_sim (components r2) (components tr).
Proof.
  intros t. assert (Hwf : tensor_wf t) by wf_by_evaluation.
  assert (Hfin : Forall finite_double (components t))
    by (repeat (apply Forall_cons; split; [exact I|]); apply Forall_nil_2).
  split; [exact Hwf|]. split; [exact Hfin|].
  exact (matmul_identity_double t 2 Hwf eq_refl Hfin).
Defined.

(** A 3 by 3 matrix of integers and its transpose. *)
Lemma determinant_3x3_witness :
  let t := mkTensor [3; 3] [1; 2; 3; 4; 5; 6; 7; 8; 10] 2 in
  tensor_wf t
  ∧ ∃ f : Z → Z → Z,
      (∀ i j, 0 ≤ i < 3 → 0 ≤ j < 3 → get_value t [i; j] = Some (f i j))
      ∧ determinant t = Some (leibniz3 f)
      ∧ (tr ← transpose t; determinant tr) = Some (leibniz3 f).
Proof.
  intros t. assert (Hwf : tensor_wf t) by wf_by_evaluation.
  split; [exact Hwf|]. exact (determinant_3x3 t Hwf eq_refl).
Defined.

(** The identity matrix of size 3. *)
Lemma determinant_identity_from_2_witness :
  2 ≤ 3 ∧ 3 * 3 ≤ INT_MAX
  ∧ ∃ id : Tensor Z, create_indentity 3 = Some id ∧ determinant id = Some 1.
Proof.
  assert (H2 : 2 ≤ 3) by lia.
  assert (H9 : 3 * 3 ≤ INT_MAX) by (unfold INT_MAX; lia).
  split; [exact H2|]. split; [exact H9|].
  exact (determinant_identity_from_2 (T:=Z) 3 H2 H9).
Defined.

(** The cofactors and the adjugate of a 3 by 3 matrix of integers. *)
Lemma adjugate_entries_witness :
  let t := mkTensor [3; 3] [1; 2; 3; 4; 5; 6; 7; 8; 10] 2 in
  tensor_wf t
  ∧ ∃ cof adj,
      cofactor_matrix t = Some cof ∧ adjugate_matrix t = Some adj
      ∧ shape cof = [3; 3] ∧ shape adj = [3; 3]
      ∧ transpose cof = Some adj
      ∧ ∀ r c, 0 ≤ r < 3 → 0 ≤ c < 3 →
          ∃ x, cofactor t r c = Some x
               ∧ get_value cof [r; c] = Some x
               ∧ get_value adj [c; r] = Some x.
Proof.
  intros t. assert (Hwf : tensor_wf t) by wf_by_evaluation.
  split; [exact Hwf|]. exact (adjugate_entries t 3 Hwf eq_refl).
Defined.

(** A 2 by 2 matrix of integers. *)
Lemma adjugate_2x2_is_zero_witness :
  let t := mkTensor [2; 2] [1; 2; 3; 4] 2 in
  tensor_wf t
  ∧ (∀ r c, 0 ≤ r < 2 → 0 ≤ c < 2 → minor t r c = Some 0)
  ∧ cofactor_matrix t = Some (mkTensor [2; 2] [0; 0; 0; 0] 2)
  ∧ adjugate_matrix t = Some (mkTensor [2; 2] [0; 0; 0; 0] 2).
Proof.
  intros t. assert (Hwf : tensor_wf t) by wf_by_evaluation.
  split; [exact Hwf|]. exact (adjugate_2x2_is_zero t Hwf eq_refl).
Defined.

(** A 3 by 3 matrix of integers times its adjugate. *)
Lemma adjugate_3x3_product_witness :
  let t := mkTensor [3; 3] [1; 2; 3; 4; 5; 6; 7; 8; 10] 2 in
  tensor_wf t
  ∧ ∃ adj d scaled,
      adjugate_matrix t = Some adj ∧ determinant t = Some d
      ∧ (id ← create_indentity 3; product_scalar id d) = Some scaled
      ∧ matmul t adj = Some scaled ∧ matmul adj t = Some scaled.
Proof.
  intros t. assert (Hwf : tensor_wf t) by wf_by_evaluation.
  split; [exact Hwf|]. exact (adjugate_3x3_product t Hwf eq_refl).
Defined.

(** A 2 by 3 matrix applied to a vector of three components. *)
Lemma transform_rows_witness :
  let vec := mkTensor [3] [1; 2; 3] 1 in
  let matrix := mkTensor [2; 3] [1; 2; 3; 4; 5; 6] 2 in
  tensor_wf vec ∧ tensor_wf matrix
  ∧ ∃ (a : Z → Z → Z) (x : Z → Z),
      (∀ r c, 0 ≤ r < 2 → 0 ≤ c < 3 → get_value matrix [r; c] = Some (a r c))
      ∧ (∀ c, 0 ≤ c < 3 → get_value vec [c] = Some (x c))
      ∧ transform vec matrix
        = Some (mkTensor [3]
                  (((λ r, loop_sum 3 (λ c, a r c * x c)) <$> seqZ 0 2)
                   ++ replicate (Z.to_nat (3 - 2)) 0) 1).
Proof.
  intros vec matrix. assert (Hv : tensor_wf vec) by wf_by_evaluation.
  assert (Hm : tensor_wf matrix) by wf_by_evaluation.
  split; [exact Hv|]. split; [exact Hm|].
  assert (H23 : 2 ≤ 3) by lia. assert (H33 : 3 ≤ 3) by lia.
  exact (transform_rows vec matrix 2 3 3 Hv eq_refl Hm eq_refl H23 H33).
Defined.

(** The identity of size 2 applied to [(5, 7)]. *)
Lemma transform_identity_witness :
  let vec := mkTensor [2] [5; 7] 1 in
  tensor_wf vec ∧ 2 * 2 ≤ INT_MAX
  ∧ (id ← create_indentity 2; transform vec id) = Some vec.
Proof.
  intros vec. assert (Hwf : tensor_wf vec) by wf_by_evaluation.
  assert (H4 : 2 * 2 ≤ INT_MAX) by (unfold INT_MAX; lia).
  split; [exact Hwf|]. split; [exact H4|].
  exact (transform_identity vec 2 Hwf eq_refl H4).
Defined.

(** A heap that holds the vector [(1, 2)]. *)
Lemma create_copy_is_deep_witness :
  let h : gmap Mem.loc (Mem.block Z) :=
    <[1%positive := Mem.IntBlock [2]]>
      (<[2%positive := Mem.ScalarBlock [1; 2]]> ∅) in
  let ref := Mem.mkRef 1%positive 2%positive 1 in
  let t := mkTensor [2] [1; 2] 1 in
  Mem.represents h ref t ∧ tensor_wf t
  ∧ create_copy t = Some t
  ∧ Mem.returns_new_tensor h ref t ref t (Mem.create_copy ref h) t.
Proof.
  intros h ref t.
  assert (Hrep : Mem.represents h ref t) by (repeat split; reflexivity).
  assert (Hwf : tensor_wf t) by wf_by_evaluation.
  split; [exact Hrep|]. split; [exact Hwf|].
  exact (create_copy_is_deep h ref t Hrep Hwf).
Defined.

(** The same heap after a copy and its destruction. *)
Lemma destroy_copy_restores_witness :
  let h : gmap Mem.loc (Mem.block Z) :=
    <[1%positive := Mem.IntBlock [2]]>
      (<[2%positive := Mem.ScalarBlock [1; 2]]> ∅) in
  let ref := Mem.mkRef 1%positive 2%positive 1 in
  let t := mkTensor [2] [1; 2] 1 in
  Mem.represents h ref t ∧ tensor_wf t
  ∧ ∃ copy h',
      Mem.create_copy ref h = Some (copy, h')
      ∧ h' !! Mem.shape_ptr copy = Some (Mem.IntBlock (shape t))
      ∧ h' !! Mem.components_ptr copy = Some (Mem.ScalarBlock (components t))
      ∧ Mem.destroy_tensor copy h' = Some h.
Proof.
  intros h ref t.
  assert (Hrep : Mem.represents h ref t) by (repeat split; reflexivity).
  assert (Hwf : tensor_wf t) by wf_by_evaluation.
  split; [exact Hrep|]. split; [exact Hwf|].
  exact (destroy_copy_restores h ref t Hrep Hwf).
Defined.

(** A heap that holds the vectors [(1, 2)] and [(3, 4)]. *)
Lemma dot_leaves_shape_copy_witness :
  let h : gmap Mem.loc (Mem.block Z) :=
    <[1%positive := Mem.IntBlock [2]]>
      (<[2%positive := Mem.ScalarBlock [1; 2]]>
         (<[3%positive := Mem.IntBlock [2]]>
            (<[4%positive := Mem.ScalarBlock [3; 4]]> ∅))) in
  let lhs := Mem.mkRef 1%positive 2%positive 1 in
  let rhs := Mem.mkRef 3%positive 4%positive 1 in
  let l := mkTensor [2] [1; 2] 1 in
  let r := mkTensor [2] [3; 4] 1 in
  Mem.represents h lhs l ∧ Mem.represents h rhs r ∧ tensor_wf l
  ∧ ∃ d p,
      dot l r = Some d
      ∧ h !! p = None
      ∧ Mem.dot lhs rhs h = Some (d, <[p := Mem.IntBlock (shape l)]> h).
Proof.
  intros h lhs rhs l r.
  assert (Hl : Mem.represents h lhs l) by (repeat split; reflexivity).
  assert (Hr : Mem.represents h rhs r) by (repeat split; reflexivity).
  assert (Hwf : tensor_wf l) by wf_by_evaluation.
  split; [exact Hl|]. split; [exact Hr|]. split; [exact Hwf|].
  assert (Hlen : (length (components l) ≤ length (components r))%nat)
    by (simpl; lia).
  exact (dot_leaves_shape_copy h lhs l rhs r Hl Hr Hwf Hlen).
Defined.

(** A heap that holds a shape array [[2]]. *)
Lemma create_tensor_byptr_shares_shape_witness :
  let h : gmap Mem.loc (Mem.block Z) := <[1%positive := Mem.IntBlock [2]]> ∅ in
  h !! 1%positive = Some (Mem.IntBlock [2])
  ∧ ∃ ref1 h1 ref2 h2 h3,
      Mem.create_tensor_byptr 1 1%positive h = Some (ref1, h1)
      ∧ Mem.create_tensor_byptr 1 1%positive h1 = Some (ref2, h2)
      ∧ Mem.shape_ptr ref1 = 1%positive ∧ Mem.shape_ptr ref2 = 1%positive
      ∧ Mem.components_ptr ref1 ≠ Mem.components_ptr ref2
      ∧ Mem.destroy_tensor ref1 h2 = Some h3
      ∧ h3 !! Mem.shape_ptr ref2 = None
      ∧ Mem.destroy_tensor ref2 h3 = None.
Proof.
  intros h.
  assert (Hp : h !! 1%positive = Some (Mem.IntBlock [2])) by reflexivity.
  split; [exact Hp|].
  exact (create_tensor_byptr_shares_shape h 1%positive [2] Hp).
Defined.
